(** * Dataloader: batching, same-batch deduplication and batch isolation

    A shallow embedding of [class Dataloader<T, R>] together with the small
    part of the JavaScript run time that the class relies on:
    promises that settle at most once, the microtask queue, and the promise
    returned by the user supplied [loaderFn].

    Promises are references (indices) into a store of promise states, so
    that "the identical Promise instance" is equality of references.  The
    [resolve] and [reject] functions that the executor of [new Promise]
    receives are represented by the reference of the promise they settle.

    A promise resolved with a thenable adopts it: it is settled neither by
    the call of [resolve] nor by any later call of its [resolve] or
    [reject], but by the jobs through which it follows the thenable.  The
    class never reads the state of a promise, so when those jobs run makes
    no difference to what the class does: they are events of their own
    ([FollowThenable]), free to happen at any time after the thenable has
    been adopted. *)

From stdpp Require Import gmap list strings pretty.

Section Dataloader.

(** [T] is the type of request arguments, [R] the type of results, as in
    [Dataloader<T, R>]; [Err] stands for the values user code throws.  A
    JavaScript [Map] compares keys with SameValueZero, modelled by the
    decidable equality of [T]. *)
Context {T : Type} `{Countable T} {R : Type} {Err : Type}.

(** ** Promises *)

(** A rejection reason is [unknown] in the source: either a value thrown by
    user code, or the [TypeError] the engine raises when something that is
    not a function is called. *)
Inductive Reason :=
  | Thrown (err : Err)
  | TypeError.

(** How a thenable eventually settles.  [R] is the type of the values a
    promise can be fulfilled with, which are never thenables. *)
Inductive Fate :=
  | FateFulfilled (value : R)
  | FateRejected (reason : Reason).

(** What stands at a position of a result array: a plain value, or a
    thenable (such as a promise) with its fate; [Thenable None] never
    settles. *)
Inductive Item :=
  | Plain (value : R)
  | Thenable (fate : option Fate).

(** A promise is pending; or resolved with a thenable whose settlement it
    has not followed yet, if the thenable ever settles (no later [resolve]
    or [reject] counts); or settled. *)
Inductive PromiseState :=
  | Pending
  | Adopting (fate : option Fate)
  | Fulfilled (value : R)
  | Rejected (reason : Reason).

Definition resolvedState (item : Item) : PromiseState :=
  match item with
  | Plain value => Fulfilled value
  | Thenable fate => Adopting fate
  end.

Definition fateState (fate : Fate) : PromiseState :=
  match fate with
  | FateFulfilled value => Fulfilled value
  | FateRejected reason => Rejected reason
  end.

(** [resolve(value)]: fulfils a pending promise with a plain value, makes
    it adopt a thenable, and does nothing to a promise that is resolved
    already. *)
Definition resolve (p : nat) (value : Item) (heap : list PromiseState)
  : list PromiseState :=
  match heap !! p with
  | Some Pending => <[p := resolvedState value]> heap
  | _ => heap
  end.

(** [reject(reason)]: rejects a pending promise, whatever [reason] is, and
    does nothing to a promise that is resolved already. *)
Definition reject (p : nat) (reason : Reason) (heap : list PromiseState)
  : list PromiseState :=
  match heap !! p with
  | Some Pending => <[p := Rejected reason]> heap
  | _ => heap
  end.

(** The promise follows the settlement of the thenable it has adopted: it
    is settled in the same way. *)
Definition followThenable (p : nat) (heap : list PromiseState)
  : list PromiseState :=
  match heap !! p with
  | Some (Adopting (Some fate)) => <[p := fateState fate]> heap
  | _ => heap
  end.

(** ** The loader function *)

(** How the promise returned by [loaderFn] eventually settles.  A result
    array may be sparse: [None] at a position is a hole. *)
Inductive Settlement :=
  | Fulfils (rets : list (option Item))
  | RejectsWith (err : Reason).

(** What a call [this.loaderFn(currentData)] does: its type is
    [(args: T[]) => Promise<R[]> | R[]], and as any function it may throw.
    [ReturnsPromise None] is a promise that never settles. *)
Inductive LoaderResult :=
  | Returns (rets : list (option Item))
  | Throws (err : Reason)
  | ReturnsPromise (settlement : option Settlement).

(** ** The instance fields *)

(** [loaderFn] is the constructor's parameter property.  The function may
    be stateful: its first argument is the list of the arguments of its
    earlier invocations, the second is [args].  It is assumed not to call
    back into the instance while it runs. *)
Record Dataloader := {
  isFlushPending : bool;
  resolveArr : list nat;
  rejectArr : list nat;
  data : list T;
  cachePromises : gmap T nat;
  loaderFn : list (list T) → list T → LoaderResult
}.

Definition set_isFlushPending (b : bool) (d : Dataloader) : Dataloader :=
  {| isFlushPending := b; resolveArr := resolveArr d;
     rejectArr := rejectArr d; data := data d;
     cachePromises := cachePromises d; loaderFn := loaderFn d |}.

Definition set_resolveArr (l : list nat) (d : Dataloader) : Dataloader :=
  {| isFlushPending := isFlushPending d; resolveArr := l;
     rejectArr := rejectArr d; data := data d;
     cachePromises := cachePromises d; loaderFn := loaderFn d |}.

Definition set_rejectArr (l : list nat) (d : Dataloader) : Dataloader :=
  {| isFlushPending := isFlushPending d; resolveArr := resolveArr d;
     rejectArr := l; data := data d;
     cachePromises := cachePromises d; loaderFn := loaderFn d |}.

Definition set_data (l : list T) (d : Dataloader) : Dataloader :=
  {| isFlushPending := isFlushPending d; resolveArr := resolveArr d;
     rejectArr := rejectArr d; data := l;
     cachePromises := cachePromises d; loaderFn := loaderFn d |}.

Definition set_cachePromises (m : gmap T nat) (d : Dataloader) : Dataloader :=
  {| isFlushPending := isFlushPending d; resolveArr := resolveArr d;
     rejectArr := rejectArr d; data := data d;
     cachePromises := m; loaderFn := loaderFn d |}.

(** The constructor: the field initialisers of the class. *)
Definition newDataloader (loaderFn : list (list T) → list T → LoaderResult)
  : Dataloader :=
  {| isFlushPending := false; resolveArr := []; rejectArr := [];
     data := []; cachePromises := ∅; loaderFn := loaderFn |}.

(** ** Microtasks *)

(** The jobs this class puts on the microtask queue.  [JobThen] and
    [JobCatch] are the two callbacks of [flushJobs] with the snapshot they
    close over; [JobThenRejected] is the reaction of [.then(cb)] to a
    rejected loader promise: there is no rejection handler, so the rejection
    is passed on to the promise [.catch] listens on.  The reaction of
    [.catch] to a fulfilment callback that returned normally calls nothing
    of this class and is left out. *)
Inductive Job :=
  | JobFlush
  | JobThen (rets : list (option Item))
      (currentResolvers currentRejectors : list nat)
  | JobThenRejected (err : Reason) (currentRejectors : list nat)
  | JobCatch (err : Reason) (currentRejectors : list nat).

(** A loader promise that has not settled yet, with the snapshot the
    callbacks registered on it close over. *)
Record Fetch := {
  settlement : option Settlement;
  fetchResolvers : list nat;
  fetchRejectors : list nat
}.

(** One invocation of [loaderFn]: the argument it received and the fields
    of the instance as they were at the moment of the call. *)
Record Call := {
  callKeys : list T;
  callSeen : Dataloader
}.

(** ** The world: one instance and the run time around it *)

Record World := {
  loader : Dataloader;
  promises : list PromiseState;
  microtasks : list Job;
  pendingFetches : gmap nat Fetch;
  calls : list Call;
  uncaught : list Reason;
  hasQueueMicrotask : bool
}.

Definition set_loader (d : Dataloader) (w : World) : World :=
  {| loader := d; promises := promises w; microtasks := microtasks w;
     pendingFetches := pendingFetches w; calls := calls w;
     uncaught := uncaught w; hasQueueMicrotask := hasQueueMicrotask w |}.

Definition set_promises (h : list PromiseState) (w : World) : World :=
  {| loader := loader w; promises := h; microtasks := microtasks w;
     pendingFetches := pendingFetches w; calls := calls w;
     uncaught := uncaught w; hasQueueMicrotask := hasQueueMicrotask w |}.

Definition set_microtasks (q : list Job) (w : World) : World :=
  {| loader := loader w; promises := promises w; microtasks := q;
     pendingFetches := pendingFetches w; calls := calls w;
     uncaught := uncaught w; hasQueueMicrotask := hasQueueMicrotask w |}.

Definition set_pendingFetches (m : gmap nat Fetch) (w : World) : World :=
  {| loader := loader w; promises := promises w; microtasks := microtasks w;
     pendingFetches := m; calls := calls w;
     uncaught := uncaught w; hasQueueMicrotask := hasQueueMicrotask w |}.

Definition set_calls (l : list Call) (w : World) : World :=
  {| loader := loader w; promises := promises w; microtasks := microtasks w;
     pendingFetches := pendingFetches w; calls := l;
     uncaught := uncaught w; hasQueueMicrotask := hasQueueMicrotask w |}.

Definition set_uncaught (l : list Reason) (w : World) : World :=
  {| loader := loader w; promises := promises w; microtasks := microtasks w;
     pendingFetches := pendingFetches w; calls := calls w;
     uncaught := l; hasQueueMicrotask := hasQueueMicrotask w |}.

Definition enqueue (j : Job) (w : World) : World :=
  set_microtasks (microtasks w ++ [j]) w.

(** [new Dataloader(loaderFn)] in a fresh run time; [qm] tells whether
    [queueMicrotask] exists in [globalThis].  The fields of [World] besides
    the instance: the promise store, the microtask queue (oldest first), the
    loader promises not settled yet (by invocation number), the log of the
    invocations of [loaderFn], and the exceptions nobody caught. *)
Definition init (loaderFn : list (list T) → list T → LoaderResult) (qm : bool)
  : World :=
  {| loader := newDataloader loaderFn; promises := []; microtasks := [];
     pendingFetches := ∅; calls := []; uncaught := [];
     hasQueueMicrotask := qm |}.

(** ** [load] *)

(** Both ways of scheduling put [this.flushJobs] at the end of the
    microtask queue: [Promise.resolve()] is already fulfilled, so its
    [then] queues the reaction at once. *)
Definition scheduleFlush (w : World) : World :=
  if hasQueueMicrotask w then enqueue JobFlush w else enqueue JobFlush w.

Definition load (arg : T) (w : World) : nat * World :=
  match cachePromises (loader w) !! arg with
  | Some promise => (promise, w)
  | None =>
      (* new Promise(...) : the executor runs synchronously *)
      let promise := length (promises w) in
      let w := set_promises (promises w ++ [Pending]) w in
      let w := set_loader
                 (set_resolveArr (resolveArr (loader w) ++ [promise]) (loader w)) w in
      let w := set_loader
                 (set_rejectArr (rejectArr (loader w) ++ [promise]) (loader w)) w in
      let w := set_loader (set_data (data (loader w) ++ [arg]) (loader w)) w in
      let w := if negb (isFlushPending (loader w))
               then scheduleFlush
                      (set_loader (set_isFlushPending true (loader w)) w)
               else w in
      let w := set_loader
                 (set_cachePromises (<[arg := promise]> (cachePromises (loader w)))
                    (loader w)) w in
      (promise, w)
  end.

(** ** [flushJobs] *)

Definition invokeLoaderFn (keys : list T) (w : World) : LoaderResult * World :=
  (loaderFn (loader w) (callKeys <$> calls w) keys,
   set_calls (calls w ++ [{| callKeys := keys; callSeen := loader w |}]) w).

Definition flushJobs (w : World) : World :=
  if Nat.eqb (length (data (loader w))) 0 then
    set_loader (set_isFlushPending false (loader w)) w
  else
    let currentData := data (loader w) in
    let currentResolvers := resolveArr (loader w) in
    let currentRejectors := rejectArr (loader w) in
    let w := set_loader (set_cachePromises ∅ (loader w)) w in
    let w := set_loader
               (set_rejectArr [] (set_resolveArr [] (set_data [] (loader w)))) w in
    let w := set_loader (set_isFlushPending false (loader w)) w in
    let call := length (calls w) in
    let '(result, w) := invokeLoaderFn currentData w in
    match result with
    | Returns rets =>
        (* Promise.resolve(array) is fulfilled: the reaction is queued now *)
        enqueue (JobThen rets currentResolvers currentRejectors) w
    | Throws err =>
        (* the exception leaves flushJobs before .then and .catch are reached *)
        set_uncaught (uncaught w ++ [err]) w
    | ReturnsPromise s =>
        set_pendingFetches
          (<[call := {| settlement := s; fetchResolvers := currentResolvers;
                        fetchRejectors := currentRejectors |}]> (pendingFetches w)) w
    end.

(** [rets.forEach((ret, index) => { currentResolvers[index](ret); })]:
    [forEach] does not call the callback at a hole; calling [undefined]
    throws a [TypeError] and ends the iteration. *)
Fixpoint forEachResolve (rets : list (option Item)) (index : nat)
    (currentResolvers : list nat) (heap : list PromiseState)
  : list PromiseState * option Reason :=
  match rets with
  | [] => (heap, None)
  | None :: rets' => forEachResolve rets' (S index) currentResolvers heap
  | Some ret :: rets' =>
      match currentResolvers !! index with
      | Some p =>
          forEachResolve rets' (S index) currentResolvers (resolve p ret heap)
      | None => (heap, Some TypeError)
      end
  end.

(** [currentRejectors.forEach((rej) => rej(err))] *)
Definition forEachReject (err : Reason) (currentRejectors : list nat)
    (heap : list PromiseState) : list PromiseState :=
  foldl (λ h p, reject p err h) heap currentRejectors.

(** ** Running the microtask queue *)

Definition runJob (j : Job) (w : World) : World :=
  match j with
  | JobFlush => flushJobs w
  | JobThen rets currentResolvers currentRejectors =>
      let '(heap, thrown) :=
        forEachResolve rets 0 currentResolvers (promises w) in
      let w := set_promises heap w in
      match thrown with
      | None => w
      | Some err => enqueue (JobCatch err currentRejectors) w
      end
  | JobThenRejected err currentRejectors =>
      enqueue (JobCatch err currentRejectors) w
  | JobCatch err currentRejectors =>
      set_promises (forEachReject err currentRejectors (promises w)) w
  end.

(** The engine takes the oldest microtask and runs it. *)
Definition tick (w : World) : World :=
  match microtasks w with
  | [] => w
  | j :: q => runJob j (set_microtasks q w)
  end.

Fixpoint ticks (n : nat) (w : World) : World :=
  match n with
  | 0 => w
  | S n => ticks n (tick w)
  end.

(** The loader promise of invocation number [call] settles: the reaction
    registered by [.then] is queued. *)
Definition settle (call : nat) (w : World) : World :=
  match pendingFetches w !! call with
  | None => w
  | Some f =>
      match settlement f with
      | None => w
      | Some (Fulfils rets) =>
          enqueue (JobThen rets (fetchResolvers f) (fetchRejectors f))
            (set_pendingFetches (delete call (pendingFetches w)) w)
      | Some (RejectsWith err) =>
          enqueue (JobThenRejected err (fetchRejectors f))
            (set_pendingFetches (delete call (pendingFetches w)) w)
      end
  end.

(** A bound on the number of jobs a job can give rise to, itself included. *)
Definition jobRank (j : Job) : nat :=
  match j with
  | JobFlush => 3
  | JobThen _ _ _ => 2
  | JobThenRejected _ _ => 2
  | JobCatch _ _ => 1
  end.

Definition queueRank (q : list Job) : nat := foldr (λ j n, jobRank j + n) 0 q.

(** A microtask checkpoint: the queue of the jobs of the class is run
    until it is empty. *)
Definition runMicrotasks (w : World) : World :=
  ticks (queueRank (microtasks w)) w.

(** ** Executions *)

(** What may happen next: user code calls [load]; the first job of the
    microtask queue runs; the promise returned by an invocation of the
    loader function settles; a promise follows the settlement of the
    thenable it has adopted. *)
Inductive Event :=
  | CallLoad (arg : T)
  | RunMicrotask
  | SettleFetch (call : nat)
  | FollowThenable (p : nat).

Definition step (ev : Event) (w : World) : World :=
  match ev with
  | CallLoad arg => (load arg w).2
  | RunMicrotask => tick w
  | SettleFetch call => settle call w
  | FollowThenable p => set_promises (followThenable p (promises w)) w
  end.

Definition run (evs : list Event) (w : World) : World :=
  foldl (λ w ev, step ev w) w evs.

Inductive reachable : World → Prop :=
  | reachable_init fn qm : reachable (init fn qm)
  | reachable_step ev w : reachable w → reachable (step ev w).

(** A synchronous segment calling [load] on each argument in turn; the
    promises returned, in call order. *)
Fixpoint loadAll (args : list T) (w : World) : list nat * World :=
  match args with
  | [] => ([], w)
  | arg :: args' =>
      let '(p, w) := load arg w in
      let '(ps, w) := loadAll args' w in
      (p :: ps, w)
  end.

(** [Array.prototype.indexOf]: the position of the first occurrence. *)
Fixpoint indexOf (x : T) (l : list T) : option nat :=
  match l with
  | [] => None
  | y :: l' => if decide (x = y) then Some 0 else S <$> indexOf x l'
  end.

(** ** Notions used to state the properties *)

(** Following the spec's words, "the deduplicated key list in first-seen
    order": a key is kept at its first occurrence only. *)
Definition pushNew (acc : list T) (k : T) : list T :=
  if decide (k ∈ acc) then acc else acc ++ [k].

Definition dedupFirstSeen (ks : list T) : list T := foldl pushNew [] ks.

Definition isFlush (j : Job) : bool :=
  match j with
  | JobFlush => true
  | _ => false
  end.

(** The number of scheduled executions of [flushJobs]. *)
Fixpoint countFlush (q : list Job) : nat :=
  match q with
  | [] => 0
  | j :: q' => (if isFlush j then 1 else 0) + countFlush q'
  end.

(** The promises a job holds a [resolve] or [reject] function of. *)
Definition jobRefs (j : Job) : list nat :=
  match j with
  | JobFlush => []
  | JobThen _ currentResolvers currentRejectors =>
      currentResolvers ++ currentRejectors
  | JobThenRejected _ currentRejectors => currentRejectors
  | JobCatch _ currentRejectors => currentRejectors
  end.

Definition fetchRefs (f : Fetch) : list nat :=
  fetchResolvers f ++ fetchRejectors f.

(** [unowned w p]: no [resolve] or [reject] function of promise [p] is
    held anywhere any more, so that nothing can settle [p]. *)
Definition unowned (w : World) (p : nat) : Prop :=
(p ∉ resolveArr (loader w)) ∧ (p ∉ rejectArr (loader w)) ∧
  Forall (λ j, p ∉ jobRefs j) (microtasks w) ∧
  map_Forall (λ _ f, p ∉ fetchRefs f) (pendingFetches w).

(** A job that is not a flush and only holds promises below [n]. *)
Definition sideJob (n : nat) (j : Job) : Prop :=
  isFlush j = false ∧ Forall (λ p, p < n) (jobRefs j).

(** The callbacks of one snapshot are parallel: the i-th resolver and the
    i-th rejector belong to the same promise. *)
Definition wfJob (n : nat) (j : Job) : Prop :=
  Forall (λ p, p < n) (jobRefs j) ∧
  match j with
  | JobThen _ currentResolvers currentRejectors =>
      currentRejectors = currentResolvers
  | _ => True
  end.

Definition wfFetch (n : nat) (f : Fetch) : Prop :=
  Forall (λ p, p < n) (fetchRefs f) ∧ fetchRejectors f = fetchResolvers f.

(** The fields of an instance fit together; [n] is the size of the promise
    store. *)
Record coherent (n : nat) (d : Dataloader) : Prop := {
  coh_parallel : rejectArr d = resolveArr d;
  coh_length : length (resolveArr d) = length (data d);
  coh_nodup : NoDup (data d);
  coh_cache : ∀ k p,
    cachePromises d !! k = Some p ↔
    ∃ i, data d !! i = Some k ∧ resolveArr d !! i = Some p;
  coh_bound : Forall (λ p, p < n) (resolveArr d);
  coh_flag : isFlushPending d = negb (Nat.eqb (length (data d)) 0)
}.

Record invariant (w : World) : Prop := {
  inv_loader : coherent (length (promises w)) (loader w);
  inv_flush :
    countFlush (microtasks w) = if isFlushPending (loader w) then 1 else 0;
  inv_jobs : Forall (wfJob (length (promises w))) (microtasks w);
  inv_fetches :
    map_Forall (λ c f, c < length (calls w) ∧ wfFetch (length (promises w)) f)
      (pendingFetches w);
  inv_calls :
    Forall (λ c, callKeys c ≠ [] ∧
                 callSeen c = newDataloader (loaderFn (loader w)))
      (calls w)
}.

(** The world right after [flushJobs] has called the loader function on a
    batch that is not empty. *)
Definition afterInvoke (w : World) : World :=
  set_calls
    (calls w ++ [{| callKeys := data (loader w);
                    callSeen := newDataloader (loaderFn (loader w)) |}])
    (set_loader (newDataloader (loaderFn (loader w))) w).

Definition isLoad (ev : Event) : bool :=
  match ev with
  | CallLoad _ => true
  | _ => false
  end.

(** [flushFree evs w]: in the execution [evs] from [w] no microtask that
    runs is [flushJobs]. *)
Fixpoint flushFree (evs : list Event) (w : World) : Prop :=
  match evs with
  | [] => True
  | ev :: evs' =>
      match ev, microtasks w with
      | RunMicrotask, JobFlush :: _ => False
      | _, _ => flushFree evs' (step ev w)
      end
  end.

(** The loader function succeeds with [rets], at once or later. *)
Definition succeedsWith (res : LoaderResult) (rets : list (option Item))
  : Prop :=
  res = Returns rets ∨ res = ReturnsPromise (Some (Fulfils rets)).

(** [overflows m rets]: something other than a hole stands at position
    [m] or later. *)
Definition overflows (m : nat) (rets : list (option Item)) : Prop :=
  Exists is_Some (drop m rets).

(** A result array without holes. *)
Definition dense (items : list Item) : list (option Item) := Some <$> items.

(** A result array without holes, of plain values. *)
Definition plain (values : list R) : list (option Item) :=
  (λ value, Some (Plain value)) <$> values.

Definition isSettled (st : PromiseState) : Prop :=
  match st with
  | Fulfilled _ | Rejected _ => True
  | _ => False
  end.

(** [follows item st]: [st] is a state of a promise resolved with [item]:
    fulfilled with a plain value; adopting a thenable, or settled as the
    thenable has. *)
Definition follows (item : Item) (st : PromiseState) : Prop :=
  match item with
  | Plain value => st = Fulfilled value
  | Thenable fate =>
      st = Adopting fate ∨ ∃ f, fate = Some f ∧ st = fateState f
  end.

(** In the store [heap], promise [p] is resolved with [item]. *)
Definition resolvedWith (heap : list PromiseState) (p : nat) (item : Item)
  : Prop :=
  ∃ st, heap !! p = Some st ∧ follows item st.

(** The state of a promise resolved with [item] once the thenable, if
    [item] is one, has settled. *)
Definition finalState (item : Item) : PromiseState :=
  match item with
  | Plain value => Fulfilled value
  | Thenable (Some f) => fateState f
  | Thenable None => Adopting None
  end.

(** ** Notions for executions with several batches *)

(** The arguments of the [load] calls of an execution, in call order. *)
Fixpoint loadedKeys (evs : list Event) : list T :=
  match evs with
  | [] => []
  | CallLoad arg :: evs' => arg :: loadedKeys evs'
  | _ :: evs' => loadedKeys evs'
  end.

(** [awaiting w p]: promise [p] is pending and its callbacks are held by
    the instance only, not by a queued job or a loader promise. *)
Definition awaiting (w : World) (p : nat) : Prop :=
  promises w !! p = Some Pending ∧
  Forall (λ j, p ∉ jobRefs j) (microtasks w) ∧
  map_Forall (λ _ f, p ∉ fetchRefs f) (pendingFetches w).

(** [inert w p]: the callbacks of promise [p] are held, if at all, only by
    loader promises that never settle. *)
Definition inert (w : World) (p : nat) : Prop :=
  (p ∉ resolveArr (loader w)) ∧ (p ∉ rejectArr (loader w)) ∧
  Forall (λ j, p ∉ jobRefs j) (microtasks w) ∧
  map_Forall (λ _ f, p ∈ fetchRefs f → settlement f = None)
    (pendingFetches w).

End Dataloader.

(** ** Loader functions and worlds of the test suite

    Keys and results are numbers, errors are messages.  The numbers are
    integers; the products below are those of the source as long as they
    stay in the range that JavaScript numbers represent exactly. *)

(** [async (keys) => keys.map((key) => key * 10)] with the promise already
    settled or settling later, and its synchronous variant. *)
Definition tenfoldAsync (_ : list (list Z)) (keys : list Z)
  : @LoaderResult Z string :=
  ReturnsPromise (Some (Fulfils (plain ((λ key, key * 10)%Z <$> keys)))).

Definition tenfold (_ : list (list Z)) (keys : list Z)
  : @LoaderResult Z string :=
  Returns (plain ((λ key, key * 10)%Z <$> keys)).

(** [async () => { throw error }]: the returned promise rejects. *)
Definition failingAsync (_ : list (list Z)) (_ : list Z)
  : @LoaderResult Z string :=
  ReturnsPromise (Some (RejectsWith (Thrown "Batch load failed"%string))).

(** [() => { throw error }]: a loader function that is not [async]. *)
Definition failingSync (_ : list (list Z)) (_ : list Z)
  : @LoaderResult Z string :=
  Throws (Thrown "Batch load failed"%string).

(** Loader functions that break the contract on the length of the result. *)
Definition oneShort (_ : list (list Z)) (keys : list Z)
  : @LoaderResult Z string :=
  Returns (plain ((λ key, key * 10)%Z <$> take (length keys - 1) keys)).

Definition oneLong (_ : list (list Z)) (keys : list Z)
  : @LoaderResult Z string :=
  Returns (plain (((λ key, key * 10)%Z <$> keys) ++ [0%Z])).

(** Loader functions that return a sparse array: [() => [10, , 30]] and
    [() => [10, , 30, 40]]. *)
Definition withHole (_ : list (list Z)) (_ : list Z)
  : @LoaderResult Z string :=
  Returns [Some (Plain 10%Z); None; Some (Plain 30%Z)].

Definition holeAndExtra (_ : list (list Z)) (_ : list Z)
  : @LoaderResult Z string :=
  Returns [Some (Plain 10%Z); None; Some (Plain 30%Z); Some (Plain 40%Z)].

(** [async (keys) => keys.map((key) => fetchByKey(key))]: the result
    holds one promise per key, that of a request which fails for a negative
    key and yields the tenfold of any other. *)
Definition fetchByKey (key : Z) : @Item Z string :=
  Thenable (Some (if (key <? 0)%Z
                  then FateRejected (Thrown "Not found"%string)
                  else FateFulfilled (key * 10)%Z)).

Definition perKeyRequests (_ : list (list Z)) (keys : list Z)
  : @LoaderResult Z string :=
  ReturnsPromise (Some (Fulfils (dense (fetchByKey <$> keys)))).

(** A fresh instance, and one with the batch [1; 2] open. *)
Definition freshWorld (fn : list (list Z) → list Z → @LoaderResult Z string)
  : @World Z _ _ Z string :=
  init fn true.

Definition openWorld (fn : list (list Z) → list Z → @LoaderResult Z string)
  : @World Z _ _ Z string :=
  step (CallLoad 2%Z) (step (CallLoad 1%Z) (freshWorld fn)).

(** An instance that has completed the batch [1; 2]. *)
Definition usedWorld : @World Z _ _ Z string :=
  step RunMicrotask (step RunMicrotask (openWorld tenfold)).

(** A loader function that fails on its first invocation only, and one
    whose promise is never settled. *)
Definition failsOnce (hist : list (list Z)) (keys : list Z)
  : @LoaderResult Z string :=
  match hist with
  | [] => ReturnsPromise (Some (RejectsWith (Thrown "First batch failed"%string)))
  | _ :: _ =>
      ReturnsPromise (Some (Fulfils (plain ((λ key, key * 10)%Z <$> keys))))
  end.

Definition neverSettles (_ : list (list Z)) (_ : list Z)
  : @LoaderResult Z string :=
  ReturnsPromise None.

(** ** The loader function of the error-handling example

    [fetchUsersByIds] builds one user per id, after a delay; the loader
    function of the example rejects a batch with a negative id and hands the
    others to [fetchUsersByIds].  Ids are integers; [show] stands for the
    conversion of a number to a string in a template literal; writing to the
    console is left out. *)

Record User := {
  userId : Z;
  userName : string;
  userEmail : string
}.

Definition mkUser (show : Z → string) (id : Z) : User :=
  {| userId := id;
     userName := "User " +:+ show id;
     userEmail := "user" +:+ show id +:+ "@example.com" |}.

Definition fetchUsersByIds (show : Z → string) (ids : list Z)
  : @Settlement User string :=
  Fulfils (plain (mkUser show <$> ids)).

Definition invalidId : @Reason string :=
  Thrown "Invalid ID: negative values not allowed"%string.

Definition guardedLoader (show : Z → string) (_ : list (list Z))
    (ids : list Z) : @LoaderResult User string :=
  if existsb (λ id, (id <? 0)%Z) ids
  then ReturnsPromise (Some (RejectsWith invalidId))
  else ReturnsPromise (Some (fetchUsersByIds show ids)).

(** * Properties *)

Section Properties.

Context {T : Type} `{Countable T} {R : Type} {Err : Type}.

Implicit Types (w V : @World T _ _ R Err) (d : @Dataloader T _ _ R Err).
Implicit Types (h heap : list (@PromiseState R Err)) (j : @Job R Err).
Implicit Types (rets : list (option (@Item R Err))) (err : @Reason Err) (p n : nat).
Implicit Types (item : @Item R Err) (st : @PromiseState R Err).

(** ** Promises settle at most once *)

Lemma length_resolve p v h : length (resolve p v h) = length h.
Proof.
  unfold resolve. destruct (h !! p) as [[]|]; auto using length_insert.
Qed.

Lemma length_reject p err h : length (reject p err h) = length h.
Proof.
  unfold reject. destruct (h !! p) as [[]|]; auto using length_insert.
Qed.

Lemma resolve_lookup_ne p q v h : p ≠ q → resolve p v h !! q = h !! q.
Proof.
  intros Hne. unfold resolve.
  destruct (h !! p) as [[]|]; auto using list_lookup_insert_ne.
Qed.

Lemma reject_lookup_ne p q err h : p ≠ q → reject p err h !! q = h !! q.
Proof.
  intros Hne. unfold reject.
  destruct (h !! p) as [[]|]; auto using list_lookup_insert_ne.
Qed.

Lemma resolve_settled p q v h st :
  h !! q = Some st → st ≠ Pending → resolve p v h !! q = Some st.
Proof.
  intros Hq Hst. destruct (decide (p = q)) as [->|Hne].
  - unfold resolve. rewrite Hq. destruct st; congruence.
  - by rewrite resolve_lookup_ne.
Qed.

Lemma reject_settled p q err h st :
  h !! q = Some st → st ≠ Pending → reject p err h !! q = Some st.
Proof.
  intros Hq Hst. destruct (decide (p = q)) as [->|Hne].
  - unfold reject. rewrite Hq. destruct st; congruence.
  - by rewrite reject_lookup_ne.
Qed.

Lemma resolve_pending p v h :
  h !! p = Some Pending → resolve p v h !! p = Some (resolvedState v).
Proof.
  intros Hp. unfold resolve. rewrite Hp.
  apply list_lookup_insert_eq. by eapply lookup_lt_Some.
Qed.

Lemma reject_pending p err h :
  h !! p = Some Pending → reject p err h !! p = Some (Rejected err).
Proof.
  intros Hp. unfold reject. rewrite Hp.
  apply list_lookup_insert_eq. by eapply lookup_lt_Some.
Qed.

Lemma resolvedState_not_pending item : resolvedState item ≠ Pending.
Proof. by destruct item. Qed.

Lemma isSettled_not_pending st : isSettled st → st ≠ Pending.
Proof. by destruct st. Qed.

(** ** Following a thenable *)

Lemma length_followThenable p h : length (followThenable p h) = length h.
Proof.
  unfold followThenable.
  destruct (h !! p) as [[|[]| |]|]; auto using length_insert.
Qed.

Lemma followThenable_lookup_ne p q h :
  p ≠ q → followThenable p h !! q = h !! q.
Proof.
  intros Hne. unfold followThenable.
  destruct (h !! p) as [[|[]| |]|]; auto using list_lookup_insert_ne.
Qed.

(** Only a promise that adopts a thenable changes, and it settles. *)
Lemma followThenable_lookup p q h st :
  followThenable p h !! q = Some st →
  h !! q = Some st ∨
  ∃ f, p = q ∧ h !! q = Some (Adopting (Some f)) ∧ st = fateState f.
Proof.
  intros Hst. destruct (decide (p = q)) as [->|Hne].
  - unfold followThenable in Hst.
    destruct (h !! q) as [[|[f|]| |]|] eqn:Hq; rewrite ?Hq in Hst; auto.
    rewrite list_lookup_insert_eq in Hst by by eapply lookup_lt_Some.
    right. exists f. by simplify_eq.
  - left. by rewrite followThenable_lookup_ne in Hst.
Qed.

Lemma followThenable_pending p q h :
  h !! q = Some Pending → followThenable p h !! q = Some Pending.
Proof.
  intros Hq. destruct (decide (p = q)) as [->|Hne].
  - unfold followThenable. by rewrite Hq.
  - by rewrite followThenable_lookup_ne.
Qed.

Lemma followThenable_settled p q h st :
  h !! q = Some st → isSettled st → followThenable p h !! q = Some st.
Proof.
  intros Hq Hst. destruct (decide (p = q)) as [->|Hne].
  - unfold followThenable. rewrite Hq. by destruct st.
  - by rewrite followThenable_lookup_ne.
Qed.

Lemma followThenable_follows p q h item st :
  h !! q = Some st → follows item st →
  ∃ st', followThenable p h !! q = Some st' ∧ follows item st'.
Proof.
  intros Hq Hst.
  assert (is_Some (followThenable p h !! q)) as [st' Hst'].
  { apply lookup_lt_is_Some. rewrite length_followThenable.
    by eapply lookup_lt_Some. }
  exists st'. split; [done|].
  apply followThenable_lookup in Hst' as [Hsame|(f & -> & Hf & ->)].
  - by simplify_eq.
  - simplify_eq. destruct item as [v|fate]; simpl in *; [done|].
    destruct Hst as [Hst|(f' & -> & Hst)]; simplify_eq.
    + right. by exists f.
    + by destruct f'.
Qed.

(** ** The two callbacks of [flushJobs] *)

Lemma forEachResolve_length rets : ∀ i res h,
  length (forEachResolve rets i res h).1 = length h.
Proof.
  induction rets as [|[r|] rets IH]; intros i res h; simpl; [done| |done].
  destruct (res !! i); simpl; [|done]. by rewrite IH, length_resolve.
Qed.

Lemma forEachResolve_other rets q : ∀ i res h,
  q ∉ res → (forEachResolve rets i res h).1 !! q = h !! q.
Proof.
  induction rets as [|[r|] rets IH]; intros i res h Hq; simpl; [done| |auto].
  destruct (res !! i) as [p|] eqn:Hp; simpl; [|done].
  rewrite IH by done. apply resolve_lookup_ne.
  intros ->. apply Hq. by eapply list_elem_of_lookup_2.
Qed.

Lemma forEachResolve_settled rets q st : ∀ i res h,
  h !! q = Some st → st ≠ Pending →
  (forEachResolve rets i res h).1 !! q = Some st.
Proof.
  induction rets as [|[r|] rets IH]; intros i res h Hq Hst; simpl;
    [done| |auto].
  destruct (res !! i) as [p|]; simpl; [|done].
  apply IH; [|done]. by apply resolve_settled.
Qed.

(** The i-th result, unless it is a hole, goes to the i-th resolver. *)
Lemma forEachResolve_at rets : ∀ i res h k p item,
  NoDup res → res !! k = Some p → i ≤ k →
  rets !! (k - i) = Some (Some item) →
  h !! p = Some Pending →
  (forEachResolve rets i res h).1 !! p = Some (resolvedState item).
Proof.
  induction rets as [|r0 rets IH]; intros i res h k p item Hnd Hk Hik Hr Hp;
    simpl; [done|].
  destruct (decide (k = i)) as [->|Hne].
  - rewrite Hk. replace (i - i) with 0 in Hr by lia. simplify_eq/=.
    apply forEachResolve_settled; [|apply resolvedState_not_pending].
    by apply resolve_pending.
  - assert (is_Some (res !! i)) as [q Hq].
    { apply lookup_lt_is_Some. apply lookup_lt_Some in Hk. lia. }
    replace (k - i) with (S (k - S i)) in Hr by lia.
    destruct r0 as [r0|]; [|apply (IH (S i) res _ k); (done || lia)].
    rewrite Hq.
    apply (IH (S i) res _ k); [done|done|lia|done|].
    rewrite resolve_lookup_ne; [done|].
    intros ->. apply Hne. by eapply NoDup_lookup.
Qed.

(** A resolver whose position holds a hole, or lies outside the result
    array, is not called. *)
Lemma forEachResolve_skipped rets : ∀ i res h k p,
  NoDup res → res !! k = Some p →
  k < i ∨ rets !! (k - i) = Some None ∨ i + length rets ≤ k →
  (forEachResolve rets i res h).1 !! p = h !! p.
Proof.
  induction rets as [|r0 rets IH]; intros i res h k p Hnd Hk Hrange;
    simpl in *; [done|].
  assert (k ≤ i ∨ rets !! (k - S i) = Some None ∨ S i + length rets ≤ k)
    as Hnext.
  { destruct Hrange as [?|[Hh|?]]; [lia| |lia].
    destruct (decide (k ≤ i)); [by left|].
    replace (k - i) with (S (k - S i)) in Hh by lia. auto. }
  assert (k < S i ∨ rets !! (k - S i) = Some None ∨ S i + length rets ≤ k)
    as Hnext' by (destruct Hnext as [?|[?|?]]; [left; lia|auto..]).
  destruct r0 as [r0|]; [|by apply (IH (S i) res _ k)].
  destruct (res !! i) as [q|] eqn:Hq; simpl; [|done].
  rewrite (IH (S i) res _ k) by done.
  apply resolve_lookup_ne. intros ->.
  assert (i = k) as -> by by eapply NoDup_lookup.
  destruct Hrange as [?|[Hh|?]]; [lia| |lia].
  replace (k - k) with 0 in Hh by lia. by simplify_eq/=.
Qed.

(** The iteration throws exactly when a result that is not a hole stands
    at a position without a resolver, and what it throws is a
    [TypeError]. *)
Lemma forEachResolve_thrown rets : ∀ i res h,
  (forEachResolve rets i res h).2 =
  if decide (overflows (length res - i) rets) then Some TypeError else None.
Proof.
  unfold overflows.
  induction rets as [|r0 rets IH]; intros i res h; simpl.
  - rewrite drop_nil. rewrite decide_False; [done|].
    intros Hex. by apply Exists_nil in Hex.
  - assert (r0 = None →
            Exists is_Some (drop (length res - i) (r0 :: rets)) ↔
            Exists is_Some (drop (length res - S i) rets)) as Hhole.
    { intros ->. destruct (length res - i) as [|c] eqn:Hc.
      - replace (length res - S i) with 0 by lia. simpl.
        rewrite Exists_cons. split; [|auto].
        intros [[? ?]|?]; [done|by rewrite drop_0 in *].
      - replace (length res - S i) with c by lia. done. }
    destruct r0 as [r0|].
    + destruct (res !! i) as [q|] eqn:Hq; simpl.
      * rewrite IH. apply lookup_lt_Some in Hq.
        replace (length res - i) with (S (length res - S i)) by lia. done.
      * apply lookup_ge_None in Hq.
        replace (length res - i) with 0 by lia.
        rewrite decide_True; [done|]. apply Exists_cons_hd. by eexists.
    + rewrite IH. specialize (Hhole eq_refl).
      repeat case_decide; tauto || done.
Qed.

(** With no more results than resolvers the iteration does not throw. *)
Lemma not_overflows m rets : length rets ≤ m → ¬ overflows m rets.
Proof.
  intros Hlen. unfold overflows. rewrite drop_ge by done.
  intros Hex. by apply Exists_nil in Hex.
Qed.

(** Without holes, it throws as soon as there are more. *)
Lemma overflows_dense m (items : list (@Item R Err)) :
  overflows m (dense items) ↔ m < length items.
Proof.
  unfold overflows, dense. split.
  - intros Hex. destruct (decide (m < length items)); [done|].
    rewrite drop_ge in Hex by (rewrite length_fmap; lia).
    by apply Exists_nil in Hex.
  - intros Hlt. destruct (lookup_lt_is_Some_2 items m Hlt) as [item Hitem].
    apply Exists_exists. exists (Some item). split; [|by eexists].
    apply list_elem_of_lookup. exists 0.
    rewrite lookup_drop, Nat.add_0_r, list_lookup_fmap, Hitem. done.
Qed.

Lemma forEachReject_length err rej : ∀ h,
  length (forEachReject err rej h) = length h.
Proof.
  unfold forEachReject. induction rej as [|p rej IH]; intros h; simpl; [done|].
  by rewrite IH, length_reject.
Qed.

Lemma forEachReject_other err rej q : ∀ h,
  q ∉ rej → forEachReject err rej h !! q = h !! q.
Proof.
  unfold forEachReject. induction rej as [|p rej IH]; intros h Hq; simpl; [done|].
  rewrite IH by set_solver. apply reject_lookup_ne. set_solver.
Qed.

Lemma forEachReject_settled err rej q st : ∀ h,
  h !! q = Some st → st ≠ Pending → forEachReject err rej h !! q = Some st.
Proof.
  unfold forEachReject. induction rej as [|p rej IH]; intros h Hq Hst; simpl; [done|].
  apply IH; [|done]. by apply reject_settled.
Qed.

Lemma forEachReject_at err rej p : ∀ h,
  p ∈ rej → h !! p = Some Pending →
  forEachReject err rej h !! p = Some (Rejected err).
Proof.
  induction rej as [|q rej IH]; intros h Hin Hp; [by apply elem_of_nil in Hin|].
  change (forEachReject err (q :: rej) h)
    with (forEachReject err rej (reject q err h)).
  destruct (decide (q = p)) as [->|Hne].
  - apply forEachReject_settled; [|done]. by apply reject_pending.
  - apply elem_of_cons in Hin as [->|Hin]; [done|].
    apply IH; [done|]. by rewrite reject_lookup_ne.
Qed.

(** Once every promise of the snapshot is settled, rejecting is idle. *)
Lemma forEachReject_idle err rej : ∀ h,
  Forall (λ p, ∀ st, h !! p = Some st → st ≠ Pending) rej →
  forEachReject err rej h = h.
Proof.
  unfold forEachReject. induction rej as [|p rej IH]; intros h Hall; simpl; [done|].
  apply Forall_cons in Hall as [Hp Hall].
  assert (reject p err h = h) as ->; [|by apply IH].
  unfold reject. destruct (h !! p) as [[]|] eqn:E; try done.
  by destruct (Hp _ eq_refl).
Qed.

(** ** [load] and [flushJobs] written out *)

Lemma load_cached k p w :
  cachePromises (loader w) !! k = Some p → load k w = (p, w).
Proof. intros Hc. unfold load. by rewrite Hc. Qed.

Lemma load_new k w :
  cachePromises (loader w) !! k = None →
  load k w =
  (length (promises w),
   {| loader :=
        {| isFlushPending := true;
           resolveArr := resolveArr (loader w) ++ [length (promises w)];
           rejectArr := rejectArr (loader w) ++ [length (promises w)];
           data := data (loader w) ++ [k];
           cachePromises := <[k := length (promises w)]> (cachePromises (loader w));
           loaderFn := loaderFn (loader w) |};
      promises := promises w ++ [Pending];
      microtasks := if isFlushPending (loader w) then microtasks w
                    else microtasks w ++ [JobFlush];
      pendingFetches := pendingFetches w;
      calls := calls w;
      uncaught := uncaught w;
      hasQueueMicrotask := hasQueueMicrotask w |}).
Proof.
  intros Hc. unfold load. rewrite Hc.
  destruct w as [[flag res rej dat cache fn] h q f c u qm]; simpl.
  by destruct flag, qm.
Qed.

Lemma flushJobs_empty w :
  data (loader w) = [] →
  flushJobs w = set_loader (set_isFlushPending false (loader w)) w.
Proof. intros Hd. unfold flushJobs. by rewrite Hd. Qed.

Lemma flushJobs_nonempty w :
  data (loader w) ≠ [] →
  flushJobs w =
  match loaderFn (loader w) (callKeys <$> calls w) (data (loader w)) with
  | Returns rets =>
      enqueue (JobThen rets (resolveArr (loader w)) (rejectArr (loader w)))
        (afterInvoke w)
  | Throws err => set_uncaught (uncaught w ++ [err]) (afterInvoke w)
  | ReturnsPromise s =>
      set_pendingFetches
        (<[length (calls w) :=
             {| settlement := s; fetchResolvers := resolveArr (loader w);
                fetchRejectors := rejectArr (loader w) |}]> (pendingFetches w))
        (afterInvoke w)
  end.
Proof.
  intros Hd. unfold flushJobs.
  destruct w as [[flag res rej dat cache fn] h q f c u qm]; simpl in *.
  destruct dat as [|k dat]; [done|]. simpl.
  unfold invokeLoaderFn; simpl. by destruct (fn _ _).
Qed.

(** ** The invariant of reachable worlds *)

Lemma countFlush_app (q1 q2 : list (@Job R Err)) :
  countFlush (q1 ++ q2) = countFlush q1 + countFlush q2.
Proof. induction q1 as [|j q1 IH]; simpl; [done|]. rewrite IH. lia. Qed.

Lemma wfJob_mono n m j : n ≤ m → wfJob n j → wfJob m j.
Proof.
  intros Hnm [Hb Hp]. split; [|done].
  eapply Forall_impl; [exact Hb|]. simpl. lia.
Qed.

Lemma wfFetch_mono n m (f : @Fetch R Err) : n ≤ m → wfFetch n f → wfFetch m f.
Proof.
  intros Hnm [Hb Hp]. split; [|done].
  eapply Forall_impl; [exact Hb|]. simpl. lia.
Qed.

Lemma coherent_new n (fn : list (list T) → list T → @LoaderResult R Err) :
  coherent n (newDataloader fn).
Proof.
  split; simpl; try done.
  - constructor.
  - intros k p. rewrite lookup_empty. split; [done|]. by intros (i & Hi & _).
Qed.

Lemma coherent_not_cached n d k :
  coherent n d → cachePromises d !! k = None → k ∉ data d.
Proof.
  intros Hc Hk Hin. apply list_elem_of_lookup in Hin as [i Hi].
  assert (is_Some (resolveArr d !! i)) as [p Hp].
  { apply lookup_lt_is_Some. rewrite (coh_length _ _ Hc).
    by eapply lookup_lt_Some. }
  assert (cachePromises d !! k = Some p) by (apply (coh_cache _ _ Hc); eauto).
  congruence.
Qed.

Lemma invariant_init fn qm : invariant (@init T _ _ R Err fn qm).
Proof.
  split; simpl; try done. apply coherent_new.
Qed.

Lemma invariant_load k w : invariant w → invariant (load k w).2.
Proof.
  intros Hinv. destruct (cachePromises (loader w) !! k) as [p|] eqn:Hc.
  { by rewrite (load_cached _ _ _ Hc). }
  rewrite (load_new _ _ Hc). simpl.
  destruct Hinv as [Hcoh Hfl Hjobs Hfetch Hcalls].
  pose proof (coherent_not_cached _ _ _ Hcoh Hc) as Hnotin.
  destruct Hcoh as [Hpar Hlen Hnd Hcache Hbound Hflag].
  split; simpl; rewrite ?length_app; simpl.
  - split; simpl.
    + by rewrite Hpar.
    + rewrite !length_app; simpl. lia.
    + apply NoDup_app. split_and!; [done| |apply NoDup_singleton].
      intros x Hx Hx'. apply list_elem_of_singleton in Hx' as ->. done.
    + intros k' p'. split.
      * intros Hl. destruct (decide (k = k')) as [<-|Hne].
        -- rewrite lookup_insert_eq in Hl. simplify_eq.
           exists (length (data (loader w))). split.
           ++ rewrite lookup_app_r by lia. by rewrite Nat.sub_diag.
           ++ rewrite lookup_app_r by lia. rewrite Hlen.
              by rewrite Nat.sub_diag.
        -- rewrite lookup_insert_ne in Hl by done.
           apply Hcache in Hl as (i & Hi1 & Hi2). exists i.
           split; apply lookup_app_l_Some; done.
      * intros (i & Hi1 & Hi2).
        apply lookup_app_Some in Hi1 as [Hi1|[Hge Hi1]].
        -- assert (k ≠ k').
           { intros ->. apply Hnotin. by eapply list_elem_of_lookup_2. }
           rewrite lookup_insert_ne by done. apply Hcache. exists i.
           split; [done|]. apply lookup_app_Some in Hi2 as [Hi2|[Hge Hi2]]; [done|].
           apply lookup_lt_Some in Hi1. lia.
        -- apply list_lookup_singleton_Some in Hi1 as [Hi0 ->].
           rewrite lookup_insert_eq.
           apply lookup_app_Some in Hi2 as [Hi2|[Hge2 Hi2]].
           { apply lookup_lt_Some in Hi2. lia. }
           apply list_lookup_singleton_Some in Hi2 as [_ ->]. done.
    + apply Forall_app. split.
      * eapply Forall_impl; [exact Hbound|]. simpl. lia.
      * apply Forall_singleton. lia.
    + rewrite length_app. simpl. by rewrite Nat.add_1_r.
  - destruct (isFlushPending (loader w)); [done|].
    rewrite countFlush_app, Hfl. done.
  - assert (Forall (wfJob (length (promises w) + 1)) (microtasks w)) as Hj.
    { eapply Forall_impl; [exact Hjobs|]. intros j. apply wfJob_mono. lia. }
    destruct (isFlushPending (loader w)); [done|].
    apply Forall_app. split; [done|]. apply Forall_singleton.
    split; [constructor|done].
  - eapply map_Forall_impl; [exact Hfetch|]. simpl.
    intros c f [? Hwf]. split; [done|]. eapply wfFetch_mono; [|exact Hwf]. lia.
  - done.
Qed.

Lemma invariant_flushJobs q w :
  invariant w → microtasks w = JobFlush :: q →
  invariant (flushJobs (set_microtasks q w)).
Proof.
  intros [Hcoh Hfl Hjobs Hfetch Hcalls] Hq.
  rewrite Hq in Hfl, Hjobs. simpl in Hfl.
  apply Forall_cons in Hjobs as [_ Hjobs].
  assert (data (loader w) ≠ [] ∧ countFlush q = 0) as [Hd Hq0].
  { rewrite (coh_flag _ _ Hcoh) in Hfl.
    destruct (data (loader w)); simpl in Hfl; [lia|]. split; [done|lia]. }
  rewrite flushJobs_nonempty by done. simpl.
  assert (wfJob (length (promises w))
            (@JobThen R Err [] (resolveArr (loader w)) (rejectArr (loader w)))) as Hwf.
  { split; simpl; [|by apply (coh_parallel _ _ Hcoh)].
    rewrite (coh_parallel _ _ Hcoh), Forall_app.
    by split; apply (coh_bound _ _ Hcoh). }
  assert (Forall (λ c, callKeys c ≠ [] ∧
                       callSeen c = newDataloader (loaderFn (loader w)))
            (calls w ++ [{| callKeys := data (loader w);
                            callSeen := newDataloader (loaderFn (loader w)) |}]))
    as Hcalls'.
  { apply Forall_app. split; [done|]. by apply Forall_singleton. }
  destruct (loaderFn (loader w) _ _) as [rets|err|s]; split; simpl;
    try apply coherent_new; try done;
    rewrite ?countFlush_app, ?Hq0; simpl; try done.
  - apply Forall_app. split; [done|]. apply Forall_singleton.
    split; [apply Hwf|]. simpl. apply Hwf.
  - eapply map_Forall_impl; [exact Hfetch|]. simpl. intros c f [? ?].
    split; [|done]. rewrite length_app. lia.
  - eapply map_Forall_impl; [exact Hfetch|]. simpl. intros c f [? ?].
    split; [|done]. rewrite length_app. lia.
  - apply map_Forall_insert_2.
    + rewrite length_app; simpl. split; [lia|].
      split; simpl; [apply Hwf|apply Hwf].
    + eapply map_Forall_impl; [exact Hfetch|]. simpl. intros c f [? ?].
      split; [|done]. rewrite length_app. lia.
Qed.

Lemma invariant_set_promises h w :
  length h = length (promises w) → invariant w → invariant (set_promises h w).
Proof.
  intros Hlen [Hcoh Hfl Hjobs Hfetch Hcalls].
  split; simpl; rewrite ?Hlen; done.
Qed.

Lemma invariant_swap_job j j' q w :
  invariant w → microtasks w = j :: q → isFlush j = false →
  isFlush j' = false → wfJob (length (promises w)) j' →
  invariant (enqueue j' (set_microtasks q w)).
Proof.
  intros [Hcoh Hfl Hjobs Hfetch Hcalls] Hq Hj Hj' Hwf.
  rewrite Hq in Hfl, Hjobs. simpl in Hfl. rewrite Hj in Hfl.
  apply Forall_cons in Hjobs as [_ Hjobs].
  split; simpl; try done.
  - rewrite countFlush_app. simpl. rewrite Hj'. simpl in *. lia.
  - apply Forall_app. split; [done|]. by apply Forall_singleton.
Qed.

Lemma invariant_drop_job j q w :
  invariant w → microtasks w = j :: q → isFlush j = false →
  invariant (set_microtasks q w).
Proof.
  intros [Hcoh Hfl Hjobs Hfetch Hcalls] Hq Hj.
  rewrite Hq in Hfl, Hjobs. simpl in Hfl. rewrite Hj in Hfl.
  apply Forall_cons in Hjobs as [_ Hjobs].
  split; simpl; done.
Qed.

Lemma invariant_tick w : invariant w → invariant (tick w).
Proof.
  intros Hinv. unfold tick.
  destruct (microtasks w) as [|j q] eqn:Hq; [done|].
  pose proof (inv_jobs _ Hinv) as Hjobs. rewrite Hq in Hjobs.
  apply Forall_cons in Hjobs as [[Hjb Hjp] _].
  destruct j as [|rets res rej|err rej|err rej]; simpl.
  - by apply invariant_flushJobs.
  - destruct (forEachResolve rets 0 res (promises w)) as [h' thrown] eqn:E.
    assert (length h' = length (promises w)) as Hlen.
    { pose proof (forEachResolve_length rets 0 res (promises w)) as Hl.
      by rewrite E in Hl. }
    destruct thrown as [err|].
    + change (enqueue (JobCatch err rej) (set_promises h' (set_microtasks q w)))
        with (set_promises h' (enqueue (JobCatch err rej) (set_microtasks q w))).
      apply invariant_set_promises; [done|].
      eapply invariant_swap_job; try done.
      split; [|done]. simpl in *. by apply Forall_app in Hjb as [_ ?].
    + apply invariant_set_promises; [done|].
      by eapply invariant_drop_job.
  - eapply invariant_swap_job; try done.
  - apply invariant_set_promises; [apply forEachReject_length|].
    by eapply invariant_drop_job.
Qed.

Lemma invariant_settle c w : invariant w → invariant (settle c w).
Proof.
  intros Hinv. unfold settle.
  destruct (pendingFetches w !! c) as [f|] eqn:Hc; [|done].
  destruct (settlement f) as [[rets|err]|]; [| |done].
  all: pose proof (inv_fetches _ Hinv _ _ Hc) as [_ [Hb Hp]].
  all: destruct Hinv as [Hcoh Hfl Hjobs Hfetch Hcalls].
  all: split; simpl; try done.
  all: rewrite ?countFlush_app; simpl; rewrite ?Nat.add_0_r; try done.
  all: try by apply map_Forall_delete.
  - apply Forall_app. split; [done|]. apply Forall_singleton. by split.
  - apply Forall_app. split; [done|]. apply Forall_singleton.
    split; [|done]. simpl. unfold fetchRefs in Hb.
    by apply Forall_app in Hb as [_ ?].
Qed.

Lemma invariant_step ev w : invariant w → invariant (step ev w).
Proof.
  destruct ev; simpl;
    auto using invariant_load, invariant_tick, invariant_settle,
      invariant_set_promises, length_followThenable.
Qed.

Lemma reachable_invariant w : reachable w → invariant w.
Proof.
  induction 1; auto using invariant_init, invariant_step.
Qed.

Lemma reachable_run evs : ∀ w, reachable w → reachable (run evs w).
Proof.
  induction evs as [|ev evs IH]; intros w Hw; simpl; [done|].
  apply IH. by constructor.
Qed.

(** ** Running microtasks *)

Lemma tick_nil w : microtasks w = [] → tick w = w.
Proof. intros Hq. unfold tick. by rewrite Hq. Qed.

Lemma ticks_nil a : ∀ w, microtasks w = [] → ticks a w = w.
Proof.
  induction a as [|a IH]; intros w Hq; simpl; [done|].
  rewrite tick_nil by done. by apply IH.
Qed.

Lemma ticks_add a b : ∀ w, ticks (a + b) w = ticks b (ticks a w).
Proof. induction a as [|a IH]; intros w; simpl; [done|]. apply IH. Qed.

Lemma ticks_S_r a w : ticks (S a) w = tick (ticks a w).
Proof. replace (S a) with (a + 1) by lia. by rewrite ticks_add. Qed.

Lemma queueRank_app (q1 q2 : list (@Job R Err)) :
  queueRank (q1 ++ q2) = queueRank q1 + queueRank q2.
Proof.
  unfold queueRank. induction q1 as [|j q1 IH]; simpl; [done|].
  rewrite IH. lia.
Qed.

Lemma flushJobs_microtasks w :
  microtasks (flushJobs w) = microtasks w ∨
  ∃ rets res rej, microtasks (flushJobs w) = microtasks w ++ [JobThen rets res rej].
Proof.
  destruct (data (loader w)) as [|k ks] eqn:Hd.
  - rewrite flushJobs_empty by done. by left.
  - rewrite flushJobs_nonempty by (by rewrite Hd).
    destruct (loaderFn _ _ _); simpl; eauto.
Qed.

Lemma tick_rank w :
  microtasks w ≠ [] →
  queueRank (microtasks (tick w)) < queueRank (microtasks w).
Proof.
  intros Hq. unfold tick. destruct (microtasks w) as [|j q]; [done|].
  destruct j as [|rets res rej|err rej|err rej]; simpl.
  - destruct (flushJobs_microtasks (set_microtasks q w)) as [->|(?&?&?&->)];
      simpl; rewrite ?queueRank_app; simpl; lia.
  - destruct (forEachResolve _ _ _ _) as [h' [e|]]; simpl;
      rewrite ?queueRank_app; simpl; lia.
  - rewrite queueRank_app; simpl; lia.
  - lia.
Qed.

Lemma ticks_done a : ∀ w,
  queueRank (microtasks w) ≤ a → microtasks (ticks a w) = [].
Proof.
  induction a as [|a IH]; intros w Hr; simpl.
  - destruct (microtasks w) as [|j q]; [done|].
    destruct j; unfold queueRank in Hr; simpl in Hr; lia.
  - destruct (microtasks w) as [|j q] eqn:Hq.
    + rewrite tick_nil by done. by rewrite ticks_nil.
    + apply IH. pose proof (tick_rank w) as Hlt. rewrite Hq in Hlt.
      specialize (Hlt ltac:(done)). lia.
Qed.

(** A microtask checkpoint leaves the queue empty. *)
Lemma runMicrotasks_done w : microtasks (runMicrotasks w) = [].
Proof. by apply ticks_done. Qed.

Lemma ticks_enough a w :
  queueRank (microtasks w) ≤ a → ticks a w = runMicrotasks w.
Proof.
  intros Hr. unfold runMicrotasks.
  replace a with (queueRank (microtasks w) + (a - queueRank (microtasks w)))
    by lia.
  rewrite ticks_add. apply ticks_nil. by apply ticks_done.
Qed.

(** It does not matter how many of the microtasks have run already. *)
Lemma runMicrotasks_ticks a w : runMicrotasks (ticks a w) = runMicrotasks w.
Proof.
  unfold runMicrotasks at 1. rewrite <- ticks_add.
  set (N := a + queueRank (microtasks (ticks a w))).
  destruct (decide (queueRank (microtasks w) ≤ N)) as [Hle|Hgt].
  - by apply ticks_enough.
  - unfold runMicrotasks.
    replace (queueRank (microtasks w))
      with (N + (queueRank (microtasks w) - N)) by lia.
    rewrite ticks_add. symmetry. apply ticks_nil.
    unfold N. rewrite ticks_add. by apply ticks_done.
Qed.

Lemma runMicrotasks_tick w : runMicrotasks (tick w) = runMicrotasks w.
Proof. apply (runMicrotasks_ticks 1). Qed.

Lemma runMicrotasks_nil w : microtasks w = [] → runMicrotasks w = w.
Proof. intros Hq. unfold runMicrotasks. by apply ticks_nil. Qed.

(** What every microtask preserves, the checkpoint preserves. *)
Lemma runMicrotasks_ind (P : World → Prop) w :
  (∀ w', P w' → P (tick w')) → P w → P (runMicrotasks w).
Proof.
  intros Hstep. unfold runMicrotasks.
  generalize (queueRank (microtasks w)). intros a. revert w.
  induction a as [|a IH]; intros w Hw; simpl; auto.
Qed.

(** ** Settled promises stay as they are *)

Lemma flushJobs_promises w : promises (flushJobs w) = promises w.
Proof.
  destruct (data (loader w)) as [|k ks] eqn:Hd.
  - by rewrite flushJobs_empty.
  - rewrite flushJobs_nonempty by (by rewrite Hd).
    by destruct (loaderFn _ _ _).
Qed.

Lemma load_promises_lookup k w p st :
  promises w !! p = Some st → promises (load k w).2 !! p = Some st.
Proof.
  intros Hp. destruct (cachePromises (loader w) !! k) as [p'|] eqn:Hc.
  - by rewrite (load_cached _ _ _ Hc).
  - rewrite (load_new _ _ Hc). simpl. by apply lookup_app_l_Some.
Qed.

Lemma tick_settled w p st :
  promises w !! p = Some st → st ≠ Pending → promises (tick w) !! p = Some st.
Proof.
  intros Hp Hst. unfold tick. destruct (microtasks w) as [|j q]; [done|].
  destruct j as [|rets res rej|err rej|err rej]; simpl.
  - by rewrite flushJobs_promises.
  - pose proof (forEachResolve_settled rets p st 0 res _ Hp Hst) as Hs.
    destruct (forEachResolve _ _ _ _) as [h' [e|]]; simpl in *; done.
  - done.
  - by apply forEachReject_settled.
Qed.

Lemma settle_promises c w : promises (settle c w) = promises w.
Proof.
  unfold settle. destruct (pendingFetches w !! c) as [f|]; [|done].
  by destruct (settlement f) as [[]|].
Qed.

Lemma step_settled ev w p st :
  promises w !! p = Some st → isSettled st →
  promises (step ev w) !! p = Some st.
Proof.
  intros Hp Hst. pose proof (isSettled_not_pending _ Hst).
  destruct ev; simpl.
  - by apply load_promises_lookup.
  - by apply tick_settled.
  - by rewrite settle_promises.
  - by apply followThenable_settled.
Qed.

Lemma run_settled evs p st : ∀ w,
  promises w !! p = Some st → isSettled st →
  promises (run evs w) !! p = Some st.
Proof.
  induction evs as [|ev evs IH]; intros w Hp Hst; simpl; [done|].
  apply IH; [|done]. by apply step_settled.
Qed.

(** A promise resolved with an item keeps following it. *)
Lemma follows_resolvedState item : follows item (resolvedState item).
Proof. destruct item; simpl; auto. Qed.

Lemma resolvedWith_resolvedState h p item :
  h !! p = Some (resolvedState item) → resolvedWith h p item.
Proof. intros Hp. eexists. split; [done|]. apply follows_resolvedState. Qed.

Lemma follows_not_pending item st : follows item st → st ≠ Pending.
Proof.
  destruct item as [v|fate]; simpl; [by intros ->|].
  intros [->|(f & -> & ->)]; [done|]. by destruct f.
Qed.

Lemma step_follows ev w p item st :
  promises w !! p = Some st → follows item st →
  ∃ st', promises (step ev w) !! p = Some st' ∧ follows item st'.
Proof.
  intros Hp Hst. pose proof (follows_not_pending _ _ Hst).
  destruct ev; simpl.
  - exists st. split; [|done]. by apply load_promises_lookup.
  - exists st. split; [|done]. by apply tick_settled.
  - exists st. split; [|done]. by rewrite settle_promises.
  - by eapply followThenable_follows.
Qed.

Lemma run_follows evs p item : ∀ w st,
  promises w !! p = Some st → follows item st →
  ∃ st', promises (run evs w) !! p = Some st' ∧ follows item st'.
Proof.
  induction evs as [|ev evs IH]; intros w st Hp Hst; simpl; [by exists st|].
  destruct (step_follows ev w p item st Hp Hst) as (st' & Hp' & Hst').
  by apply (IH _ st').
Qed.

(** A state that no event changes: settled, or adopting a thenable that
    never settles. *)
Lemma step_stable ev w p st :
  promises w !! p = Some st → st ≠ Pending →
  (∀ f, st ≠ Adopting (Some f)) →
  promises (step ev w) !! p = Some st.
Proof.
  intros Hp Hst Hnf. destruct ev as [k| |c|q]; simpl.
  - by apply load_promises_lookup.
  - by apply tick_settled.
  - by rewrite settle_promises.
  - assert (is_Some (followThenable q (promises w) !! p)) as [st' Hst'].
    { apply lookup_lt_is_Some. rewrite length_followThenable.
      by eapply lookup_lt_Some. }
    rewrite Hst'.
    apply followThenable_lookup in Hst' as [?|(f & -> & Hf & ->)];
      [congruence|]. rewrite Hp in Hf. simplify_eq. by destruct (Hnf f).
Qed.

Lemma run_stable evs p st : ∀ w,
  promises w !! p = Some st → st ≠ Pending →
  (∀ f, st ≠ Adopting (Some f)) →
  promises (run evs w) !! p = Some st.
Proof.
  induction evs as [|ev evs IH]; intros w Hp Hst Hnf; simpl; [done|].
  apply IH; [|done..]. by apply step_stable.
Qed.

(** Once the settlement of the thenable has been followed, the promise
    holds the outcome of the thenable for good. *)
Lemma follow_final w p item st evs :
  promises w !! p = Some st → follows item st →
  promises (run evs (step (FollowThenable p) w)) !! p
  = Some (finalState item).
Proof.
  intros Hp Hst.
  assert (promises (step (FollowThenable p) w) !! p = Some (finalState item))
    as Hfin.
  { simpl. unfold followThenable. rewrite Hp.
    pose proof (lookup_lt_Some _ _ _ Hp) as Hlt.
    destruct item as [v|[f|]]; simpl in Hst.
    - by subst.
    - destruct Hst as [->|(f' & ? & ->)]; simplify_eq/=.
      + by rewrite list_lookup_insert_eq.
      + by destruct f'.
    - destruct Hst as [->|(f' & ? & ->)]; by simplify_eq/=. }
  apply run_stable; [done|..].
  - destruct item as [v|[[]|]]; done.
  - intros f. destruct item as [v|[[]|]]; done.
Qed.

Lemma runMicrotasks_settled w p st :
  promises w !! p = Some st → st ≠ Pending →
  promises (runMicrotasks w) !! p = Some st.
Proof.
  intros Hp Hst.
  apply (runMicrotasks_ind (λ w', promises w' !! p = Some st)); [|done].
  intros w' Hw'. by apply tick_settled.
Qed.

(** ** Jobs of earlier batches do not touch later promises *)

Lemma tick_sideJob n j q w :
  microtasks w = j :: q → sideJob n j →
  ∃ h' spawn,
    tick w = set_promises h' (set_microtasks (q ++ spawn) w) ∧
    Forall (sideJob n) spawn ∧
    length h' = length (promises w) ∧
    (∀ p, n ≤ p → h' !! p = promises w !! p).
Proof.
  intros Hq [Hnf Hb]. unfold tick. rewrite Hq.
  destruct j as [|rets res rej|err rej|err rej]; simpl in *; [done|..].
  - apply Forall_app in Hb as [Hres Hrej].
    pose proof (forEachResolve_length rets 0 res (promises w)) as Hlen.
    assert (∀ p, n ≤ p →
              (forEachResolve rets 0 res (promises w)).1 !! p = promises w !! p)
      as Hframe.
    { intros p Hp. apply forEachResolve_other. intros Hin.
      rewrite Forall_forall in Hres. specialize (Hres _ Hin). lia. }
    destruct (forEachResolve _ _ _ _) as [h' [e|]]; simpl in *.
    + exists h', [JobCatch e rej]. split_and!; try done.
      apply Forall_singleton. by split.
    + exists h', []. rewrite app_nil_r. by split_and!.
  - exists (promises w), [JobCatch err rej].
    split_and!; try done; try (by destruct w).
    apply Forall_singleton. by split.
  - exists (forEachReject err rej (promises w)), []. rewrite app_nil_r.
    split_and!; try done.
    + apply forEachReject_length.
    + intros p Hp. apply forEachReject_other. intros Hin.
      rewrite Forall_forall in Hb. specialize (Hb _ Hin). lia.
Qed.

Lemma ticks_sideJobs n : ∀ q w suffix,
  microtasks w = q ++ suffix → Forall (sideJob n) q →
  ∃ h' q',
    ticks (length q) w = set_promises h' (set_microtasks (suffix ++ q') w) ∧
    Forall (sideJob n) q' ∧
    length h' = length (promises w) ∧
    (∀ p, n ≤ p → h' !! p = promises w !! p).
Proof.
  induction q as [|j q IH]; intros w suffix Hq Hside; simpl in *.
  - exists (promises w), []. rewrite app_nil_r, <- Hq.
    split_and!; try done. by destruct w.
  - apply Forall_cons in Hside as [Hj Hside].
    destruct (tick_sideJob n j _ w Hq Hj) as (h1 & spawn & -> & Hsp & Hl1 & Hf1).
    destruct (IH (set_promises h1 (set_microtasks ((q ++ suffix) ++ spawn) w))
                (suffix ++ spawn)) as (h2 & q2 & Ht & Hq2 & Hl2 & Hf2);
      [by rewrite <- app_assoc|done|].
    exists h2, (spawn ++ q2). rewrite Ht. simpl in *.
    split_and!.
    + by rewrite app_assoc.
    + by apply Forall_app.
    + congruence.
    + intros p Hp. rewrite Hf2, Hf1; done.
Qed.

Lemma ticks_to_job n q j w :
  microtasks w = q ++ [j] → Forall (sideJob n) q →
  ∃ h' q',
    ticks (S (length q)) w = runJob j (set_promises h' (set_microtasks q' w)) ∧
    Forall (sideJob n) q' ∧
    length h' = length (promises w) ∧
    (∀ p, n ≤ p → h' !! p = promises w !! p).
Proof.
  intros Hq Hside.
  destruct (ticks_sideJobs n q w [j] Hq Hside) as (h' & q' & Ht & ? & ? & ?).
  exists h', q'. split_and!; try done.
  rewrite ticks_S_r, Ht. reflexivity.
Qed.

Lemma runMicrotasks_sideJobs n w :
  Forall (sideJob n) (microtasks w) →
  ∃ h',
    runMicrotasks w = set_promises h' (set_microtasks [] w) ∧
    length h' = length (promises w) ∧
    (∀ p, n ≤ p → h' !! p = promises w !! p).
Proof.
  intros Hside.
  assert (∃ h' q', runMicrotasks w = set_promises h' (set_microtasks q' w) ∧
            Forall (sideJob n) q' ∧ length h' = length (promises w) ∧
            (∀ p, n ≤ p → h' !! p = promises w !! p))
    as (h' & q' & Hrun & _ & Hlen & Hframe).
  { apply (runMicrotasks_ind (λ w', ∃ h' q',
             w' = set_promises h' (set_microtasks q' w) ∧
             Forall (sideJob n) q' ∧ length h' = length (promises w) ∧
             (∀ p, n ≤ p → h' !! p = promises w !! p))).
    - intros w' (h1 & q1 & -> & Hq1 & Hl1 & Hf1).
      destruct q1 as [|j q1]; [rewrite tick_nil by done; eauto 10|].
      apply Forall_cons in Hq1 as [Hj Hq1].
      destruct (tick_sideJob n j q1 (set_promises h1 (set_microtasks (j :: q1) w))
                  eq_refl Hj) as (h2 & spawn & -> & Hsp & Hl2 & Hf2).
      exists h2, (q1 ++ spawn). simpl in *. split_and!; try done.
      + by apply Forall_app.
      + congruence.
      + intros p Hp. rewrite Hf2, Hf1; done.
    - exists (promises w), (microtasks w). split_and!; try done. by destruct w. }
  exists h'. split_and!; try done.
  pose proof (runMicrotasks_done w) as Hdone. rewrite Hrun in Hdone.
  simpl in Hdone. by rewrite Hrun, Hdone.
Qed.

(** ** A promise nobody can settle any more keeps its state *)

Lemma tick_length w : length (promises (tick w)) = length (promises w).
Proof.
  unfold tick. destruct (microtasks w) as [|j q]; [done|].
  destruct j as [|rets res rej|err rej|err rej]; simpl.
  - by rewrite flushJobs_promises.
  - pose proof (forEachResolve_length rets 0 res (promises w)) as Hl.
    destruct (forEachResolve _ _ _ _) as [h' [e|]]; simpl in *; done.
  - done.
  - apply forEachReject_length.
Qed.

Lemma step_length ev w : length (promises w) ≤ length (promises (step ev w)).
Proof.
  destruct ev as [k| |c|q]; simpl.
  - destruct (cachePromises (loader w) !! k) as [p'|] eqn:Hc.
    + by rewrite (load_cached _ _ _ Hc).
    + rewrite (load_new _ _ Hc). simpl. rewrite length_app. lia.
  - by rewrite tick_length.
  - by rewrite settle_promises.
  - by rewrite length_followThenable.
Qed.

Lemma load_unowned k w p :
  p < length (promises w) → unowned w p →
  unowned (load k w).2 p ∧ promises (load k w).2 !! p = promises w !! p.
Proof.
  intros Hp (Hres & Hrej & Hjobs & Hfetch).
  destruct (cachePromises (loader w) !! k) as [p'|] eqn:Hc.
  { rewrite (load_cached _ _ _ Hc). by repeat split. }
  rewrite (load_new _ _ Hc). simpl. split; [|by apply lookup_app_l].
  repeat split; simpl; try done.
  - rewrite elem_of_app, list_elem_of_singleton. intros [?|?]; [done|lia].
  - rewrite elem_of_app, list_elem_of_singleton. intros [?|?]; [done|lia].
  - destruct (isFlushPending (loader w)); [done|].
    apply Forall_app. split; [done|]. apply Forall_singleton. simpl.
    apply not_elem_of_nil.
Qed.

Lemma flushJobs_unowned w p :
  unowned w p → unowned (flushJobs w) p.
Proof.
  intros (Hres & Hrej & Hjobs & Hfetch).
  destruct (data (loader w)) as [|k ks] eqn:Hd.
  { rewrite flushJobs_empty by done. by repeat split. }
  rewrite flushJobs_nonempty by (by rewrite Hd).
  assert (p ∉ resolveArr (loader w) ++ rejectArr (loader w)) as Hboth.
  { rewrite elem_of_app. tauto. }
  destruct (loaderFn _ _ _) as [rets|err|s]; repeat split; simpl;
    try apply not_elem_of_nil; try done.
  - apply Forall_app. split; [done|]. by apply Forall_singleton.
  - by apply map_Forall_insert_2.
Qed.

Lemma tick_unowned w p :
  unowned w p →
  unowned (tick w) p ∧ promises (tick w) !! p = promises w !! p.
Proof.
  intros (Hres & Hrej & Hjobs & Hfetch). unfold tick.
  destruct (microtasks w) as [|j q] eqn:Hq; [by rewrite <- Hq in Hjobs|].
  apply Forall_cons in Hjobs as [Hj Hjobs].
  destruct j as [|rets res rej|err rej|err rej]; simpl in *.
  - split; [|by rewrite flushJobs_promises].
    apply flushJobs_unowned. by repeat split.
  - rewrite elem_of_app in Hj.
    pose proof (forEachResolve_other rets p 0 res (promises w)) as Ho.
    destruct (forEachResolve _ _ _ _) as [h' [e|]]; simpl in *.
    + split; [|tauto]. repeat split; simpl; try done.
      apply Forall_app. split; [done|]. apply Forall_singleton. simpl. tauto.
    + split; [|tauto]. by repeat split.
  - split; [|done]. repeat split; simpl; try done.
    apply Forall_app. split; [done|]. by apply Forall_singleton.
  - split; [by repeat split|]. by apply forEachReject_other.
Qed.

Lemma settle_unowned c w p : unowned w p → unowned (settle c w) p.
Proof.
  intros (Hres & Hrej & Hjobs & Hfetch). unfold settle.
  destruct (pendingFetches w !! c) as [f|] eqn:Hc; [|by repeat split].
  pose proof (Hfetch _ _ Hc) as Hf. simpl in Hf. unfold fetchRefs in Hf.
  rewrite elem_of_app in Hf.
  destruct (settlement f) as [[rets|err]|]; [| |by repeat split].
  - repeat split; simpl; try done; [|by apply map_Forall_delete].
    apply Forall_app. split; [done|]. apply Forall_singleton. simpl.
    rewrite elem_of_app. tauto.
  - repeat split; simpl; try done; [|by apply map_Forall_delete].
    apply Forall_app. split; [done|]. apply Forall_singleton. simpl. tauto.
Qed.

Lemma step_unowned ev w p :
  promises w !! p = Some Pending → unowned w p →
  unowned (step ev w) p ∧ promises (step ev w) !! p = Some Pending.
Proof.
  intros Hp Hun. pose proof (lookup_lt_Some _ _ _ Hp) as Hlt.
  destruct ev; simpl.
  - rewrite <- Hp. by apply load_unowned.
  - rewrite <- Hp. by apply tick_unowned.
  - split; [by apply settle_unowned|by rewrite settle_promises].
  - split; [by destruct Hun as (? & ? & ? & ?)|].
    by apply followThenable_pending.
Qed.

(** Whatever happens later, such a promise is never settled. *)
Lemma run_unowned evs p : ∀ w,
  promises w !! p = Some Pending → unowned w p →
  promises (run evs w) !! p = Some Pending.
Proof.
  induction evs as [|ev evs IH]; intros w Hp Hun; simpl; [done|].
  destruct (step_unowned ev w p Hp Hun) as [Hun' Heq]. by apply IH.
Qed.

(** ** Deduplication in first-seen order *)

Lemma indexOf_Some (x : T) l i : indexOf x l = Some i → l !! i = Some x.
Proof.
  revert i. induction l as [|y l IH]; intros i Hi; simpl in *; [done|].
  case_decide; simplify_eq/=; [done|].
  destruct (indexOf x l) as [i'|]; simplify_eq/=. by apply IH.
Qed.

Lemma indexOf_first (x : T) l i i' :
  indexOf x l = Some i → l !! i' = Some x → i ≤ i'.
Proof.
  revert i i'. induction l as [|y l IH]; intros i i' Hi Hi'; simpl in *; [done|].
  case_decide; simplify_eq/=; [lia|].
  destruct (indexOf x l) as [i0|] eqn:E; simplify_eq/=.
  destruct i' as [|i']; simplify_eq/=. specialize (IH i0 i' eq_refl Hi'). lia.
Qed.

Lemma indexOf_app_l (x : T) l l' i :
  indexOf x l = Some i → indexOf x (l ++ l') = Some i.
Proof.
  revert i. induction l as [|y l IH]; intros i Hi; simpl in *; [done|].
  case_decide; [done|].
  destruct (indexOf x l) as [i0|]; simplify_eq/=. by rewrite (IH i0).
Qed.

Lemma indexOf_elem (x : T) l : x ∈ l → ∃ i, indexOf x l = Some i ∧ i < length l.
Proof.
  induction l as [|y l IH]; intros Hin; [by apply elem_of_nil in Hin|].
  simpl. case_decide; [exists 0; split; [done|lia]|].
  apply elem_of_cons in Hin as [?|Hin]; [done|].
  destruct (IH Hin) as (i & -> & Hi). exists (S i). split; [done|lia].
Qed.

Lemma indexOf_snoc_new (x : T) l : x ∉ l → indexOf x (l ++ [x]) = Some (length l).
Proof.
  induction l as [|y l IH]; intros Hnin; simpl.
  - by rewrite decide_True.
  - rewrite decide_False by set_solver. rewrite IH by set_solver. done.
Qed.

Lemma foldl_pushNew_elem (ks : list T) : ∀ acc x,
  x ∈ foldl pushNew acc ks ↔ x ∈ acc ∨ x ∈ ks.
Proof.
  induction ks as [|k ks IH]; intros acc x; simpl.
  - rewrite elem_of_nil. tauto.
  - rewrite IH, elem_of_cons. unfold pushNew. case_decide.
    + split; [tauto|]. intros [?|[->|?]]; tauto.
    + rewrite elem_of_app, list_elem_of_singleton. tauto.
Qed.

Lemma dedupFirstSeen_snoc (ks : list T) k :
  dedupFirstSeen (ks ++ [k]) = pushNew (dedupFirstSeen ks) k.
Proof. unfold dedupFirstSeen. by rewrite foldl_app. Qed.

(** [dedupFirstSeen ks] has every key of [ks] exactly once, and the keys
    are ordered by their first occurrence in [ks]. *)
Lemma dedupFirstSeen_spec (ks : list T) :
  NoDup (dedupFirstSeen ks) ∧
  (∀ x, x ∈ dedupFirstSeen ks ↔ x ∈ ks) ∧
  (∀ (i j : nat) x y,
     dedupFirstSeen ks !! i = Some x → dedupFirstSeen ks !! j = Some y →
     i < j →
     ∃ a b, indexOf x ks = Some a ∧ indexOf y ks = Some b ∧ a < b).
Proof.
  assert (∀ x, x ∈ dedupFirstSeen ks ↔ x ∈ ks) as Helem.
  { intros x. unfold dedupFirstSeen. rewrite foldl_pushNew_elem, elem_of_nil.
    tauto. }
  split_and!; [|done|].
  - clear Helem. induction ks as [|k ks IH] using rev_ind; [constructor|].
    rewrite dedupFirstSeen_snoc. unfold pushNew. case_decide; [done|].
    apply NoDup_app. split_and!; [done| |apply NoDup_singleton].
    intros x Hx Hx'. apply list_elem_of_singleton in Hx' as ->. done.
  - induction ks as [|k ks IH] using rev_ind; [done|].
    assert (∀ x, x ∈ dedupFirstSeen ks ↔ x ∈ ks) as Helem'.
    { intros x. unfold dedupFirstSeen.
      rewrite foldl_pushNew_elem, elem_of_nil. tauto. }
    rewrite dedupFirstSeen_snoc. unfold pushNew.
    intros i j x y Hi Hj Hij. case_decide as Hk.
    + destruct (IH Helem' i j x y Hi Hj Hij) as (a & b & Ha & Hb & Hab).
      exists a, b. split_and!; [by apply indexOf_app_l..|done].
    + apply lookup_app_Some in Hi as [Hi|[Hge Hi]].
      2:{ apply list_lookup_singleton_Some in Hi as [? _].
          apply lookup_lt_Some in Hj. rewrite length_app in Hj. simpl in Hj.
          lia. }
      assert (x ∈ ks) as Hx by (apply Helem'; by eapply list_elem_of_lookup_2).
      destruct (indexOf_elem x ks Hx) as (a & Ha & Hlt).
      apply lookup_app_Some in Hj as [Hj|[Hge Hj]].
      * destruct (IH Helem' i j x y Hi Hj Hij) as (a' & b & Ha' & Hb & Hab).
        exists a', b. split_and!; [by apply indexOf_app_l..|done].
      * apply list_lookup_singleton_Some in Hj as [_ ->].
        exists a, (length ks). split_and!; [by apply indexOf_app_l| |done].
        apply indexOf_snoc_new. by rewrite <- Helem'.
Qed.

(** ** A synchronous segment of [load] calls *)

Lemma cached_in_data k p w :
  invariant w → cachePromises (loader w) !! k = Some p →
  k ∈ data (loader w) ∧ isFlushPending (loader w) = true.
Proof.
  intros Hinv Hc. pose proof (inv_loader _ Hinv) as Hcoh.
  apply (coh_cache _ _ Hcoh) in Hc as (i & Hi & _).
  split; [by eapply list_elem_of_lookup_2|].
  rewrite (coh_flag _ _ Hcoh). apply lookup_lt_Some in Hi.
  by destruct (data (loader w)); [simpl in Hi; lia|].
Qed.

Lemma loadAll_spec ks : ∀ w,
  invariant w →
  ∃ m,
    invariant (loadAll ks w).2 ∧
    data (loader (loadAll ks w).2) = foldl pushNew (data (loader w)) ks ∧
    length (data (loader (loadAll ks w).2)) = length (data (loader w)) + m ∧
    resolveArr (loader (loadAll ks w).2) =
      resolveArr (loader w) ++ seq (length (promises w)) m ∧
    promises (loadAll ks w).2 = promises w ++ replicate m Pending ∧
    microtasks (loadAll ks w).2 =
      (if isFlushPending (loader w) then microtasks w
       else match ks with
            | [] => microtasks w
            | _ :: _ => microtasks w ++ [JobFlush]
            end) ∧
    pendingFetches (loadAll ks w).2 = pendingFetches w ∧
    calls (loadAll ks w).2 = calls w ∧
    uncaught (loadAll ks w).2 = uncaught w ∧
    loaderFn (loader (loadAll ks w).2) = loaderFn (loader w) ∧
    (∀ k p, cachePromises (loader w) !! k = Some p →
            cachePromises (loader (loadAll ks w).2) !! k = Some p) ∧
    (∀ (i : nat) k p, ks !! i = Some k → (loadAll ks w).1 !! i = Some p →
            cachePromises (loader (loadAll ks w).2) !! k = Some p).
Proof.
  induction ks as [|k ks IH]; intros w Hinv.
  { exists 0. simpl. rewrite Nat.add_0_r, !app_nil_r.
    split_and!; try done. by destruct (isFlushPending (loader w)). }
  simpl. destruct (cachePromises (loader w) !! k) as [p0|] eqn:Hc.
  - rewrite (load_cached _ _ _ Hc).
    destruct (cached_in_data _ _ _ Hinv Hc) as [Hin Hflag].
    destruct (IH w Hinv)
      as (m & Hi & Hd & Hl & Hr & Hp & Hq & Hf & Hcs & Hu & Hfn & Hpers & Hret).
    destruct (loadAll ks w) as [ps w2]. simpl in *.
    exists m. rewrite Hflag in *. split_and!; try done.
    + rewrite Hd. unfold pushNew. by rewrite decide_True.
    + intros [|i] k' p' Hk Hp'; simplify_eq/=; eauto.
  - pose proof (invariant_load k w Hinv) as Hinv1.
    pose proof (coherent_not_cached _ _ _ (inv_loader _ Hinv) Hc) as Hnin.
    rewrite (load_new _ _ Hc) in Hinv1 |- *. simpl in Hinv1.
    match type of Hinv1 with invariant ?w1 =>
      destruct (IH w1 Hinv1)
        as (m & Hi & Hd & Hl & Hr & Hp & Hq & Hf & Hcs & Hu & Hfn & Hpers & Hret);
      destruct (loadAll ks w1) as [ps w2]
    end.
    simpl in *. exists (S m). split_and!; try done.
    + rewrite Hd. unfold pushNew. by rewrite decide_False.
    + rewrite Hl, length_app. simpl. lia.
    + rewrite Hr, <- app_assoc. simpl. do 3 f_equal.
      rewrite length_app. simpl. lia.
    + rewrite Hp, <- app_assoc. done.
    + intros k' p' Hk'. apply Hpers. rewrite lookup_insert_ne; [done|].
      intros ->. congruence.
    + intros [|i] k' p' Hk Hp'; simplify_eq/=; [|eauto].
      apply Hpers. by rewrite lookup_insert_eq.
Qed.

(** ** One batch, from an idle instance *)

Lemma countFlush_zero (q : list (@Job R Err)) :
  countFlush q = 0 → Forall (λ j, isFlush j = false) q.
Proof.
  induction q as [|j q IH]; simpl; intros Hq; constructor.
  - destruct (isFlush j); [lia|done].
  - apply IH. lia.
Qed.

Lemma idle_sideJobs w :
  invariant w → isFlushPending (loader w) = false →
  Forall (sideJob (length (promises w))) (microtasks w).
Proof.
  intros Hinv Hflag. pose proof (inv_flush _ Hinv) as Hfl.
  rewrite Hflag in Hfl. apply countFlush_zero in Hfl.
  pose proof (inv_jobs _ Hinv) as Hjobs.
  rewrite Forall_forall in Hfl, Hjobs. apply Forall_forall. intros j Hj.
  split; [by apply Hfl|]. by apply Hjobs.
Qed.

Lemma idle_empty w :
  invariant w → isFlushPending (loader w) = false →
  data (loader w) = [] ∧ resolveArr (loader w) = [] ∧ rejectArr (loader w) = [].
Proof.
  intros Hinv Hflag. pose proof (inv_loader _ Hinv) as Hcoh.
  pose proof (coh_flag _ _ Hcoh) as Hf. rewrite Hflag in Hf.
  pose proof (coh_length _ _ Hcoh) as Hl.
  pose proof (coh_parallel _ _ Hcoh) as Hp.
  destruct (data (loader w)); [|done].
  destruct (resolveArr (loader w)); [|done]. by rewrite Hp.
Qed.

Lemma batch_open w k0 ks0 :
  invariant w → isFlushPending (loader w) = false →
  let ks := k0 :: ks0 in
  let w' := (loadAll ks w).2 in
  let d := dedupFirstSeen ks in
  let n0 := length (promises w) in
  invariant w' ∧
  data (loader w') = d ∧ d ≠ [] ∧
  resolveArr (loader w') = seq n0 (length d) ∧
  rejectArr (loader w') = seq n0 (length d) ∧
  promises w' = promises w ++ replicate (length d) Pending ∧
  microtasks w' = microtasks w ++ [JobFlush] ∧
  pendingFetches w' = pendingFetches w ∧
  calls w' = calls w ∧
  uncaught w' = uncaught w ∧
  loaderFn (loader w') = loaderFn (loader w) ∧
  (∀ (i : nat) k p, ks !! i = Some k → (loadAll ks w).1 !! i = Some p →
     ∃ a, d !! a = Some k ∧ p = n0 + a).
Proof.
  intros Hinv Hflag ks w' d n0.
  destruct (idle_empty w Hinv Hflag) as (Hd0 & Hr0 & Hj0).
  destruct (loadAll_spec ks w Hinv)
    as (m & Hi & Hd & Hl & Hr & Hp & Hq & Hf & Hcs & Hu & Hfn & Hpers & Hret).
  fold w' in Hi, Hd, Hl, Hr, Hp, Hq, Hf, Hcs, Hu, Hfn, Hpers, Hret.
  rewrite Hd0 in Hd, Hl. rewrite Hr0 in Hr. rewrite Hflag in Hq.
  simpl in Hl, Hr, Hq. change (foldl pushNew [] ks) with d in Hd.
  assert (m = length d) as -> by (rewrite <- Hd; lia).
  split_and!; try done.
  - intros Hnil. destruct (dedupFirstSeen_spec ks) as (_ & Helem & _).
    assert (k0 ∈ d) as Hk by (apply Helem; by left).
    rewrite Hnil in Hk. by apply elem_of_nil in Hk.
  - by rewrite (coh_parallel _ _ (inv_loader _ Hi)).
  - intros i k p Hk Hpi. specialize (Hret i k p Hk Hpi).
    apply (coh_cache _ _ (inv_loader _ Hi)) in Hret as (a & Ha & Hra).
    exists a. rewrite Hd in Ha. split; [done|].
    rewrite Hr in Hra. by apply lookup_seq in Hra as [-> _].
Qed.

(** ** The callbacks of [flushJobs], run from the microtask queue *)

Lemma sideJob_mono n m j : n ≤ m → sideJob n j → sideJob m j.
Proof.
  intros Hnm [Hf Hb]. split; [done|].
  eapply Forall_impl; [exact Hb|]. simpl. lia.
Qed.

Lemma Forall_seq_lt n0 m : Forall (λ p, p < n0 + m) (seq n0 m).
Proof. apply Forall_seq. intros. lia. Qed.

(** The fulfilment callback, behind jobs of earlier batches. *)
Lemma deliver_then V n0 m rets (q : list (@Job R Err)) :
  microtasks V = q ++ [JobThen rets (seq n0 m) (seq n0 m)] →
  Forall (sideJob n0) q →
  (∀ a, a < m → promises V !! (n0 + a) = Some Pending) →
  runMicrotasks V =
    set_promises (promises (runMicrotasks V)) (set_microtasks [] V) ∧
  length (promises (runMicrotasks V)) = length (promises V) ∧
  (∀ a item, a < m → rets !! a = Some (Some item) →
     promises (runMicrotasks V) !! (n0 + a) = Some (resolvedState item)) ∧
  (∀ a, a < m → rets !! a = Some None ∨ length rets ≤ a →
     promises (runMicrotasks V) !! (n0 + a) =
     Some (if decide (overflows m rets) then Rejected TypeError else Pending)).
Proof.
  intros Hq Hside Hpend.
  destruct (ticks_to_job n0 q _ V Hq Hside) as (h1 & q1 & Ht & Hq1 & Hl1 & Hf1).
  rewrite <- (runMicrotasks_ticks (S (length q)) V), Ht. simpl.
  assert (∀ a, a < m → h1 !! (n0 + a) = Some Pending) as Hpend1.
  { intros a Ha. rewrite Hf1 by lia. by apply Hpend. }
  pose proof (forEachResolve_length rets 0 (seq n0 m) h1) as Hlen.
  pose proof (forEachResolve_thrown rets 0 (seq n0 m) h1) as Hthr.
  assert (∀ a item, a < m → rets !! a = Some (Some item) →
            (forEachResolve rets 0 (seq n0 m) h1).1 !! (n0 + a)
            = Some (resolvedState item)) as Hat.
  { intros a r Ha Hr. apply (forEachResolve_at rets 0 _ h1 a).
    - apply NoDup_seq.
    - by apply lookup_seq_lt.
    - lia.
    - by rewrite Nat.sub_0_r.
    - by apply Hpend1. }
  assert (∀ a, a < m → rets !! a = Some None ∨ length rets ≤ a →
            (forEachResolve rets 0 (seq n0 m) h1).1 !! (n0 + a)
            = Some Pending) as Hbey.
  { intros a Ha Hr. rewrite (forEachResolve_skipped rets 0 _ h1 a).
    - by apply Hpend1.
    - apply NoDup_seq.
    - by apply lookup_seq_lt.
    - right. rewrite Nat.sub_0_r. simpl. done. }
  destruct (forEachResolve rets 0 (seq n0 m) h1) as [h3 thrown].
  rewrite length_seq, Nat.sub_0_r in Hthr. simpl in Hlen, Hthr, Hat, Hbey.
  set (W3 := match thrown with
             | Some e => enqueue (JobCatch e (seq n0 m)) _
             | None => _
             end).
  assert (promises W3 = h3) as Hp3 by (unfold W3; by destruct thrown).
  assert (Forall (sideJob (n0 + m)) (microtasks W3)) as Hside3.
  { assert (Forall (sideJob (n0 + m)) q1) as Hq1'.
    { eapply Forall_impl; [exact Hq1|]. intros j. apply sideJob_mono. lia. }
    unfold W3. destruct thrown; simpl; [|done].
    apply Forall_app. split; [done|]. apply Forall_singleton.
    split; [done|]. apply Forall_seq_lt. }
  destruct (runMicrotasks_sideJobs _ W3 Hside3) as (h' & Hrun & Hl' & _).
  assert (runMicrotasks W3 = set_promises h' (set_microtasks [] V)) as Hrun'.
  { rewrite Hrun. unfold W3. by destruct thrown. }
  split_and!.
  - by rewrite Hrun'.
  - rewrite Hrun'. simpl. congruence.
  - intros a r Ha Hr. apply runMicrotasks_settled;
      [|apply resolvedState_not_pending].
    rewrite Hp3. by apply Hat.
  - intros a Ha Hr. case_decide as Hover; subst thrown.
    + (* the iteration threw: the catch handler rejects what is pending *)
      destruct (ticks_to_job n0 q1 (JobCatch TypeError (seq n0 m)) W3 eq_refl Hq1)
        as (h4 & q4 & Ht4 & Hq4 & Hl4 & Hf4).
      rewrite <- (runMicrotasks_ticks (S (length q1)) W3), Ht4. simpl.
      apply runMicrotasks_settled; [|done]. simpl.
      apply forEachReject_at.
      * apply list_elem_of_lookup. exists a. by apply lookup_seq_lt.
      * rewrite Hf4 by lia. simpl. by apply Hbey.
    + assert (Forall (sideJob n0) (microtasks W3)) as Hside0 by done.
      destruct (runMicrotasks_sideJobs _ W3 Hside0) as (h'' & -> & _ & Hf'').
      simpl. rewrite Hf'' by lia. by apply Hbey.
Qed.

(** The rejection of the loader promise, behind jobs of earlier batches. *)
Lemma deliver_catch V n0 m err (q : list (@Job R Err)) :
  microtasks V = q ++ [JobThenRejected err (seq n0 m)] →
  Forall (sideJob n0) q →
  (∀ a, a < m → promises V !! (n0 + a) = Some Pending) →
  runMicrotasks V =
    set_promises (promises (runMicrotasks V)) (set_microtasks [] V) ∧
  length (promises (runMicrotasks V)) = length (promises V) ∧
  (∀ a, a < m →
     promises (runMicrotasks V) !! (n0 + a) = Some (Rejected err)).
Proof.
  intros Hq Hside Hpend.
  destruct (ticks_to_job n0 q _ V Hq Hside) as (h1 & q1 & Ht & Hq1 & Hl1 & Hf1).
  rewrite <- (runMicrotasks_ticks (S (length q)) V), Ht. simpl.
  set (W3 := enqueue _ _).
  destruct (ticks_to_job n0 q1 (JobCatch err (seq n0 m)) W3 eq_refl Hq1)
    as (h2 & q2 & Ht2 & Hq2 & Hl2 & Hf2).
  rewrite <- (runMicrotasks_ticks (S (length q1)) W3), Ht2. simpl.
  set (W4 := set_promises _ _).
  assert (∀ a, a < m → promises W4 !! (n0 + a) = Some (Rejected err)) as Hrej.
  { intros a Ha. simpl. apply forEachReject_at.
    - apply list_elem_of_lookup. exists a. by apply lookup_seq_lt.
    - rewrite Hf2 by lia. simpl. rewrite Hf1 by lia. by apply Hpend. }
  assert (Forall (sideJob n0) (microtasks W4)) as Hside4 by done.
  destruct (runMicrotasks_sideJobs _ W4 Hside4) as (h' & Hrun & Hl' & _).
  split_and!.
  - by rewrite Hrun.
  - rewrite Hrun. simpl. rewrite Hl'. simpl.
    rewrite forEachReject_length. simpl. by rewrite Hl2.
  - intros a Ha. by apply runMicrotasks_settled; [apply Hrej|].
Qed.

(** ** From the segment of [load] calls to the call of [loaderFn] *)

Lemma batch_flush w k0 ks0 :
  invariant w → isFlushPending (loader w) = false →
  let ks := k0 :: ks0 in
  let w' := (loadAll ks w).2 in
  let d := dedupFirstSeen ks in
  let n0 := length (promises w) in
  let refs := seq n0 (length d) in
  ∃ A,
    runMicrotasks w' =
      runMicrotasks
        match loaderFn (loader w) (callKeys <$> calls w) d with
        | Returns rets => enqueue (JobThen rets refs refs) A
        | Throws err => set_uncaught (uncaught w ++ [err]) A
        | ReturnsPromise s =>
            set_pendingFetches
              (<[length (calls w) :=
                   {| settlement := s; fetchResolvers := refs;
                      fetchRejectors := refs |}]> (pendingFetches w)) A
        end ∧
    loader A = newDataloader (loaderFn (loader w)) ∧
    length (promises A) = n0 + length d ∧
    (∀ a, a < length d → promises A !! (n0 + a) = Some Pending) ∧
    Forall (sideJob n0) (microtasks A) ∧
    pendingFetches A = pendingFetches w ∧
    calls A = calls w ++ [{| callKeys := d;
                             callSeen := newDataloader (loaderFn (loader w)) |}] ∧
    uncaught A = uncaught w.
Proof.
  intros Hinv Hflag ks w' d n0 refs.
  destruct (batch_open w k0 ks0 Hinv Hflag)
    as (Hi & Hd & Hne & Hr & Hj & Hp & Hq & Hf & Hcs & Hu & Hfn & _).
  fold ks w' d n0 refs in Hi, Hd, Hne, Hr, Hj, Hp, Hq, Hf, Hcs, Hu, Hfn.
  pose proof (idle_sideJobs w Hinv Hflag) as Hside. fold n0 in Hside.
  destruct (ticks_to_job n0 _ JobFlush w' Hq Hside)
    as (h1 & q1 & Ht & Hq1 & Hl1 & Hf1).
  set (W1 := set_promises h1 (set_microtasks q1 w')) in Ht.
  exists (afterInvoke W1).
  rewrite <- (runMicrotasks_ticks (S (length (microtasks w))) w'), Ht.
  simpl runJob. rewrite flushJobs_nonempty by (simpl; by rewrite Hd).
  simpl. rewrite Hd, Hr, Hj, Hfn, Hcs, Hu, Hf.
  split_and!; try done.
  - rewrite Hl1, Hp, length_app, length_replicate. done.
  - intros a Ha. rewrite Hf1 by lia. rewrite Hp.
    rewrite lookup_app_r by (fold n0; lia).
    apply lookup_replicate. split; [done|]. fold n0. lia.
Qed.

(** ** What becomes of a batch *)

Lemma no_fetch_yet w :
  invariant w → pendingFetches w !! length (calls w) = None.
Proof.
  intros Hinv. destruct (pendingFetches w !! length (calls w)) eqn:E; [|done].
  destruct (inv_fetches _ Hinv _ _ E) as [? _]. lia.
Qed.

(** The batch opened by the calls [load k0], [load ks0...] on an idle
    instance: [mid] is the world after the microtask checkpoint that
    follows the segment, [final] the world after the loader promise (if
    any) has settled and the microtasks have run again. *)
Lemma batch_outcome w k0 ks0 :
  invariant w → isFlushPending (loader w) = false →
  let ks := k0 :: ks0 in
  let d := dedupFirstSeen ks in
  let n0 := length (promises w) in
  let mid := runMicrotasks (loadAll ks w).2 in
  let final := runMicrotasks (settle (length (calls w)) mid) in
  let call := {| callKeys := d;
                 callSeen := newDataloader (loaderFn (loader w)) |} in
  calls mid = calls w ++ [call] ∧ calls final = calls w ++ [call] ∧
  microtasks mid = [] ∧ microtasks final = [] ∧
  loader mid = newDataloader (loaderFn (loader w)) ∧
  loader final = newDataloader (loaderFn (loader w)) ∧
  length (promises final) = n0 + length d ∧
  match loaderFn (loader w) (callKeys <$> calls w) d with
  | Returns rets | ReturnsPromise (Some (Fulfils rets)) =>
      (∀ a item, a < length d → rets !! a = Some (Some item) →
         promises final !! (n0 + a) = Some (resolvedState item)) ∧
      (∀ a, a < length d → rets !! a = Some None ∨ length rets ≤ a →
         promises final !! (n0 + a) =
         Some (if decide (overflows (length d) rets)
               then Rejected TypeError else Pending)) ∧
      uncaught final = uncaught w ∧
      pendingFetches final = pendingFetches w
  | ReturnsPromise (Some (RejectsWith err)) =>
      (∀ a, a < length d →
         promises final !! (n0 + a) = Some (Rejected err)) ∧
      uncaught final = uncaught w ∧
      pendingFetches final = pendingFetches w
  | Throws err =>
      (∀ a, a < length d → promises final !! (n0 + a) = Some Pending) ∧
      uncaught final = uncaught w ++ [err] ∧
      pendingFetches final = pendingFetches w
  | ReturnsPromise None =>
      (∀ a, a < length d → promises final !! (n0 + a) = Some Pending) ∧
      uncaught final = uncaught w
  end.
Proof.
  intros Hinv Hflag ks d n0 mid final call.
  destruct (batch_flush w k0 ks0 Hinv Hflag)
    as (A & Hrun & HlA & HlenA & HpA & HsA & HfA & HcA & HuA).
  fold ks d n0 in Hrun, HlenA, HpA, HsA, HcA. fold mid in Hrun.
  pose proof (no_fetch_yet w Hinv) as Hnone.
  destruct (loaderFn (loader w) (callKeys <$> calls w) d) as [rets|err|s].
  - (* the loader returned an array *)
    destruct (deliver_then
                (enqueue (JobThen rets (seq n0 (length d)) (seq n0 (length d))) A)
                n0 (length d) rets (microtasks A) eq_refl HsA HpA)
      as (Hshape & Hlen & Hat & Hbey).
    rewrite <- Hrun in Hshape, Hlen, Hat, Hbey.
    assert (final = mid) as ->.
    { unfold final, settle. rewrite Hshape. simpl. rewrite HfA, Hnone.
      by apply runMicrotasks_nil. }
    assert (calls mid = calls A ∧ microtasks mid = [] ∧ loader mid = loader A ∧
            uncaught mid = uncaught A ∧ pendingFetches mid = pendingFetches A)
      as (-> & -> & -> & -> & ->) by (by rewrite Hshape).
    split_and!; try done. by rewrite Hlen.
  - (* the loader threw *)
    destruct (runMicrotasks_sideJobs n0 (set_uncaught (uncaught w ++ [err]) A)
                HsA) as (h2 & Hshape & Hlen & Hframe).
    rewrite <- Hrun in Hshape.
    assert (final = mid) as ->.
    { unfold final, settle. rewrite Hshape. simpl. rewrite HfA, Hnone.
      by apply runMicrotasks_nil. }
    rewrite Hshape. simpl in *.
    split_and!; try done; [congruence|].
    intros a Ha. rewrite Hframe by lia. by apply HpA.
  - (* the loader returned a promise *)
    set (f := {| settlement := s; fetchResolvers := seq n0 (length d);
                 fetchRejectors := seq n0 (length d) |}) in Hrun.
    destruct (runMicrotasks_sideJobs n0
                (set_pendingFetches (<[length (calls w) := f]> (pendingFetches w)) A)
                HsA) as (h2 & Hshape & Hlen & Hframe).
    rewrite <- Hrun in Hshape. simpl in Hlen, Hframe.
    assert (∀ a, a < length d → h2 !! (n0 + a) = Some Pending) as Hp2.
    { intros a Ha. rewrite Hframe by lia. by apply HpA. }
    assert (pendingFetches mid !! length (calls w) = Some f) as Hlook.
    { rewrite Hshape. simpl. apply lookup_insert_eq. }
    unfold final, settle. rewrite Hlook. simpl.
    destruct s as [[rets|err]|].
    + set (V := enqueue _ _).
      assert (microtasks V = [] ++ [JobThen rets (seq n0 (length d))
                                      (seq n0 (length d))]) as HqV.
      { unfold V. rewrite Hshape. done. }
      assert (∀ a, a < length d → promises V !! (n0 + a) = Some Pending) as HpV.
      { unfold V. rewrite Hshape. done. }
      destruct (deliver_then V n0 (length d) rets [] HqV (Forall_nil_2 _) HpV)
        as (HshapeV & HlenV & Hat & Hbey).
      assert (calls mid = calls A ∧ microtasks mid = [] ∧
              loader mid = loader A ∧ uncaught mid = uncaught A ∧
              delete (length (calls w)) (pendingFetches mid) = pendingFetches w ∧
              length (promises V) = length (promises A))
        as (Hmc & Hmq & Hml & Hmu & Hmf & HVp).
      { unfold V. rewrite Hshape. simpl.
        by rewrite delete_insert_id by done. }
      rewrite HshapeV. simpl. rewrite Hmc, Hmq, Hml, Hmu, Hmf.
      split_and!; try done. by rewrite HlenV, HVp.
    + set (V := enqueue _ _).
      assert (microtasks V = [] ++ [JobThenRejected err (seq n0 (length d))])
        as HqV.
      { unfold V. rewrite Hshape. done. }
      assert (∀ a, a < length d → promises V !! (n0 + a) = Some Pending) as HpV.
      { unfold V. rewrite Hshape. done. }
      destruct (deliver_catch V n0 (length d) err [] HqV (Forall_nil_2 _) HpV)
        as (HshapeV & HlenV & Hrej).
      assert (calls mid = calls A ∧ microtasks mid = [] ∧
              loader mid = loader A ∧ uncaught mid = uncaught A ∧
              delete (length (calls w)) (pendingFetches mid) = pendingFetches w ∧
              length (promises V) = length (promises A))
        as (Hmc & Hmq & Hml & Hmu & Hmf & HVp).
      { unfold V. rewrite Hshape. simpl.
        by rewrite delete_insert_id by done. }
      rewrite HshapeV. simpl. rewrite Hmc, Hmq, Hml, Hmu, Hmf.
      split_and!; try done. by rewrite HlenV, HVp.
    + rewrite runMicrotasks_nil by (by rewrite Hshape).
      rewrite Hshape. simpl. split_and!; try done. congruence.
Qed.

(** After the batch nothing holds a callback of its promises any more. *)
Lemma batch_unowned w V p :
  invariant w → length (promises w) ≤ p →
  loader V = newDataloader (loaderFn (loader w)) →
  microtasks V = [] → pendingFetches V = pendingFetches w →
  unowned V p.
Proof.
  intros Hinv Hp Hl Hq Hf. unfold unowned. rewrite Hl, Hq, Hf. simpl.
  split_and!; try apply not_elem_of_nil; [constructor|].
  intros c f Hc Hin. destruct (inv_fetches _ Hinv _ _ Hc) as [_ [Hb _]].
  rewrite Forall_forall in Hb. specialize (Hb _ Hin). simpl in Hb. lia.
Qed.

(** ** The claims *)

Lemma idle_step w ev :
  invariant w → isFlushPending (loader w) = false → isLoad ev = false →
  loader (step ev w) = loader w ∧ calls (step ev w) = calls w.
Proof.
  intros Hinv Hflag Hev. destruct ev as [k| |c|q]; [done|simpl..].
  - destruct (microtasks w) as [|j q] eqn:Hq; [by rewrite tick_nil|].
    pose proof (idle_sideJobs w Hinv Hflag) as Hside. rewrite Hq in Hside.
    apply Forall_cons in Hside as [Hj _].
    by destruct (tick_sideJob _ j q w Hq Hj) as (h' & sp & -> & _).
  - unfold settle. destruct (pendingFetches w !! c) as [f|]; [|done].
    by destruct (settlement f) as [[]|].
  - done.
Qed.

Lemma idle_run evs : ∀ w,
  invariant w → isFlushPending (loader w) = false →
  Forall (λ ev, isLoad ev = false) evs →
  loader (run evs w) = loader w ∧ calls (run evs w) = calls w.
Proof.
  induction evs as [|ev evs IH]; intros w Hinv Hflag Hevs; simpl; [done|].
  apply Forall_cons in Hevs as [Hev Hevs].
  destruct (idle_step w ev Hinv Hflag Hev) as [Hl Hc].
  destruct (IH (step ev w)) as [Hl' Hc']; try done.
  - by apply invariant_step.
  - by rewrite Hl.
  - by rewrite Hl', Hc', Hl, Hc.
Qed.

Lemma invariant_loadAll ks w : invariant w → invariant (loadAll ks w).2.
Proof. intros Hinv. by destruct (loadAll_spec ks w Hinv) as (m & ? & _). Qed.

Lemma invariant_runMicrotasks w : invariant w → invariant (runMicrotasks w).
Proof. intros Hinv. apply runMicrotasks_ind; auto using invariant_tick. Qed.

(** C1: the [load] calls of one synchronous segment (on an instance with
    no flush pending) lead to exactly one invocation of the loader function:
    the microtask checkpoint after the segment adds one entry to the log of
    invocations, and nothing that happens later adds another unless [load]
    is called again.  The key list of that invocation has no duplicates, has
    the same elements as the arguments of the calls, and orders them by the
    position of their first [load] call. *)
Theorem C1_one_invocation_deduplicated_first_seen w k0 ks0 :
  reachable w → isFlushPending (loader w) = false →
  let ks := k0 :: ks0 in
  let w' := runMicrotasks (loadAll ks w).2 in
  ∃ keys seen,
    calls w' = calls w ++ [{| callKeys := keys; callSeen := seen |}] ∧
    (∀ evs, Forall (λ ev, isLoad ev = false) evs →
            calls (run evs w') = calls w') ∧
    NoDup keys ∧
    (∀ x, x ∈ keys ↔ x ∈ ks) ∧
    (∀ (i j : nat) x y,
       keys !! i = Some x → keys !! j = Some y → i < j →
       ∃ a b, indexOf x ks = Some a ∧ indexOf y ks = Some b ∧ a < b).
Proof.
  intros Hreach Hflag ks w'.
  pose proof (reachable_invariant w Hreach) as Hinv.
  destruct (batch_outcome w k0 ks0 Hinv Hflag)
    as (Hcalls & _ & _ & _ & Hloader & _).
  fold ks w' in Hcalls, Hloader.
  destruct (dedupFirstSeen_spec ks) as (Hnd & Helem & Hord).
  eexists _, _. split_and!; [exact Hcalls| |done..].
  intros evs Hevs.
  apply idle_run; [|by rewrite Hloader|done].
  apply invariant_runMicrotasks. by apply invariant_loadAll.
Qed.

Lemma runJob_loader j w : isFlush j = false → loader (runJob j w) = loader w.
Proof.
  intros Hj. destruct j as [|rets res rej|err rej|err rej]; simpl; try done.
  by destruct (forEachResolve _ _ _ _) as [h' [e|]].
Qed.

Lemma load_cache_persists k k' p w :
  cachePromises (loader w) !! k = Some p →
  cachePromises (loader (load k' w).2) !! k = Some p.
Proof.
  intros Hk. destruct (cachePromises (loader w) !! k') as [p'|] eqn:Hc.
  - by rewrite (load_cached _ _ _ Hc).
  - rewrite (load_new _ _ Hc). simpl. rewrite lookup_insert_ne; [done|].
    intros ->. congruence.
Qed.

Lemma flushFree_cache_persists evs k p : ∀ w,
  flushFree evs w → cachePromises (loader w) !! k = Some p →
  cachePromises (loader (run evs w)) !! k = Some p.
Proof.
  induction evs as [|ev evs IH]; intros w Hfree Hk; simpl in *; [done|].
  destruct ev as [k'| |c|q].
  - apply IH; [by destruct (microtasks w)|]. by apply load_cache_persists.
  - destruct (microtasks w) as [|j q] eqn:Hq.
    + apply IH; [done|]. simpl. by rewrite tick_nil.
    + assert (isFlush j = false) as Hj by (by destruct j).
      apply IH; [by destruct j|]. simpl. unfold tick. rewrite Hq.
      by rewrite runJob_loader.
  - apply IH; [by destruct (microtasks w)|]. simpl. unfold settle.
    destruct (pendingFetches w !! c) as [f|]; [|done].
    by destruct (settlement f) as [[]|].
  - apply IH; [by destruct (microtasks w)|]. done.
Qed.

Lemma load_caches k w :
  cachePromises (loader (load k w).2) !! k = Some (load k w).1.
Proof.
  destruct (cachePromises (loader w) !! k) as [p|] eqn:Hc.
  - by rewrite (load_cached _ _ _ Hc).
  - rewrite (load_new _ _ Hc). simpl. apply lookup_insert_eq.
Qed.

(** C2: a second [load k] in the same batch, that is, with no execution
    of [flushJobs] between the two calls (other [load] calls, other
    microtasks and settling loader promises may come between), returns the
    very promise the first call returned, and changes nothing: no key is
    added to [data], no callback is recorded, nothing is scheduled. *)
Theorem C2_same_batch_same_promise w k evs :
  flushFree evs (load k w).2 →
  let w2 := run evs (load k w).2 in
  (load k w2).1 = (load k w).1 ∧
  (load k w2).2 = w2 ∧
  data (loader (load k w2).2) = data (loader w2).
Proof.
  intros Hfree w2.
  pose proof (flushFree_cache_persists evs k _ _ Hfree (load_caches k w)) as Hc.
  fold w2 in Hc. by rewrite (load_cached _ _ _ Hc).
Qed.

Lemma flush_pending_nonempty q w :
  invariant w → microtasks w = JobFlush :: q →
  data (loader w) ≠ [] ∧ countFlush q = 0.
Proof.
  intros Hinv Hq. pose proof (inv_flush _ Hinv) as Hfl.
  rewrite Hq, (coh_flag _ _ (inv_loader _ Hinv)) in Hfl. simpl in Hfl.
  destruct (data (loader w)); simpl in Hfl; [lia|]. split; [done|lia].
Qed.

(** C3: when a scheduled [flushJobs] runs (in a reachable world its batch
    is never empty), the loader function is called once, with the pending
    keys, and the instance it could observe at the moment of the call is
    already the empty one: [cachePromises], [data], [resolveArr] and
    [rejectArr] empty and [isFlushPending] false.  A [load] issued right
    after, whatever the loader promise does and even for a key of the batch
    in flight, therefore starts a new batch: it creates a new promise, which
    is none of the batch in flight, becomes the only pending entry, and
    schedules a flush of its own. *)
Theorem C3_state_reset_before_loader_call w q :
  reachable w → microtasks w = JobFlush :: q →
  let w1 := tick w in
  let fresh := newDataloader (loaderFn (loader w)) in
  (∃ c, calls w1 = calls w ++ [c] ∧ callKeys c = data (loader w) ∧
        data (loader w) ≠ [] ∧ callSeen c = fresh) ∧
  loader w1 = fresh ∧
  countFlush (microtasks w1) = 0 ∧
  ∀ k,
    let p := (load k w1).1 in
    let w2 := (load k w1).2 in
    p = length (promises w) ∧ (p ∉ resolveArr (loader w)) ∧
    promises w2 = promises w ++ [Pending] ∧
    data (loader w2) = [k] ∧
    resolveArr (loader w2) = [p] ∧ rejectArr (loader w2) = [p] ∧
    cachePromises (loader w2) = {[k := p]} ∧
    isFlushPending (loader w2) = true ∧
    microtasks w2 = microtasks w1 ++ [JobFlush] ∧
    pendingFetches w2 = pendingFetches w1.
Proof.
  intros Hreach Hq w1 fresh.
  pose proof (reachable_invariant w Hreach) as Hinv.
  destruct (flush_pending_nonempty q w Hinv Hq) as [Hd Hq0].
  assert (w1 = flushJobs (set_microtasks q w)) as Hw1.
  { unfold w1, tick. by rewrite Hq. }
  rewrite flushJobs_nonempty in Hw1 by done. simpl in Hw1.
  assert (loader w1 = fresh ∧ promises w1 = promises w ∧
          calls w1 = calls w ++ [{| callKeys := data (loader w);
                                     callSeen := fresh |}] ∧
          countFlush (microtasks w1) = 0) as (Hl & Hp & Hc & Hcf).
  { rewrite Hw1. destruct (loaderFn (loader w) _ _); simpl;
      rewrite ?countFlush_app, ?Hq0; done. }
  split_and!; [by eexists| done | done |].
  intros k p w2.
  assert (cachePromises (loader w1) !! k = None) as Hnone.
  { rewrite Hl. apply lookup_empty. }
  unfold p, w2. rewrite (load_new _ _ Hnone), Hl, Hp. simpl.
  split_and!; try done.
  - intros Hin. pose proof (coh_bound _ _ (inv_loader _ Hinv)) as Hb.
    rewrite Forall_forall in Hb. specialize (Hb _ Hin). simpl in Hb. lia.
Qed.

Lemma dense_lookup (items : list (@Item R Err)) (a : nat) :
  dense items !! a = Some <$> items !! a.
Proof. apply list_lookup_fmap. Qed.

Lemma plain_lookup (values : list R) (a : nat) :
  @plain R Err values !! a = (λ v, Some (Plain v)) <$> values !! a.
Proof. apply list_lookup_fmap. Qed.

Lemma length_dense (items : list (@Item R Err)) :
  length (dense items) = length items.
Proof. apply length_fmap. Qed.

(** What becomes of the promises returned in a segment whose loader call
    succeeds with [rets], holes and thenables included: a promise whose
    position holds an item is resolved with it; a promise whose position
    holds a hole, or lies beyond the end of [rets], stays pending unless the
    iteration throws, in which case the rejection callback rejects it with
    the [TypeError]. *)
Lemma batch_delivered w k0 ks0 rets :
  reachable w → isFlushPending (loader w) = false →
  let ks := k0 :: ks0 in
  let d := dedupFirstSeen ks in
  let returned := (loadAll ks w).1 in
  let mid := runMicrotasks (loadAll ks w).2 in
  let final := runMicrotasks (settle (length (calls w)) mid) in
  succeedsWith (loaderFn (loader w) (callKeys <$> calls w) d) rets →
  uncaught final = uncaught w ∧
  ∀ (i : nat) k p,
    ks !! i = Some k → returned !! i = Some p →
    ∃ a,
      d !! a = Some k ∧ p = length (promises w) + a ∧
      (∀ item, rets !! a = Some (Some item) →
         promises final !! p = Some (resolvedState item) ∧
         ∀ evs, ∃ st,
           promises (run evs final) !! p = Some st ∧ follows item st) ∧
      (rets !! a = Some None ∨ length rets ≤ a →
         ∀ evs, promises (run evs final) !! p =
                Some (if decide (overflows (length d) rets)
                      then Rejected TypeError else Pending)).
Proof.
  intros Hreach Hflag ks d returned mid final Hsucc.
  pose proof (reachable_invariant w Hreach) as Hinv.
  destruct (batch_open w k0 ks0 Hinv Hflag)
    as (_ & _ & _ & _ & _ & _ & _ & _ & _ & _ & _ & Hret).
  destruct (batch_outcome w k0 ks0 Hinv Hflag)
    as (_ & _ & _ & Hq & _ & Hl & Hlen & Hout).
  fold ks d mid final in Hret, Hq, Hl, Hlen, Hout. fold returned in Hret.
  assert ((∀ a item, a < length d → rets !! a = Some (Some item) →
             promises final !! (length (promises w) + a)
             = Some (resolvedState item)) ∧
          (∀ a, a < length d → rets !! a = Some None ∨ length rets ≤ a →
             promises final !! (length (promises w) + a) =
             Some (if decide (overflows (length d) rets)
                   then Rejected TypeError else Pending)) ∧
          uncaught final = uncaught w ∧
          pendingFetches final = pendingFetches w)
    as (Hat & Hbey & Hunc & Hf).
  { destruct Hsucc as [Hs|Hs]; rewrite Hs in Hout; apply Hout. }
  split; [done|]. intros i k p Hk Hp.
  destruct (Hret i k p Hk Hp) as (a & Ha & ->).
  assert (a < length d) as Hlt by by eapply lookup_lt_Some.
  exists a. split_and!; try done.
  - intros item Hitem. split; [by apply Hat|]. intros evs.
    apply (run_follows evs _ item final (resolvedState item));
      [by apply Hat|apply follows_resolvedState].
  - intros Hhole evs. specialize (Hbey a Hlt Hhole).
    case_decide.
    + by apply run_settled.
    + apply run_unowned; [done|].
      apply (batch_unowned w); try done. lia.
Qed.

(** C4 (amended): on an instance with no flush pending, let a synchronous
    segment call [load] on [k0], [ks0...], and let the loader function,
    called with the deduplicated keys [d], succeed (by returning an array or
    a promise fulfilled later) with an array that has no holes and as many
    entries as there are keys.  Once the microtasks have run, every promise
    returned by a [load] call is resolved, for good, with the entry at the
    position its key has in [d]: fulfilled with it where it is a plain
    value, following it where it is a thenable. *)
Theorem C4_results_aligned_by_position w k0 ks0 (items : list (@Item R Err)) :
  reachable w → isFlushPending (loader w) = false →
  let ks := k0 :: ks0 in
  let d := dedupFirstSeen ks in
  let returned := (loadAll ks w).1 in
  let mid := runMicrotasks (loadAll ks w).2 in
  let final := runMicrotasks (settle (length (calls w)) mid) in
  succeedsWith (loaderFn (loader w) (callKeys <$> calls w) d) (dense items) →
  length items = length d →
  callKeys <$> calls final = (callKeys <$> calls w) ++ [d] ∧
  ∀ (i : nat) k p,
    ks !! i = Some k → returned !! i = Some p →
    ∃ a item,
      d !! a = Some k ∧ items !! a = Some item ∧
      (∀ evs, resolvedWith (promises (run evs final)) p item) ∧
      (∀ v, item = Plain v →
         ∀ evs, promises (run evs final) !! p = Some (Fulfilled v)).
Proof.
  intros Hreach Hflag ks d returned mid final Hsucc Hlen.
  pose proof (reachable_invariant w Hreach) as Hinv.
  destruct (batch_outcome w k0 ks0 Hinv Hflag)
    as (_ & Hcalls & _).
  destruct (batch_delivered w k0 ks0 (dense items) Hreach Hflag Hsucc)
    as (_ & Hdel).
  fold ks d mid final in Hcalls, Hdel. fold returned in Hdel.
  split.
  { rewrite Hcalls, fmap_app. done. }
  intros i k p Hk Hp. destruct (Hdel i k p Hk Hp) as (a & Ha & _ & Hat & _).
  assert (is_Some (items !! a)) as [item Hitem].
  { apply lookup_lt_is_Some. rewrite Hlen. by eapply lookup_lt_Some. }
  destruct (Hat item) as [Hnow Hlater].
  { by rewrite dense_lookup, Hitem. }
  exists a, item. split_and!; try done.
  intros v -> evs. destruct (Hlater evs) as (st & Hst & Hfol).
  simpl in Hfol. by subst.
Qed.

(** Where the loader promise rejects, every promise of the batch is
    rejected with that reason. *)
Lemma rejected_loader_promise_rejects_batch w k0 ks0 err :
  reachable w → isFlushPending (loader w) = false →
  let ks := k0 :: ks0 in
  let d := dedupFirstSeen ks in
  let returned := (loadAll ks w).1 in
  let mid := runMicrotasks (loadAll ks w).2 in
  let final := runMicrotasks (settle (length (calls w)) mid) in
  loaderFn (loader w) (callKeys <$> calls w) d
    = ReturnsPromise (Some (RejectsWith err)) →
  ∀ (i : nat) k p,
    ks !! i = Some k → returned !! i = Some p →
    promises final !! p = Some (Rejected err).
Proof.
  intros Hreach Hflag ks d returned mid final Hres i k p Hk Hp.
  pose proof (reachable_invariant w Hreach) as Hinv.
  destruct (batch_open w k0 ks0 Hinv Hflag)
    as (_ & _ & _ & _ & _ & _ & _ & _ & _ & _ & _ & Hret).
  destruct (batch_outcome w k0 ks0 Hinv Hflag)
    as (_ & _ & _ & _ & _ & _ & _ & Hout).
  fold ks d mid final in Hret, Hout. fold returned in Hret.
  rewrite Hres in Hout. destruct Hout as (Hrej & _).
  destruct (Hret i k p Hk Hp) as (a & Ha & ->).
  apply Hrej. by eapply lookup_lt_Some.
Qed.

(** Where the loader function throws, the exception leaves [flushJobs]
    uncaught and no promise of the batch is ever settled. *)
Lemma throwing_loader_leaves_batch_pending w k0 ks0 err :
  reachable w → isFlushPending (loader w) = false →
  let ks := k0 :: ks0 in
  let d := dedupFirstSeen ks in
  let returned := (loadAll ks w).1 in
  let mid := runMicrotasks (loadAll ks w).2 in
  let final := runMicrotasks (settle (length (calls w)) mid) in
  loaderFn (loader w) (callKeys <$> calls w) d = Throws err →
  uncaught final = uncaught w ++ [err] ∧
  ∀ (i : nat) k p evs,
    ks !! i = Some k → returned !! i = Some p →
    promises (run evs final) !! p = Some Pending.
Proof.
  intros Hreach Hflag ks d returned mid final Hres.
  pose proof (reachable_invariant w Hreach) as Hinv.
  destruct (batch_open w k0 ks0 Hinv Hflag)
    as (_ & _ & _ & _ & _ & _ & _ & _ & _ & _ & _ & Hret).
  destruct (batch_outcome w k0 ks0 Hinv Hflag)
    as (_ & _ & _ & Hq & _ & Hl & Hlen & Hout).
  fold ks d mid final in Hret, Hq, Hl, Hlen, Hout. fold returned in Hret.
  rewrite Hres in Hout. destruct Hout as (Hpend & Hunc & Hf).
  split; [done|]. intros i k p evs Hk Hp.
  destruct (Hret i k p Hk Hp) as (a & Ha & ->).
  apply lookup_lt_Some in Ha.
  apply run_unowned; [by apply Hpend|].
  apply (batch_unowned w); try done. lia.
Qed.

(** C6 (amended): the callbacks are recorded once per distinct key, not
    once per call.  After any segment of [load] calls on an instance with no
    flush pending, [resolveArr] and [rejectArr] have as many entries as
    there are distinct keys, and they are parallel to [data]: the callbacks
    at a position are those of the promise cached for the key at that
    position. *)
Theorem C6_one_callback_pair_per_distinct_key w ks :
  reachable w → isFlushPending (loader w) = false →
  let w' := (loadAll ks w).2 in
  data (loader w') = dedupFirstSeen ks ∧
  length (resolveArr (loader w')) = length (dedupFirstSeen ks) ∧
  length (rejectArr (loader w')) = length (dedupFirstSeen ks) ∧
  ∀ (a : nat) k,
    data (loader w') !! a = Some k →
    ∃ p, resolveArr (loader w') !! a = Some p ∧
         rejectArr (loader w') !! a = Some p ∧
         cachePromises (loader w') !! k = Some p.
Proof.
  intros Hreach Hflag w'.
  pose proof (reachable_invariant w Hreach) as Hinv.
  destruct (idle_empty w Hinv Hflag) as (Hd0 & _ & _).
  destruct (loadAll_spec ks w Hinv) as (m & Hi & Hd & _).
  fold w' in Hi, Hd. rewrite Hd0 in Hd.
  change (foldl pushNew [] ks) with (dedupFirstSeen ks) in Hd.
  pose proof (inv_loader _ Hi) as Hcoh.
  pose proof (coh_length _ _ Hcoh) as Hlen.
  pose proof (coh_parallel _ _ Hcoh) as Hpar.
  rewrite Hpar, Hlen, Hd. split_and!; try done.
  intros a k Ha. rewrite <- Hd in Ha.
  assert (is_Some (resolveArr (loader w') !! a)) as [p Hp].
  { apply lookup_lt_is_Some. rewrite Hlen. by eapply lookup_lt_Some. }
  exists p. split_and!; try done. apply (coh_cache _ _ Hcoh). eauto.
Qed.

Lemma forEachResolve_out rets : ∀ i refs h,
  length refs ≤ i → (forEachResolve rets i refs h).1 = h.
Proof.
  induction rets as [|[r|] rets IH]; intros i refs h Hlen; simpl; [done| |].
  - by rewrite (proj2 (lookup_ge_None refs i)) by done.
  - apply IH. lia.
Qed.

Lemma forEachResolve_take rets : ∀ i refs h,
  (forEachResolve rets i refs h).1 =
  (forEachResolve (take (length refs - i) rets) i refs h).1.
Proof.
  induction rets as [|r rets IH]; intros i refs h.
  { by rewrite take_nil. }
  destruct (decide (length refs ≤ i)) as [Hle|Hlt].
  { by rewrite !forEachResolve_out by done. }
  replace (length refs - i) with (S (length refs - S i)) by lia.
  simpl. destruct r as [r|]; [|apply IH].
  destruct (refs !! i) as [q|] eqn:Hq; [apply IH|done].
Qed.

(** A promise whose position holds an item is resolved by the iteration,
    if it was not before. *)
Lemma forEachResolve_all_settled rets : ∀ i refs h (k : nat) p st item,
  refs !! k = Some p → i ≤ k → rets !! (k - i) = Some (Some item) →
  (forEachResolve rets i refs h).1 !! p = Some st → st ≠ Pending.
Proof.
  induction rets as [|r rets IH]; intros i refs h k p st item Hk Hik Hr Hst;
    simpl in *; [done|].
  destruct (decide (k = i)) as [->|Hne].
  - replace (i - i) with 0 in Hr by lia. simplify_eq/=.
    rewrite Hk in Hst.
    destruct (resolve p item h !! p) as [st1|] eqn:E.
    + assert (st1 ≠ Pending) as Hst1.
      { unfold resolve in E. destruct (h !! p) as [[]|] eqn:Ep;
          try (rewrite Ep in E; by simplify_eq).
        rewrite list_lookup_insert_eq in E by (by eapply lookup_lt_Some).
        simplify_eq. apply resolvedState_not_pending. }
      rewrite (forEachResolve_settled rets p st1 (S i) refs _ E Hst1) in Hst.
      by simplify_eq.
    + apply lookup_ge_None in E.
      apply lookup_lt_Some in Hst.
      rewrite forEachResolve_length in Hst. lia.
  - assert (is_Some (refs !! i)) as [q Hq].
    { apply lookup_lt_is_Some. apply lookup_lt_Some in Hk. lia. }
    replace (k - i) with (S (k - S i)) in Hr by lia. simpl in Hr.
    destruct r as [r|].
    + rewrite Hq in Hst. eapply (IH (S i) refs _ k); [done|lia|done|done].
    + eapply (IH (S i) refs _ k); [done|lia|done|done].
Qed.

(** Results beyond the number of callbacks make no difference where no
    hole stands before them: the [TypeError] of the fulfilment callback
    reaches the rejection callback, which then finds every promise of the
    snapshot resolved. *)
Lemma extra_results_dropped V rets (refs : list nat) :
  length refs < length rets →
  Forall is_Some (take (length refs) rets) →
  runMicrotasks (set_microtasks [JobThen rets refs refs] V) =
  runMicrotasks
    (set_microtasks [JobThen (take (length refs) rets) refs refs] V).
Proof.
  intros Hlong Hdense.
  set (h := (forEachResolve (take (length refs) rets) 0 refs (promises V)).1).
  assert (length (take (length refs) rets) = length refs) as Hlt.
  { rewrite length_take. lia. }
  assert (tick (set_microtasks [JobThen (take (length refs) rets) refs refs] V)
          = set_promises h (set_microtasks [] V)) as Hrhs.
  { unfold tick. simpl.
    pose proof (forEachResolve_thrown (take (length refs) rets) 0 refs
                  (promises V)) as Hthr.
    rewrite decide_False in Hthr by (apply not_overflows; lia). unfold h.
    destruct (forEachResolve (take (length refs) rets) 0 refs (promises V))
      as [h1 thrown].
    simpl in *. by subst. }
  pose proof (forEachResolve_take rets 0 refs (promises V)) as Htake.
  rewrite Nat.sub_0_r in Htake. fold h in Htake.
  pose proof (forEachResolve_thrown rets 0 refs (promises V)) as Hthr.
  rewrite Nat.sub_0_r in Hthr.
  rewrite <- (runMicrotasks_tick (set_microtasks [JobThen rets _ _] V)).
  rewrite <- (runMicrotasks_tick (set_microtasks [JobThen (take _ _) _ _] V)),
    Hrhs.
  destruct (decide (overflows (length refs) rets)) as [Hover|Hfits].
  - assert (tick (set_microtasks [JobThen rets refs refs] V) =
            enqueue (JobCatch TypeError refs)
              (set_promises h (set_microtasks [] V))) as ->.
    { unfold tick. simpl.
      destruct (forEachResolve rets 0 refs (promises V)) as [h1 thrown].
      simpl in *. by subst. }
    assert (Forall (λ p, ∀ st, h !! p = Some st → st ≠ Pending) refs)
      as Hsettled.
    { apply Forall_forall. intros p Hin st Hst.
      apply list_elem_of_lookup in Hin as [k Hk].
      pose proof (lookup_lt_Some _ _ _ Hk) as Hklt.
      assert (is_Some (take (length refs) rets !! k)) as [r Hr].
      { apply lookup_lt_is_Some. lia. }
      rewrite Forall_lookup in Hdense. destruct (Hdense k r Hr) as [item ->].
      eapply (forEachResolve_all_settled _ 0 refs _ k); [done|lia| |done].
      by rewrite Nat.sub_0_r. }
    rewrite <- (runMicrotasks_tick (enqueue _ _)).
    unfold tick at 1. simpl. by rewrite forEachReject_idle.
  - assert (tick (set_microtasks [JobThen rets refs refs] V) =
            set_promises h (set_microtasks [] V)) as ->; [|done].
    unfold tick. simpl.
    destruct (forEachResolve rets 0 refs (promises V)) as [h1 thrown].
    simpl in *. by subst.
Qed.

(** C7 (amended): let the loader function succeed with a result that has
    not as many entries as the batch has keys.  Where the result is shorter,
    the promises of the keys at the positions beyond its length are not
    settled by the fulfilment callback, and in fact never.  Where it is
    longer and no hole stands among the entries that have a key, every
    promise of the batch is resolved with the entry at its position, no
    error surfaces, and altogether the run of the callbacks leaves the same
    world as it does for the result cut to the number of callbacks.  Where a
    hole stands at the position of a key and an entry stands beyond the
    keys, the promise of that key is rejected with the [TypeError] of the
    fulfilment callback. *)
Theorem C7_mismatched_result_length w k0 ks0 rets :
  reachable w → isFlushPending (loader w) = false →
  let ks := k0 :: ks0 in
  let d := dedupFirstSeen ks in
  let returned := (loadAll ks w).1 in
  let mid := runMicrotasks (loadAll ks w).2 in
  let final := runMicrotasks (settle (length (calls w)) mid) in
  succeedsWith (loaderFn (loader w) (callKeys <$> calls w) d) rets →
  (∀ (i a : nat) k p,
     ks !! i = Some k → returned !! i = Some p →
     d !! a = Some k → length rets ≤ a →
     ∀ evs, promises (run evs final) !! p = Some Pending) ∧
  (length d < length rets → Forall is_Some (take (length d) rets) →
     uncaught final = uncaught w ∧
     ∀ (i : nat) k p,
       ks !! i = Some k → returned !! i = Some p →
       ∃ a item, d !! a = Some k ∧ rets !! a = Some (Some item) ∧
                 ∀ evs, resolvedWith (promises (run evs final)) p item) ∧
  (∀ V (refs : list nat),
     length refs < length rets → Forall is_Some (take (length refs) rets) →
     runMicrotasks (set_microtasks [JobThen rets refs refs] V) =
     runMicrotasks
       (set_microtasks [JobThen (take (length refs) rets) refs refs] V)) ∧
  (overflows (length d) rets →
     ∀ (i a : nat) k p,
       ks !! i = Some k → returned !! i = Some p →
       d !! a = Some k → rets !! a = Some None →
       ∀ evs, promises (run evs final) !! p = Some (Rejected TypeError)).
Proof.
  intros Hreach Hflag ks d returned mid final Hsucc.
  destruct (batch_delivered w k0 ks0 rets Hreach Hflag Hsucc) as (Hunc & Hdel).
  fold ks d mid final in Hunc, Hdel. fold returned in Hdel.
  destruct (dedupFirstSeen_spec ks) as (Hnd & _ & _). fold d in Hnd.
  split_and!.
  - intros i a k p Hk Hp Ha Hshort evs.
    destruct (Hdel i k p Hk Hp) as (a' & Ha' & _ & _ & Hbey).
    assert (a' = a) as -> by by eapply NoDup_lookup.
    rewrite Hbey by auto. rewrite decide_False; [done|].
    apply not_overflows. apply lookup_lt_Some in Ha. lia.
  - intros Hlong Hdense. split; [done|]. intros i k p Hk Hp.
    destruct (Hdel i k p Hk Hp) as (a & Ha & _ & Hat & _).
    assert (a < length d) as Hlt by by eapply lookup_lt_Some.
    assert (is_Some (take (length d) rets !! a)) as [r Hr].
    { apply lookup_lt_is_Some. rewrite length_take. lia. }
    rewrite Forall_lookup in Hdense. destruct (Hdense a r Hr) as [item ->].
    rewrite lookup_take_lt in Hr by done.
    exists a, item. split_and!; try done. by apply Hat.
  - intros V refs. apply extra_results_dropped.
  - intros Hover i a k p Hk Hp Ha Hhole evs.
    destruct (Hdel i k p Hk Hp) as (a' & Ha' & _ & _ & Hbey).
    assert (a' = a) as -> by by eapply NoDup_lookup.
    rewrite Hbey by auto. by rewrite decide_True.
Qed.

(** C8: [flushJobs] on an instance whose [data] is empty only clears
    [isFlushPending]: the loader function is not called and every other
    field, of the instance and around it, is left as it was. *)
Theorem C8_empty_flush_is_a_noop w :
  data (loader w) = [] →
  flushJobs w = set_loader (set_isFlushPending false (loader w)) w ∧
  isFlushPending (loader (flushJobs w)) = false ∧
  calls (flushJobs w) = calls w ∧
  uncaught (flushJobs w) = uncaught w ∧
  microtasks (flushJobs w) = microtasks w ∧
  promises (flushJobs w) = promises w ∧
  pendingFetches (flushJobs w) = pendingFetches w ∧
  data (loader (flushJobs w)) = data (loader w) ∧
  resolveArr (loader (flushJobs w)) = resolveArr (loader w) ∧
  rejectArr (loader (flushJobs w)) = rejectArr (loader w) ∧
  cachePromises (loader (flushJobs w)) = cachePromises (loader w).
Proof. intros Hd. by rewrite flushJobs_empty. Qed.

(** C9: in every reachable world at most one execution of [flushJobs] is
    scheduled, and one is scheduled exactly when [isFlushPending] is set.  A
    [load] that finds the flag clear sets it and schedules one flush; a
    [load] that finds it set schedules nothing. *)
Theorem C9_at_most_one_flush_scheduled w :
  reachable w →
  countFlush (microtasks w) ≤ 1 ∧
  countFlush (microtasks w) = (if isFlushPending (loader w) then 1 else 0) ∧
  ∀ k,
    (isFlushPending (loader w) = false →
       isFlushPending (loader (load k w).2) = true ∧
       microtasks (load k w).2 = microtasks w ++ [JobFlush]) ∧
    (isFlushPending (loader w) = true →
       isFlushPending (loader (load k w).2) = true ∧
       microtasks (load k w).2 = microtasks w).
Proof.
  intros Hreach. pose proof (reachable_invariant w Hreach) as Hinv.
  pose proof (inv_flush _ Hinv) as Hfl.
  split_and!; [destruct (isFlushPending (loader w)); lia|done|].
  intros k. destruct (cachePromises (loader w) !! k) as [p|] eqn:Hc.
  - destruct (cached_in_data _ _ _ Hinv Hc) as [_ Hflag].
    rewrite (load_cached _ _ _ Hc). split; [congruence|done].
  - rewrite (load_new _ _ Hc). simpl. split; intros ->; done.
Qed.

(** C10: every invocation of the loader function recorded in a reachable
    world received at least one key. *)
Theorem C10_loader_never_called_with_no_keys w :
  reachable w → Forall (λ c, callKeys c ≠ []) (calls w).
Proof.
  intros Hreach. pose proof (inv_calls _ (reachable_invariant w Hreach)) as Hc.
  eapply Forall_impl; [exact Hc|]. by intros c [? _].
Qed.

(** * Further properties of the class *)

(** ** Executions stay reachable *)

Lemma reachable_loadAll ks : ∀ w, reachable w → reachable (loadAll ks w).2.
Proof.
  induction ks as [|k ks IH]; intros w Hw; simpl; [done|].
  specialize (IH (load k w).2 (reachable_step (CallLoad k) w Hw)).
  destruct (load k w) as [p w1]. simpl in IH.
  by destruct (loadAll ks w1) as [ps w2].
Qed.

Lemma reachable_runMicrotasks w : reachable w → reachable (runMicrotasks w).
Proof.
  intros Hw. apply runMicrotasks_ind; [|done].
  intros w' Hw'. by apply (reachable_step RunMicrotask).
Qed.

Lemma reachable_settle c w : reachable w → reachable (settle c w).
Proof. apply (reachable_step (SettleFetch c)). Qed.

(** ** Which keys reach the loader function *)

Lemma tick_cases w :
  (loader (tick w) = loader w ∧ calls (tick w) = calls w) ∨
  (data (loader (tick w)) = [] ∧ calls (tick w) = calls w) ∨
  (data (loader (tick w)) = [] ∧
   calls (tick w) =
     calls w ++ [{| callKeys := data (loader w);
                    callSeen := newDataloader (loaderFn (loader w)) |}]).
Proof.
  unfold tick. destruct (microtasks w) as [|j q]; [by left|].
  destruct j as [|rets res rej|err rej|err rej]; simpl.
  - destruct (data (loader w)) as [|k ks] eqn:Hd.
    + right; left. rewrite flushJobs_empty by done. done.
    + right; right. rewrite <- Hd.
      rewrite flushJobs_nonempty by (simpl; by rewrite Hd).
      simpl. by destruct (loaderFn (loader w) _ _).
  - left. by destruct (forEachResolve _ _ _ _) as [h' [e|]].
  - by left.
  - by left.
Qed.

Lemma run_requested evs : ∀ w (S : list T),
  invariant w →
  (∀ k, k ∈ data (loader w) → k ∈ S) →
  Forall (λ c, NoDup (callKeys c) ∧ ∀ k, k ∈ callKeys c → k ∈ S) (calls w) →
  Forall (λ c, NoDup (callKeys c) ∧ ∀ k, k ∈ callKeys c → k ∈ S ++ loadedKeys evs)
    (calls (run evs w)).
Proof.
  induction evs as [|ev evs IH]; intros w S Hinv Hdata Hcalls; simpl.
  { by rewrite app_nil_r. }
  pose proof (invariant_step ev w Hinv) as Hinv'.
  destruct ev as [k| |c|q].
  - replace (S ++ k :: loadedKeys evs) with ((S ++ [k]) ++ loadedKeys evs)
      by by rewrite <- app_assoc.
    apply IH; [done| |].
    + simpl. intros k'.
      destruct (cachePromises (loader w) !! k) as [p|] eqn:Hc.
      * rewrite (load_cached _ _ _ Hc). intros Hin.
        apply elem_of_app. left. by apply Hdata.
      * rewrite (load_new _ _ Hc). simpl. rewrite !elem_of_app.
        intros [Hin|Hin]; [left; by apply Hdata|by right].
    + assert (calls (step (CallLoad k) w) = calls w) as ->.
      { simpl. destruct (cachePromises (loader w) !! k) as [p|] eqn:Hc.
        - by rewrite (load_cached _ _ _ Hc).
        - by rewrite (load_new _ _ Hc). }
      eapply Forall_impl; [exact Hcalls|]. simpl. intros c [? Hin].
      split; [done|]. set_solver.
  - apply IH; [done|..]; simpl in *.
    + destruct (tick_cases w) as [[-> _]|[[-> _]|[-> _]]];
        [done|set_solver..].
    + destruct (tick_cases w) as [[_ ->]|[[_ ->]|[_ ->]]]; try done.
      apply Forall_app. split; [done|]. apply Forall_singleton. simpl.
      split; [|done]. apply (coh_nodup _ _ (inv_loader _ Hinv)).
  - assert (loader (step (SettleFetch c) w) = loader w ∧
            calls (step (SettleFetch c) w) = calls w) as [Hl Hc].
    { simpl. unfold settle. destruct (pendingFetches w !! c) as [f|]; [|done].
      by destruct (settlement f) as [[]|]. }
    apply IH; [done|by rewrite Hl|by rewrite Hc].
  - by apply IH.
Qed.

(** X1: in every execution of a new instance, whatever the order of
    [load] calls, microtasks and settling loader promises, each invocation
    of the loader function receives a key list that is not empty, has no
    duplicates and holds only arguments of [load] calls of the execution.
    In particular the loader function is not called if [load] is not. *)
Theorem X1_loader_receives_only_requested_keys
    (fn : list (list T) → list T → @LoaderResult R Err) qm evs :
  Forall (λ c, callKeys c ≠ [] ∧ NoDup (callKeys c) ∧
               ∀ k, k ∈ callKeys c → k ∈ loadedKeys evs)
    (calls (run evs (init fn qm))) ∧
  (loadedKeys evs = [] → calls (run evs (init fn qm)) = []).
Proof.
  pose proof (run_requested evs (init fn qm) [] (invariant_init fn qm)) as Hreq.
  simpl in Hreq. specialize (Hreq ltac:(set_solver) ltac:(constructor)).
  pose proof (inv_calls _ (reachable_invariant _
                (reachable_run evs _ (reachable_init fn qm)))) as Hne.
  assert (Forall (λ c, callKeys c ≠ [] ∧ NoDup (callKeys c) ∧
                       ∀ k, k ∈ callKeys c → k ∈ loadedKeys evs)
            (calls (run evs (init fn qm)))) as Hall.
  { rewrite Forall_forall in Hreq, Hne. apply Forall_forall. intros c Hc.
    destruct (Hreq c Hc) as [? ?]. destruct (Hne c Hc) as [? _]. done. }
  split; [done|]. intros Hnone.
  destruct (calls (run evs (init fn qm))) as [|c cs]; [done|].
  apply Forall_cons in Hall as [(Hc & _ & Hin) _].
  destruct (callKeys c) as [|k ks]; [done|].
  specialize (Hin k ltac:(left)). rewrite Hnone in Hin.
  by apply elem_of_nil in Hin.
Qed.

(** ** Pending keys always have a flush scheduled *)

Lemma countFlush_pos (q : list (@Job R Err)) :
  0 < countFlush q ↔ JobFlush ∈ q.
Proof.
  induction q as [|j q IH]; simpl.
  - split; [lia|]. intros Hin. by apply elem_of_nil in Hin.
  - rewrite elem_of_cons, <- IH. destruct j; simpl; split; try lia;
      try (intros [?|?]; [done|lia]); auto with lia.
Qed.

(** X2: in every reachable world, [data] holds keys exactly when an
    execution of [flushJobs] is in the microtask queue, so no request is
    ever left without a flush to come; and when the microtask queue is
    empty the instance is back in the state the constructor gives it:
    nothing pending, nothing cached, no flag. *)
Theorem X2_pending_keys_have_a_flush_scheduled w :
  reachable w →
  (data (loader w) ≠ [] ↔ JobFlush ∈ microtasks w) ∧
  (microtasks w = [] → loader w = newDataloader (loaderFn (loader w))).
Proof.
  intros Hreach. pose proof (reachable_invariant w Hreach) as Hinv.
  pose proof (inv_flush _ Hinv) as Hfl.
  pose proof (inv_loader _ Hinv) as Hcoh.
  pose proof (coh_flag _ _ Hcoh) as Hflag.
  split.
  - rewrite <- countFlush_pos, Hfl, Hflag.
    destruct (data (loader w)); simpl; split; done || lia.
  - intros Hq. rewrite Hq in Hfl. simpl in Hfl.
    assert (isFlushPending (loader w) = false) as Hidle.
    { destruct (isFlushPending (loader w)); [lia|done]. }
    destruct (idle_empty w Hinv Hidle) as (Hd & Hr & Hj).
    assert (cachePromises (loader w) = ∅) as Hc.
    { apply map_empty. intros k.
      destruct (cachePromises (loader w) !! k) as [p|] eqn:E; [|done].
      apply (coh_cache _ _ Hcoh) in E as (i & Hi & _).
      by rewrite Hd in Hi. }
    destruct (loader w); simpl in *. by subst.
Qed.

(** ** [load] only records and schedules *)

Lemma step_awaiting ev w :
  invariant w →
  Forall (awaiting w) (resolveArr (loader w)) →
  Forall (awaiting (step ev w)) (resolveArr (loader (step ev w))).
Proof.
  intros Hinv Haw. destruct ev as [k| |c|q0]; simpl.
  - destruct (cachePromises (loader w) !! k) as [p0|] eqn:Hc.
    { by rewrite (load_cached _ _ _ Hc). }
    rewrite (load_new _ _ Hc). simpl.
    assert (Forall (λ j, length (promises w) ∉ jobRefs j) (microtasks w)) as Hnj.
    { pose proof (inv_jobs _ Hinv) as Hjobs.
      eapply Forall_impl; [exact Hjobs|]. simpl. intros j [Hb _] Hin.
      rewrite Forall_forall in Hb. specialize (Hb _ Hin). simpl in Hb. lia. }
    assert (map_Forall (λ _ f, length (promises w) ∉ fetchRefs f)
              (pendingFetches w)) as Hnf.
    { intros c f Hf Hin. destruct (inv_fetches _ Hinv _ _ Hf) as [_ [Hb _]].
      rewrite Forall_forall in Hb. specialize (Hb _ Hin). simpl in Hb. lia. }
    assert (∀ p, Forall (λ j, p ∉ jobRefs j) (microtasks w) →
              Forall (λ j, p ∉ jobRefs j)
                (if isFlushPending (loader w) then microtasks w
                 else microtasks w ++ [JobFlush])) as Hq.
    { intros p Hp. destruct (isFlushPending (loader w)); [done|].
      apply Forall_app. split; [done|]. apply Forall_singleton. simpl.
      apply not_elem_of_nil. }
    apply Forall_app. split.
    + eapply Forall_impl; [exact Haw|]. simpl. intros p (Hp & Hj & Hf).
      split_and!; simpl; [by apply lookup_app_l_Some|by apply Hq|done].
    + apply Forall_singleton. split_and!; simpl; [|by apply Hq|done].
      rewrite lookup_app_r by lia. by rewrite Nat.sub_diag.
  - unfold tick. destruct (microtasks w) as [|j q] eqn:Hq; [done|].
    assert (Forall (λ p, promises w !! p = Some Pending ∧ (p ∉ jobRefs j) ∧
                         Forall (λ j', p ∉ jobRefs j') q ∧
                         map_Forall (λ _ f, p ∉ fetchRefs f) (pendingFetches w))
              (resolveArr (loader w))) as Haw'.
    { eapply Forall_impl; [exact Haw|]. simpl. intros p (Hp & Hj & Hf).
      rewrite Hq in Hj. apply Forall_cons in Hj as [? ?]. done. }
    destruct j as [|rets res rej|err rej|err rej]; simpl.
    + destruct (data (loader w)) as [|k ks] eqn:Hd.
      * rewrite flushJobs_empty by done. simpl.
        eapply Forall_impl; [exact Haw'|]. simpl. by intros p (? & ? & ? & ?).
      * rewrite flushJobs_nonempty by (simpl; by rewrite Hd).
        by destruct (loaderFn _ _ _).
    + pose proof (λ p, forEachResolve_other rets p 0 res (promises w)) as Ho.
      destruct (forEachResolve _ _ _ _) as [h' [e|]]; simpl in *.
      * eapply Forall_impl; [exact Haw'|]. simpl.
        intros p (Hp & Hj & Hjs & Hf). rewrite elem_of_app in Hj.
        split_and!; simpl; [rewrite Ho; tauto| |done].
        apply Forall_app. split; [done|]. apply Forall_singleton. simpl. tauto.
      * eapply Forall_impl; [exact Haw'|]. simpl.
        intros p (Hp & Hj & Hjs & Hf). rewrite elem_of_app in Hj.
        split_and!; simpl; [rewrite Ho; tauto|done|done].
    + eapply Forall_impl; [exact Haw'|]. simpl.
      intros p (Hp & Hj & Hjs & Hf). split_and!; simpl; [done| |done].
      apply Forall_app. split; [done|]. by apply Forall_singleton.
    + eapply Forall_impl; [exact Haw'|]. simpl.
      intros p (Hp & Hj & Hjs & Hf). split_and!; simpl; [|done|done].
      by rewrite forEachReject_other.
  - unfold settle. destruct (pendingFetches w !! c) as [f|] eqn:Hc; [|done].
    assert (Forall (λ p, awaiting w p ∧ (p ∉ fetchRefs f))
              (resolveArr (loader w))) as Haw'.
    { eapply Forall_impl; [exact Haw|]. simpl. intros p Hp. split; [done|].
      destruct Hp as (_ & _ & Hf). by apply (Hf _ _ Hc). }
    destruct (settlement f) as [[rets|err]|]; [| |done]; simpl.
    + eapply Forall_impl; [exact Haw'|]. simpl.
      intros p [(Hp & Hj & Hf) Hn]. split_and!; simpl; [done| |].
      * apply Forall_app. split; [done|]. by apply Forall_singleton.
      * by apply map_Forall_delete.
    + eapply Forall_impl; [exact Haw'|]. simpl.
      intros p [(Hp & Hj & Hf) Hn]. unfold fetchRefs in Hn.
      rewrite elem_of_app in Hn. split_and!; simpl; [done| |].
      * apply Forall_app. split; [done|]. apply Forall_singleton. simpl. tauto.
      * by apply map_Forall_delete.
  - eapply Forall_impl; [exact Haw|]. simpl. intros p (Hp & Hj & Hf).
    split_and!; simpl; [by apply followThenable_pending|done|done].
Qed.

Lemma reachable_awaiting w :
  reachable w → Forall (awaiting w) (resolveArr (loader w)).
Proof.
  induction 1 as [fn qm|ev w Hw IH]; [constructor|].
  apply step_awaiting; [by apply reachable_invariant|done].
Qed.

(** X3: [load] only records and schedules.  In every reachable world the
    promise it returns, new or shared, is pending when [load] returns; the
    call invokes no loader function, raises nothing, and leaves every
    existing promise and every loader promise in flight as it was. *)
Theorem X3_load_returns_pending_and_calls_nothing w k :
  reachable w →
  promises (load k w).2 !! (load k w).1 = Some Pending ∧
  calls (load k w).2 = calls w ∧
  uncaught (load k w).2 = uncaught w ∧
  pendingFetches (load k w).2 = pendingFetches w ∧
  ∀ p st, promises w !! p = Some st → promises (load k w).2 !! p = Some st.
Proof.
  intros Hreach. pose proof (reachable_invariant w Hreach) as Hinv.
  pose proof (reachable_awaiting w Hreach) as Haw.
  destruct (cachePromises (loader w) !! k) as [p0|] eqn:Hc.
  - rewrite (load_cached _ _ _ Hc). simpl. split_and!; try done.
    apply (coh_cache _ _ (inv_loader _ Hinv)) in Hc as (i & _ & Hi).
    rewrite Forall_forall in Haw.
    by destruct (Haw p0 (list_elem_of_lookup_2 _ _ _ Hi)) as [? _].
  - rewrite (load_new _ _ Hc). simpl. split_and!; try done.
    + rewrite lookup_app_r by lia. by rewrite Nat.sub_diag.
    + intros p st Hp. by apply lookup_app_l_Some.
Qed.

(** ** Successive batches *)

Lemma length_loadAll ks : ∀ w, length (loadAll ks w).1 = length ks.
Proof.
  induction ks as [|k ks IH]; intros w; simpl; [done|].
  destruct (load k w) as [p w1]. specialize (IH w1).
  destruct (loadAll ks w1) as [ps w2]. simpl in *. by rewrite IH.
Qed.

Lemma loadAll_promises_lookup ks p st : ∀ w,
  promises w !! p = Some st → promises (loadAll ks w).2 !! p = Some st.
Proof.
  induction ks as [|k ks IH]; intros w Hp; simpl; [done|].
  pose proof (load_promises_lookup k w p st Hp) as Hp1.
  destruct (load k w) as [p1 w1]. specialize (IH w1 Hp1).
  by destruct (loadAll ks w1) as [ps w2].
Qed.

(** A settled promise is not touched by a further batch. *)
Lemma settled_through_batch ks c w p st :
  promises w !! p = Some st → st ≠ Pending →
  promises (runMicrotasks (settle c (runMicrotasks (loadAll ks w).2))) !! p
  = Some st.
Proof.
  intros Hp Hst. apply runMicrotasks_settled; [|done].
  rewrite settle_promises. apply runMicrotasks_settled; [|done].
  by apply loadAll_promises_lookup.
Qed.

(** Every promise returned in the segment has a key of the batch. *)
Lemma returned_has_key ks w p :
  p ∈ (loadAll ks w).1 →
  ∃ (i : nat) k, ks !! i = Some k ∧ (loadAll ks w).1 !! i = Some p.
Proof.
  intros Hin. apply list_elem_of_lookup in Hin as [i Hi].
  assert (is_Some (ks !! i)) as [k Hk].
  { apply lookup_lt_is_Some. rewrite <- (length_loadAll ks w).
    by eapply lookup_lt_Some. }
  eauto.
Qed.

(** The world a batch leaves is again reachable with no flush pending. *)
Lemma batch_leaves_idle w k0 ks0 :
  reachable w → isFlushPending (loader w) = false →
  let final := runMicrotasks (settle (length (calls w))
                 (runMicrotasks (loadAll (k0 :: ks0) w).2)) in
  reachable final ∧ isFlushPending (loader final) = false ∧
  loaderFn (loader final) = loaderFn (loader w).
Proof.
  intros Hreach Hflag final.
  pose proof (reachable_invariant w Hreach) as Hinv.
  destruct (batch_outcome w k0 ks0 Hinv Hflag)
    as (_ & _ & _ & _ & _ & Hl & _).
  fold final in Hl. rewrite Hl. split_and!; try done.
  by apply reachable_runMicrotasks, reachable_settle, reachable_runMicrotasks,
    reachable_loadAll.
Qed.

(** X4: batches are isolated.  Of two segments of [load] calls, the
    second issued after the first batch has been flushed and its loader
    promise has settled (if it ever does), each leads to an invocation of
    its own, with its own deduplicated keys, and every promise returned in
    the second segment is another one than every promise returned in the
    first, also for a key that occurs in both.  This holds whatever the
    loader function did with the first batch. *)
Theorem X4_successive_batches_are_isolated w k1 ks1 k2 ks2 :
  reachable w → isFlushPending (loader w) = false →
  let first := k1 :: ks1 in
  let second := k2 :: ks2 in
  let final1 := runMicrotasks (settle (length (calls w))
                  (runMicrotasks (loadAll first w).2)) in
  let final2 := runMicrotasks (settle (length (calls final1))
                  (runMicrotasks (loadAll second final1).2)) in
  callKeys <$> calls final2 =
    (callKeys <$> calls w) ++ [dedupFirstSeen first; dedupFirstSeen second] ∧
  ∀ p1 p2,
    p1 ∈ (loadAll first w).1 → p2 ∈ (loadAll second final1).1 → p1 < p2.
Proof.
  intros Hreach Hflag first second final1 final2.
  pose proof (reachable_invariant w Hreach) as Hinv.
  destruct (batch_leaves_idle w k1 ks1 Hreach Hflag) as (Hreach1 & Hflag1 & _).
  fold first final1 in Hreach1, Hflag1.
  pose proof (reachable_invariant final1 Hreach1) as Hinv1.
  destruct (batch_outcome w k1 ks1 Hinv Hflag)
    as (_ & Hc1 & _ & _ & _ & _ & Hlen1 & _).
  destruct (batch_outcome final1 k2 ks2 Hinv1 Hflag1)
    as (_ & Hc2 & _).
  destruct (batch_open w k1 ks1 Hinv Hflag)
    as (_ & _ & _ & _ & _ & _ & _ & _ & _ & _ & _ & Hret1).
  destruct (batch_open final1 k2 ks2 Hinv1 Hflag1)
    as (_ & _ & _ & _ & _ & _ & _ & _ & _ & _ & _ & Hret2).
  fold first final1 in Hc1, Hlen1, Hret1.
  fold second final2 in Hc2, Hret2.
  split.
  - rewrite Hc2, Hc1, !fmap_app, <- app_assoc. done.
  - intros p1 p2 Hp1 Hp2.
    destruct (returned_has_key _ _ _ Hp1) as (i1 & k & Hk & Hi1).
    destruct (returned_has_key _ _ _ Hp2) as (i2 & k' & Hk' & Hi2).
    destruct (Hret1 i1 k p1 Hk Hi1) as (a1 & Ha1 & ->).
    destruct (Hret2 i2 k' p2 Hk' Hi2) as (a2 & Ha2 & ->).
    apply lookup_lt_Some in Ha1. rewrite Hlen1. lia.
Qed.

(** X5: a batch is delivered according to its own loader result, however
    the batch before it ended: fulfilled, rejected, with an exception that
    escaped, never settled, or with a result of the wrong length or with
    holes.  If the loader function succeeds for the second batch with an
    array without holes that has as many entries as there are keys, every
    promise returned in the second segment is resolved with the entry at
    the position of its key (fulfilled with a plain value, following a
    thenable) and stays so; and where the loader promise of the first batch
    rejected, the promises of the first batch are still rejected with that
    reason.  So a failed batch does not affect the next one. *)
Theorem X5_next_batch_unaffected_by_previous_outcome
    w k1 ks1 k2 ks2 (items : list (@Item R Err)) :
  reachable w → isFlushPending (loader w) = false →
  let first := k1 :: ks1 in
  let second := k2 :: ks2 in
  let d1 := dedupFirstSeen first in
  let d2 := dedupFirstSeen second in
  let final1 := runMicrotasks (settle (length (calls w))
                  (runMicrotasks (loadAll first w).2)) in
  let final2 := runMicrotasks (settle (length (calls final1))
                  (runMicrotasks (loadAll second final1).2)) in
  succeedsWith
    (loaderFn (loader w) ((callKeys <$> calls w) ++ [d1]) d2) (dense items) →
  length items = length d2 →
  (∀ (i : nat) k p,
     second !! i = Some k → (loadAll second final1).1 !! i = Some p →
     ∃ a item, d2 !! a = Some k ∧ items !! a = Some item ∧
               ∀ evs, resolvedWith (promises (run evs final2)) p item) ∧
  (∀ err p,
     loaderFn (loader w) (callKeys <$> calls w) d1
       = ReturnsPromise (Some (RejectsWith err)) →
     p ∈ (loadAll first w).1 →
     promises final2 !! p = Some (Rejected err)).
Proof.
  intros Hreach Hflag first second d1 d2 final1 final2 Hsucc Hlen.
  pose proof (reachable_invariant w Hreach) as Hinv.
  destruct (batch_leaves_idle w k1 ks1 Hreach Hflag) as (Hreach1 & Hflag1 & Hfn).
  fold first final1 in Hreach1, Hflag1, Hfn.
  destruct (batch_outcome w k1 ks1 Hinv Hflag)
    as (_ & Hc1 & _ & _ & _ & _ & _ & Hout1).
  destruct (batch_open w k1 ks1 Hinv Hflag)
    as (_ & _ & _ & _ & _ & _ & _ & _ & _ & _ & _ & Hret1).
  fold first d1 final1 in Hc1, Hout1, Hret1.
  assert (callKeys <$> calls final1 = (callKeys <$> calls w) ++ [d1]) as Hhist.
  { by rewrite Hc1, fmap_app. }
  assert (succeedsWith
            (loaderFn (loader final1) (callKeys <$> calls final1) d2)
            (dense items)) as Hsucc2.
  { by rewrite Hfn, Hhist. }
  destruct (batch_delivered final1 k2 ks2 (dense items) Hreach1 Hflag1 Hsucc2)
    as (_ & Hdel).
  fold second d2 final2 in Hdel.
  split.
  - intros i k p Hk Hp. destruct (Hdel i k p Hk Hp) as (a & Ha & _ & Hat & _).
    assert (is_Some (items !! a)) as [item Hitem].
    { apply lookup_lt_is_Some. rewrite Hlen. by eapply lookup_lt_Some. }
    exists a, item. split_and!; try done.
    apply Hat. by rewrite dense_lookup, Hitem.
  - intros err p Hres Hp. rewrite Hres in Hout1. destruct Hout1 as (Hrej & _).
    destruct (returned_has_key _ _ _ Hp) as (i & k & Hk & Hi).
    destruct (Hret1 i k p Hk Hi) as (a & Ha & ->).
    apply settled_through_batch; [|done].
    apply Hrej. by eapply lookup_lt_Some.
Qed.

(** ** What callers of [load] get *)

(** X6: with a loader function that maps every key to its entry
    ([keys.map(f)], where [f k] is a plain value or a thenable such as the
    promise of a request for [k]), the promise returned by [load k] is
    resolved with [f k] and stays so: it is fulfilled with [f k], a plain
    value, or it follows [f k], a thenable, and holds the outcome of the
    thenable, fulfilled or rejected, for good once it has followed its
    settlement.  So one key may fail while the others of its batch
    succeed.  Calls that repeat a key share the promise and so the
    outcome. *)
Theorem X6_pointwise_loader_gives_each_key_its_value
    w k0 ks0 (f : T → @Item R Err) :
  reachable w → isFlushPending (loader w) = false →
  let ks := k0 :: ks0 in
  let d := dedupFirstSeen ks in
  let returned := (loadAll ks w).1 in
  let mid := runMicrotasks (loadAll ks w).2 in
  let final := runMicrotasks (settle (length (calls w)) mid) in
  succeedsWith (loaderFn (loader w) (callKeys <$> calls w) d)
    (dense (f <$> d)) →
  ∀ (i : nat) k p,
    ks !! i = Some k → returned !! i = Some p →
    (∀ evs, resolvedWith (promises (run evs final)) p (f k)) ∧
    (∀ evs evs',
       promises (run evs' (step (FollowThenable p) (run evs final))) !! p
       = Some (finalState (f k))) ∧
    (∀ (i' : nat) p',
       ks !! i' = Some k → returned !! i' = Some p' → p' = p).
Proof.
  intros Hreach Hflag ks d returned mid final Hsucc i k p Hk Hp.
  pose proof (reachable_invariant w Hreach) as Hinv.
  destruct (batch_open w k0 ks0 Hinv Hflag)
    as (_ & _ & _ & _ & _ & _ & _ & _ & _ & _ & _ & Hret).
  destruct (batch_delivered w k0 ks0 _ Hreach Hflag Hsucc) as (_ & Hdel).
  fold ks d mid final in Hret, Hdel. fold returned in Hret, Hdel.
  destruct (dedupFirstSeen_spec ks) as (Hnd & _ & _). fold d in Hnd.
  destruct (Hdel i k p Hk Hp) as (a & Ha & Hpa & Hat & _).
  destruct (Hat (f k)) as [_ Hlater].
  { by rewrite dense_lookup, list_lookup_fmap, Ha. }
  split_and!; [done| |].
  - intros evs evs'. destruct (Hlater evs) as (st & Hst & Hfol).
    by apply (follow_final _ _ _ st).
  - intros i' p' Hk' Hp'. destruct (Hret i' k p' Hk' Hp') as (a' & Ha' & ->).
    assert (a' = a) as -> by by eapply NoDup_lookup. done.
Qed.

(** X7: when the promise returned by the loader function rejects, every
    promise returned by a [load] call of the batch, shared ones included,
    is rejected with that very reason and stays so, and the rejection is
    handled: nothing is left uncaught. *)
Theorem X7_rejected_loader_promise_rejects_every_promise w k0 ks0 err :
  reachable w → isFlushPending (loader w) = false →
  let ks := k0 :: ks0 in
  let d := dedupFirstSeen ks in
  let returned := (loadAll ks w).1 in
  let mid := runMicrotasks (loadAll ks w).2 in
  let final := runMicrotasks (settle (length (calls w)) mid) in
  loaderFn (loader w) (callKeys <$> calls w) d
    = ReturnsPromise (Some (RejectsWith err)) →
  uncaught final = uncaught w ∧
  ∀ p evs, p ∈ returned →
    promises (run evs final) !! p = Some (Rejected err).
Proof.
  intros Hreach Hflag ks d returned mid final Hres.
  pose proof (reachable_invariant w Hreach) as Hinv.
  destruct (batch_open w k0 ks0 Hinv Hflag)
    as (_ & _ & _ & _ & _ & _ & _ & _ & _ & _ & _ & Hret).
  destruct (batch_outcome w k0 ks0 Hinv Hflag)
    as (_ & _ & _ & _ & _ & _ & _ & Hout).
  fold ks d mid final in Hret, Hout. fold returned in Hret.
  rewrite Hres in Hout. destruct Hout as (Hrej & Hunc & _).
  split; [done|]. intros p evs Hp.
  destruct (returned_has_key _ _ _ Hp) as (i & k & Hk & Hi).
  destruct (Hret i k p Hk Hi) as (a & Ha & ->).
  apply run_settled; [|done]. apply Hrej. by eapply lookup_lt_Some.
Qed.

Lemma dedupFirstSeen_NoDup (ks : list T) : NoDup ks → dedupFirstSeen ks = ks.
Proof.
  induction ks as [|k ks IH] using rev_ind; intros Hnd; [done|].
  apply NoDup_app in Hnd as (Hnd & Hdisj & _).
  rewrite dedupFirstSeen_snoc, IH by done. unfold pushNew.
  rewrite decide_False; [done|]. intros Hin. apply (Hdisj k Hin). by left.
Qed.

(** X8: a segment of [load] calls on pairwise different keys: the loader
    function receives exactly the arguments of the calls, in call order,
    and the calls return that many new promises, one after the other in the
    store, so pairwise different ones. *)
Theorem X8_distinct_keys_pass_unchanged w k0 ks0 :
  reachable w → isFlushPending (loader w) = false →
  let ks := k0 :: ks0 in
  NoDup ks →
  (loadAll ks w).1 = seq (length (promises w)) (length ks) ∧
  data (loader (loadAll ks w).2) = ks ∧
  callKeys <$> calls (runMicrotasks (loadAll ks w).2)
    = (callKeys <$> calls w) ++ [ks].
Proof.
  intros Hreach Hflag ks Hnd.
  pose proof (reachable_invariant w Hreach) as Hinv.
  destruct (batch_open w k0 ks0 Hinv Hflag)
    as (_ & Hd & _ & _ & _ & _ & _ & _ & _ & _ & _ & Hret).
  destruct (batch_outcome w k0 ks0 Hinv Hflag) as (Hc & _).
  fold ks in Hd, Hret, Hc. rewrite (dedupFirstSeen_NoDup ks Hnd) in Hd, Hret, Hc.
  split_and!; [|done|by rewrite Hc, fmap_app].
  apply list_eq. intros i.
  pose proof (length_loadAll ks w) as Hlen.
  destruct (decide (i < length ks)) as [Hlt|Hge].
  - destruct (lookup_lt_is_Some_2 ks i Hlt) as [k Hk].
    destruct (lookup_lt_is_Some_2 (loadAll ks w).1 i) as [p Hp]; [lia|].
    destruct (Hret i k p Hk Hp) as (a & Ha & ->).
    assert (a = i) as -> by by eapply NoDup_lookup.
    by rewrite Hp, lookup_seq_lt.
  - rewrite lookup_seq_ge by lia. apply lookup_ge_None. lia.
Qed.

(** ** Batches in flight at the same time *)

Lemma quiet_idle w :
  invariant w → microtasks w = [] → isFlushPending (loader w) = false.
Proof.
  intros Hinv Hq. pose proof (inv_flush _ Hinv) as Hfl. rewrite Hq in Hfl.
  simpl in Hfl. destruct (isFlushPending (loader w)); [lia|done].
Qed.

(** A segment on a quiet world whose loader function returns a promise:
    after the microtasks, the batch is in flight. *)
Lemma quiet_batch_in_flight w k0 ks0 s :
  invariant w → microtasks w = [] →
  let ks := k0 :: ks0 in
  let d := dedupFirstSeen ks in
  let refs := seq (length (promises w)) (length d) in
  let mid := runMicrotasks (loadAll ks w).2 in
  loaderFn (loader w) (callKeys <$> calls w) d = ReturnsPromise s →
  loader mid = newDataloader (loaderFn (loader w)) ∧
  promises mid = promises w ++ replicate (length d) Pending ∧
  microtasks mid = [] ∧
  pendingFetches mid =
    <[length (calls w) := {| settlement := s; fetchResolvers := refs;
                             fetchRejectors := refs |}]> (pendingFetches w) ∧
  calls mid = calls w ++ [{| callKeys := d;
                             callSeen := newDataloader (loaderFn (loader w)) |}] ∧
  uncaught mid = uncaught w.
Proof.
  intros Hinv Hquiet ks d refs mid Hres.
  pose proof (quiet_idle w Hinv Hquiet) as Hflag.
  destruct (batch_open w k0 ks0 Hinv Hflag)
    as (_ & Hd & Hne & Hr & Hj & Hp & Hq & Hf & Hcs & Hu & Hfn & _).
  fold ks d in Hd, Hne, Hr, Hj, Hp, Hq, Hf, Hcs, Hu, Hfn.
  rewrite Hquiet in Hq.
  assert (mid = set_pendingFetches
            (<[length (calls w) := {| settlement := s; fetchResolvers := refs;
                                      fetchRejectors := refs |}]> (pendingFetches w))
            (afterInvoke (set_microtasks [] (loadAll ks w).2))) as ->.
  { unfold mid. rewrite <- runMicrotasks_tick. unfold tick. rewrite Hq.
    cbn [app runJob].
    rewrite flushJobs_nonempty
      by (change (data (loader (loadAll ks w).2) ≠ []); by rewrite Hd).
    change (loader (set_microtasks [] ?x)) with (loader x).
    change (calls (set_microtasks [] ?x)) with (calls x).
    change (pendingFetches (set_microtasks [] ?x)) with (pendingFetches x).
    rewrite Hd, Hr, Hj, Hfn, Hcs, Hf, Hres.
    by apply runMicrotasks_nil. }
  unfold afterInvoke. cbn [loader promises microtasks pendingFetches calls
    uncaught set_pendingFetches set_calls set_loader set_microtasks].
  by rewrite Hd, Hfn, Hcs, Hp, Hu.
Qed.

(** On a quiet world, a loader promise fulfilled with no more results than
    there are callbacks: the fulfilment callback runs and that is all. *)
Lemma quiet_settle_fulfils V c rets (refs : list nat) :
  microtasks V = [] →
  pendingFetches V !! c = Some {| settlement := Some (Fulfils rets);
                                  fetchResolvers := refs;
                                  fetchRejectors := refs |} →
  length rets ≤ length refs →
  let V' := runMicrotasks (settle c V) in
  promises V' = (forEachResolve rets 0 refs (promises V)).1 ∧
  microtasks V' = [] ∧
  pendingFetches V' = delete c (pendingFetches V) ∧
  loader V' = loader V ∧ calls V' = calls V ∧ uncaught V' = uncaught V.
Proof.
  intros Hq Hf Hlen V'.
  pose proof (forEachResolve_thrown rets 0 refs (promises V)) as Hthr.
  rewrite decide_False in Hthr by (apply not_overflows; lia).
  assert (V' = set_promises (forEachResolve rets 0 refs (promises V)).1
                 (set_pendingFetches (delete c (pendingFetches V)) V)) as ->.
  { unfold V', settle. rewrite Hf. simpl.
    rewrite <- runMicrotasks_tick. unfold tick. simpl. rewrite Hq. simpl.
    destruct (forEachResolve rets 0 refs (promises V)) as [h thrown].
    simpl in Hthr. subst thrown. simpl.
    rewrite runMicrotasks_nil by done.
    destruct V; simpl in *. by subst. }
  done.
Qed.

(** Two batches in flight on a quiet world: the first segment is flushed
    and its loader promise stays pending, then the second.  Each batch has
    its own callbacks, on its own pending promises, in its own loader
    promise in flight. *)
Lemma two_batches_in_flight w k1 ks1 k2 ks2 rets1 rets2 :
  reachable w → microtasks w = [] →
  let first := k1 :: ks1 in
  let second := k2 :: ks2 in
  let d1 := dedupFirstSeen first in
  let d2 := dedupFirstSeen second in
  let n0 := length (promises w) in
  let refs1 := seq n0 (length d1) in
  let refs2 := seq (n0 + length d1) (length d2) in
  let m1 := runMicrotasks (loadAll first w).2 in
  let m2 := runMicrotasks (loadAll second m1).2 in
  loaderFn (loader w) (callKeys <$> calls w) d1
    = ReturnsPromise (Some (Fulfils rets1)) →
  loaderFn (loader w) ((callKeys <$> calls w) ++ [d1]) d2
    = ReturnsPromise (Some (Fulfils rets2)) →
  microtasks m2 = [] ∧
  callKeys <$> calls m2 = (callKeys <$> calls w) ++ [d1; d2] ∧
  pendingFetches m2 !! length (calls w)
    = Some {| settlement := Some (Fulfils rets1); fetchResolvers := refs1;
              fetchRejectors := refs1 |} ∧
  pendingFetches m2 !! S (length (calls w))
    = Some {| settlement := Some (Fulfils rets2); fetchResolvers := refs2;
              fetchRejectors := refs2 |} ∧
  (∀ a, a < length d1 → promises m2 !! (n0 + a) = Some Pending) ∧
  (∀ a, a < length d2 →
     promises m2 !! (n0 + length d1 + a) = Some Pending) ∧
  (∀ (i : nat) k p,
     first !! i = Some k → (loadAll first w).1 !! i = Some p →
     ∃ a, d1 !! a = Some k ∧ p = n0 + a) ∧
  (∀ (i : nat) k p,
     second !! i = Some k → (loadAll second m1).1 !! i = Some p →
     ∃ a, d2 !! a = Some k ∧ p = n0 + length d1 + a).
Proof.
  intros Hreach Hquiet first second d1 d2 n0 refs1 refs2 m1 m2 Hres1 Hres2.
  pose proof (reachable_invariant w Hreach) as Hinv.
  pose proof (quiet_idle w Hinv Hquiet) as Hflag.
  destruct (quiet_batch_in_flight w k1 ks1 _ Hinv Hquiet Hres1)
    as (Hl1 & Hp1 & Hq1 & Hf1 & Hc1 & Hu1).
  fold first d1 m1 in Hl1, Hp1, Hq1, Hf1, Hc1, Hu1.
  assert (invariant m1) as Hinv1.
  { by apply invariant_runMicrotasks, invariant_loadAll. }
  pose proof (quiet_idle m1 Hinv1 Hq1) as Hflag1.
  assert (loaderFn (loader m1) = loaderFn (loader w)) as Hfn1 by by rewrite Hl1.
  assert (callKeys <$> calls m1 = (callKeys <$> calls w) ++ [d1]) as Hhist1.
  { by rewrite Hc1, fmap_app. }
  assert (length (calls m1) = S (length (calls w))) as Hcl1.
  { rewrite Hc1, length_app. simpl. lia. }
  assert (length (promises m1) = n0 + length d1) as Hpl1.
  { by rewrite Hp1, length_app, length_replicate. }
  assert (loaderFn (loader m1) (callKeys <$> calls m1) d2
          = ReturnsPromise (Some (Fulfils rets2))) as Hres2'.
  { by rewrite Hfn1, Hhist1. }
  destruct (quiet_batch_in_flight m1 k2 ks2 _ Hinv1 Hq1 Hres2')
    as (Hl2 & Hp2 & Hq2 & Hf2 & Hc2 & Hu2).
  fold second d2 m2 in Hl2, Hp2, Hq2, Hf2, Hc2, Hu2.
  rewrite Hcl1, Hpl1, Hf1 in Hf2. fold refs1 refs2 in Hf2.
  destruct (batch_open w k1 ks1 Hinv Hflag)
    as (_ & _ & _ & _ & _ & _ & _ & _ & _ & _ & _ & Hret1).
  destruct (batch_open m1 k2 ks2 Hinv1 Hflag1)
    as (_ & _ & _ & _ & _ & _ & _ & _ & _ & _ & _ & Hret2).
  fold first d1 n0 in Hret1. fold second d2 in Hret2. rewrite Hpl1 in Hret2.
  split_and!; try done.
  - rewrite Hc2, Hc1, !fmap_app, <- app_assoc. done.
  - rewrite Hf2, lookup_insert_ne by lia. apply lookup_insert_eq.
  - rewrite Hf2. apply lookup_insert_eq.
  - intros a Ha. rewrite Hp2, Hp1.
    rewrite lookup_app_l by (rewrite length_app, length_replicate; fold n0; lia).
    rewrite lookup_app_r by (fold n0; lia).
    apply lookup_replicate. split; [done|]. fold n0. lia.
  - intros a Ha. rewrite Hp2.
    rewrite lookup_app_r by (rewrite Hpl1; lia).
    apply lookup_replicate. split; [done|]. rewrite Hpl1. lia.
Qed.

(** X9: two batches in flight at the same time do not mix, and they
    complete in either order.  On a reachable world with no microtask
    queued, a first segment is flushed and its loader promise stays pending;
    a second segment is issued and flushed; both loader promises are
    fulfilled with arrays without holes, as long as their key lists.  The
    loader function was called once per segment.  When the loader promise
    of the second batch is fulfilled first ([e1]), the promises of the
    second batch are resolved while those of the first are still pending;
    when that of the first batch is fulfilled first ([f1]), it is the other
    way round.  When both are fulfilled, in the one order ([e2]) or the
    other ([f2]), every promise of either batch is resolved with the entry
    at the position of its key in its own batch, and the store of promises
    is the same in both orders. *)
Theorem X9_batches_in_flight_complete_in_any_order
    w k1 ks1 k2 ks2 (items1 items2 : list (@Item R Err)) :
  reachable w → microtasks w = [] →
  let first := k1 :: ks1 in
  let second := k2 :: ks2 in
  let d1 := dedupFirstSeen first in
  let d2 := dedupFirstSeen second in
  let m1 := runMicrotasks (loadAll first w).2 in
  let m2 := runMicrotasks (loadAll second m1).2 in
  let e1 := runMicrotasks (settle (S (length (calls w))) m2) in
  let e2 := runMicrotasks (settle (length (calls w)) e1) in
  let f1 := runMicrotasks (settle (length (calls w)) m2) in
  let f2 := runMicrotasks (settle (S (length (calls w))) f1) in
  loaderFn (loader w) (callKeys <$> calls w) d1
    = ReturnsPromise (Some (Fulfils (dense items1))) →
  loaderFn (loader w) ((callKeys <$> calls w) ++ [d1]) d2
    = ReturnsPromise (Some (Fulfils (dense items2))) →
  length items1 = length d1 → length items2 = length d2 →
  callKeys <$> calls e2 = (callKeys <$> calls w) ++ [d1; d2] ∧
  callKeys <$> calls f2 = (callKeys <$> calls w) ++ [d1; d2] ∧
  promises e2 = promises f2 ∧
  (∀ (i : nat) k p,
     first !! i = Some k → (loadAll first w).1 !! i = Some p →
     ∃ a item, d1 !! a = Some k ∧ items1 !! a = Some item ∧
               promises e1 !! p = Some Pending ∧
               resolvedWith (promises f1) p item ∧
               resolvedWith (promises e2) p item ∧
               resolvedWith (promises f2) p item) ∧
  (∀ (i : nat) k p,
     second !! i = Some k → (loadAll second m1).1 !! i = Some p →
     ∃ a item, d2 !! a = Some k ∧ items2 !! a = Some item ∧
               resolvedWith (promises e1) p item ∧
               promises f1 !! p = Some Pending ∧
               resolvedWith (promises e2) p item ∧
               resolvedWith (promises f2) p item).
Proof.
  intros Hreach Hquiet first second d1 d2 m1 m2 e1 e2 f1 f2
    Hres1 Hres2 Hlen1 Hlen2.
  destruct (two_batches_in_flight w k1 ks1 k2 ks2 _ _ Hreach Hquiet Hres1 Hres2)
    as (Hq2 & Hc2 & Hfa & Hfb & Hpend1 & Hpend2 & Hret1 & Hret2).
  fold first second d1 d2 m1 m2 in Hq2, Hc2, Hfa, Hfb, Hpend1, Hpend2,
    Hret1, Hret2.
  set (n0 := length (promises w)) in *.
  set (refs1 := seq n0 (length d1)) in *.
  set (refs2 := seq (n0 + length d1) (length d2)) in *.
  assert (length (dense items1) ≤ length refs1) as Hfit1.
  { unfold refs1. rewrite length_dense, length_seq. lia. }
  assert (length (dense items2) ≤ length refs2) as Hfit2.
  { unfold refs2. rewrite length_dense, length_seq. lia. }
  assert (∀ p, p ∈ refs1 → p ∉ refs2) as Hdisj.
  { intros p. unfold refs1, refs2. rewrite !elem_of_seq. lia. }
  (* the second batch completes, then the first *)
  destruct (quiet_settle_fulfils m2 (S (length (calls w))) _ refs2 Hq2 Hfb Hfit2)
    as (Hpe1 & Hqe1 & Hfe1 & Hle1 & Hce1 & Hue1).
  fold e1 in Hpe1, Hqe1, Hfe1, Hle1, Hce1, Hue1.
  destruct (quiet_settle_fulfils e1 (length (calls w)) (dense items1) refs1 Hqe1)
    as (Hpe2 & Hqe2 & Hfe2 & Hle2 & Hce2 & Hue2); [|done|].
  { rewrite Hfe1, lookup_delete_ne by lia. done. }
  fold e2 in Hpe2, Hqe2, Hfe2, Hle2, Hce2, Hue2.
  (* the first batch completes, then the second *)
  destruct (quiet_settle_fulfils m2 (length (calls w)) _ refs1 Hq2 Hfa Hfit1)
    as (Hpf1 & Hqf1 & Hff1 & Hlf1 & Hcf1 & Huf1).
  fold f1 in Hpf1, Hqf1, Hff1, Hlf1, Hcf1, Huf1.
  destruct (quiet_settle_fulfils f1 (S (length (calls w))) (dense items2) refs2
              Hqf1) as (Hpf2 & Hqf2 & Hff2 & Hlf2 & Hcf2 & Huf2); [|done|].
  { rewrite Hff1, lookup_delete_ne by lia. done. }
  fold f2 in Hpf2, Hqf2, Hff2, Hlf2, Hcf2, Huf2.
  assert (∀ a item, a < length d1 → items1 !! a = Some item → ∀ h,
            h !! (n0 + a) = Some Pending →
            (forEachResolve (dense items1) 0 refs1 h).1 !! (n0 + a)
            = Some (resolvedState item)) as Hat1.
  { intros a item Ha Hitem h Hh.
    apply (forEachResolve_at (dense items1) 0 refs1 _ a).
    - apply NoDup_seq.
    - by apply lookup_seq_lt.
    - lia.
    - by rewrite Nat.sub_0_r, dense_lookup, Hitem.
    - done. }
  assert (∀ a item, a < length d2 → items2 !! a = Some item → ∀ h,
            h !! (n0 + length d1 + a) = Some Pending →
            (forEachResolve (dense items2) 0 refs2 h).1 !! (n0 + length d1 + a)
            = Some (resolvedState item)) as Hat2.
  { intros a item Ha Hitem h Hh.
    apply (forEachResolve_at (dense items2) 0 refs2 _ a).
    - apply NoDup_seq.
    - by apply lookup_seq_lt.
    - lia.
    - by rewrite Nat.sub_0_r, dense_lookup, Hitem.
    - done. }
  assert (∀ a h, a < length d1 →
            (forEachResolve (dense items2) 0 refs2 h).1 !! (n0 + a)
            = h !! (n0 + a)) as Hother1.
  { intros a h Ha. apply forEachResolve_other.
    unfold refs2. rewrite elem_of_seq. lia. }
  assert (∀ a h, a < length d2 →
            (forEachResolve (dense items1) 0 refs1 h).1 !! (n0 + length d1 + a)
            = h !! (n0 + length d1 + a)) as Hother2.
  { intros a h Ha. apply forEachResolve_other.
    unfold refs1. rewrite elem_of_seq. lia. }
  assert (∀ a item, a < length d1 → items1 !! a = Some item →
            promises e1 !! (n0 + a) = Some Pending ∧
            promises f1 !! (n0 + a) = Some (resolvedState item) ∧
            promises e2 !! (n0 + a) = Some (resolvedState item) ∧
            promises f2 !! (n0 + a) = Some (resolvedState item)) as Hfirst.
  { intros a item Ha Hitem.
    assert (promises e1 !! (n0 + a) = Some Pending) as He1.
    { rewrite Hpe1, Hother1 by done. by apply Hpend1. }
    assert (promises f1 !! (n0 + a) = Some (resolvedState item)) as Hf1.
    { rewrite Hpf1. apply Hat1; [done..|]. by apply Hpend1. }
    split_and!; try done.
    - rewrite Hpe2. by apply Hat1.
    - rewrite Hpf2, Hother1 by done. done. }
  assert (∀ a item, a < length d2 → items2 !! a = Some item →
            promises e1 !! (n0 + length d1 + a) = Some (resolvedState item) ∧
            promises f1 !! (n0 + length d1 + a) = Some Pending ∧
            promises e2 !! (n0 + length d1 + a) = Some (resolvedState item) ∧
            promises f2 !! (n0 + length d1 + a) = Some (resolvedState item))
    as Hsecond.
  { intros a item Ha Hitem.
    assert (promises f1 !! (n0 + length d1 + a) = Some Pending) as Hf1.
    { rewrite Hpf1, Hother2 by done. by apply Hpend2. }
    assert (promises e1 !! (n0 + length d1 + a) = Some (resolvedState item))
      as He1.
    { rewrite Hpe1. apply Hat2; [done..|]. by apply Hpend2. }
    split_and!; try done.
    - rewrite Hpe2, Hother2 by done. done.
    - rewrite Hpf2. by apply Hat2. }
  split_and!.
  - by rewrite Hce2, Hce1.
  - by rewrite Hcf2, Hcf1.
  - (* a promise is one of the first batch, one of the second, or of neither *)
    apply list_eq. intros p. rewrite Hpe2, Hpf2, Hpe1, Hpf1.
    destruct (decide (p ∈ refs1)) as [Hin1|Hout1].
    + apply elem_of_seq in Hin1.
      assert (∃ a, p = n0 + a ∧ a < length d1) as (a & -> & Ha)
        by (exists (p - n0); lia).
      destruct (lookup_lt_is_Some_2 items1 a) as [item Hitem]; [lia|].
      destruct (Hfirst a item Ha Hitem) as (_ & _ & He2 & Hf2).
      rewrite Hpe2, Hpe1 in He2. rewrite Hpf2, Hpf1 in Hf2. congruence.
    + destruct (decide (p ∈ refs2)) as [Hin2|Hout2].
      * apply elem_of_seq in Hin2.
        assert (∃ a, p = n0 + length d1 + a ∧ a < length d2) as (a & -> & Ha)
          by (exists (p - (n0 + length d1)); lia).
        destruct (lookup_lt_is_Some_2 items2 a) as [item Hitem]; [lia|].
        destruct (Hsecond a item Ha Hitem) as (_ & _ & He2 & Hf2).
        rewrite Hpe2, Hpe1 in He2. rewrite Hpf2, Hpf1 in Hf2. congruence.
      * by rewrite !forEachResolve_other by done.
  - intros i k p Hk Hp. destruct (Hret1 i k p Hk Hp) as (a & Ha & ->).
    assert (a < length d1) as Hlt by by eapply lookup_lt_Some.
    destruct (lookup_lt_is_Some_2 items1 a) as [item Hitem]; [lia|].
    exists a, item. destruct (Hfirst a item Hlt Hitem) as (? & ? & ? & ?).
    split_and!; auto using resolvedWith_resolvedState.
  - intros i k p Hk Hp. destruct (Hret2 i k p Hk Hp) as (a & Ha & ->).
    assert (a < length d2) as Hlt by by eapply lookup_lt_Some.
    destruct (lookup_lt_is_Some_2 items2 a) as [item Hitem]; [lia|].
    exists a, item. destruct (Hsecond a item Hlt Hitem) as (? & ? & ? & ?).
    split_and!; auto using resolvedWith_resolvedState.
Qed.

(** ** A loader promise that never settles *)

Lemma load_inert k w p :
  p < length (promises w) → inert w p →
  inert (load k w).2 p ∧ promises (load k w).2 !! p = promises w !! p.
Proof.
  intros Hp (Hres & Hrej & Hjobs & Hfetch).
  destruct (cachePromises (loader w) !! k) as [p'|] eqn:Hc.
  { rewrite (load_cached _ _ _ Hc). by repeat split. }
  rewrite (load_new _ _ Hc). simpl. split; [|by apply lookup_app_l].
  repeat split; simpl; try done.
  - rewrite elem_of_app, list_elem_of_singleton. intros [?|?]; [done|lia].
  - rewrite elem_of_app, list_elem_of_singleton. intros [?|?]; [done|lia].
  - destruct (isFlushPending (loader w)); [done|].
    apply Forall_app. split; [done|]. apply Forall_singleton. simpl.
    apply not_elem_of_nil.
Qed.

Lemma tick_inert w p :
  inert w p → inert (tick w) p ∧ promises (tick w) !! p = promises w !! p.
Proof.
  intros (Hres & Hrej & Hjobs & Hfetch). unfold tick.
  destruct (microtasks w) as [|j q] eqn:Hq; [by rewrite <- Hq in Hjobs|].
  apply Forall_cons in Hjobs as [Hj Hjobs].
  destruct j as [|rets res rej|err rej|err rej]; simpl in *.
  - split; [|by rewrite flushJobs_promises].
    destruct (data (loader w)) as [|k ks] eqn:Hd.
    { rewrite flushJobs_empty by done. by repeat split. }
    rewrite flushJobs_nonempty by (simpl; by rewrite Hd).
    assert (p ∉ resolveArr (loader w) ++ rejectArr (loader w)) as Hboth.
    { rewrite elem_of_app. tauto. }
    destruct (loaderFn _ _ _) as [rets|err|s]; repeat split; simpl;
      try apply not_elem_of_nil; try done.
    + apply Forall_app. split; [done|]. by apply Forall_singleton.
    + apply map_Forall_insert_2; [|done]. by intros Hin.
  - rewrite elem_of_app in Hj.
    pose proof (forEachResolve_other rets p 0 res (promises w)) as Ho.
    destruct (forEachResolve _ _ _ _) as [h' [e|]]; simpl in *.
    + split; [|tauto]. repeat split; simpl; try done.
      apply Forall_app. split; [done|]. apply Forall_singleton. simpl. tauto.
    + split; [|tauto]. by repeat split.
  - split; [|done]. repeat split; simpl; try done.
    apply Forall_app. split; [done|]. by apply Forall_singleton.
  - split; [by repeat split|]. by apply forEachReject_other.
Qed.

Lemma settle_inert c w p : inert w p → inert (settle c w) p.
Proof.
  intros (Hres & Hrej & Hjobs & Hfetch). unfold settle.
  destruct (pendingFetches w !! c) as [f|] eqn:Hc; [|by repeat split].
  pose proof (Hfetch _ _ Hc) as Hf. simpl in Hf.
  destruct (settlement f) as [[rets|err]|] eqn:Hs; [| |by repeat split].
  - assert (p ∉ fetchRefs f) as Hn by (intros Hin; by specialize (Hf Hin)).
    repeat split; simpl; try done; [|by apply map_Forall_delete].
    apply Forall_app. split; [done|]. by apply Forall_singleton.
  - assert (p ∉ fetchRefs f) as Hn by (intros Hin; by specialize (Hf Hin)).
    unfold fetchRefs in Hn. rewrite elem_of_app in Hn.
    repeat split; simpl; try done; [|by apply map_Forall_delete].
    apply Forall_app. split; [done|]. apply Forall_singleton. simpl. tauto.
Qed.

Lemma run_inert evs p : ∀ w,
  promises w !! p = Some Pending → inert w p →
  promises (run evs w) !! p = Some Pending.
Proof.
  induction evs as [|ev evs IH]; intros w Hp Hin; simpl; [done|].
  pose proof (lookup_lt_Some _ _ _ Hp) as Hlt.
  assert (inert (step ev w) p ∧ promises (step ev w) !! p = Some Pending)
    as [Hin' Heq].
  { destruct ev; simpl.
    - rewrite <- Hp. by apply load_inert.
    - rewrite <- Hp. by apply tick_inert.
    - split; [by apply settle_inert|by rewrite settle_promises].
    - split; [by destruct Hin as (? & ? & ? & ?)|].
      by apply followThenable_pending. }
  by apply IH.
Qed.

(** X10: the class sets no time limit.  When the loader function returns
    a promise that never settles, every promise returned by a [load] call of
    that batch stays pending whatever happens later, while the instance
    itself is ready for further batches. *)
Theorem X10_unsettled_loader_promise_keeps_batch_pending w k0 ks0 :
  reachable w → isFlushPending (loader w) = false →
  let ks := k0 :: ks0 in
  let d := dedupFirstSeen ks in
  let returned := (loadAll ks w).1 in
  let mid := runMicrotasks (loadAll ks w).2 in
  loaderFn (loader w) (callKeys <$> calls w) d = ReturnsPromise None →
  loader mid = newDataloader (loaderFn (loader w)) ∧
  microtasks mid = [] ∧
  ∀ p evs, p ∈ returned → promises (run evs mid) !! p = Some Pending.
Proof.
  intros Hreach Hflag ks d returned mid Hres.
  pose proof (reachable_invariant w Hreach) as Hinv.
  destruct (batch_open w k0 ks0 Hinv Hflag)
    as (_ & _ & _ & _ & _ & _ & _ & _ & _ & _ & _ & Hret).
  destruct (batch_flush w k0 ks0 Hinv Hflag)
    as (A & Hrun & HlA & HlenA & HpA & HsA & HfA & HcA & HuA).
  fold ks d mid in Hret, Hrun, HlenA, HpA. fold returned in Hret.
  rewrite Hres in Hrun.
  match type of Hrun with _ = runMicrotasks ?V =>
    destruct (runMicrotasks_sideJobs (length (promises w)) V HsA)
      as (h2 & Hshape & Hlen & Hframe)
  end.
  rewrite <- Hrun in Hshape. simpl in Hlen, Hframe.
  assert (loader mid = loader A ∧ microtasks mid = [] ∧ promises mid = h2 ∧
          pendingFetches mid =
            <[length (calls w) :=
                {| settlement := None;
                   fetchResolvers := seq (length (promises w)) (length d);
                   fetchRejectors := seq (length (promises w)) (length d) |}]>
              (pendingFetches w)) as (Hl & Hq & Hp & Hf).
  { by rewrite Hshape. }
  rewrite Hl, HlA. split_and!; try done.
  intros p evs Hin.
  destruct (returned_has_key _ _ _ Hin) as (i & k & Hk & Hi).
  destruct (Hret i k p Hk Hi) as (a & Ha & ->).
  apply lookup_lt_Some in Ha.
  apply run_inert.
  - rewrite Hp, Hframe by lia. by apply HpA.
  - unfold inert. rewrite Hl, HlA, Hq, Hf. simpl.
    split_and!; try apply not_elem_of_nil; [constructor|].
    apply map_Forall_insert_2; [done|].
    intros c f Hc Hin'. destruct (inv_fetches _ Hinv _ _ Hc) as [_ [Hb _]].
    rewrite Forall_forall in Hb. specialize (Hb _ Hin'). simpl in Hb. lia.
Qed.

(** ** A microtask checkpoint in any reachable world *)

Lemma countFlush_one_split (q : list (@Job R Err)) :
  countFlush q = 1 →
  ∃ q1 q2, q = q1 ++ JobFlush :: q2 ∧ countFlush q1 = 0.
Proof.
  induction q as [|j q IH]; simpl; intros Hq; [lia|].
  destruct (isFlush j) eqn:Hj.
  - exists [], q. by destruct j.
  - destruct (IH ltac:(lia)) as (q1 & q2 & -> & H1).
    exists (j :: q1), q2. simpl. rewrite Hj. split; [done|lia].
Qed.

Lemma idle_is_new w :
  invariant w → isFlushPending (loader w) = false →
  loader w = newDataloader (loaderFn (loader w)).
Proof.
  intros Hinv Hidle. destruct (idle_empty w Hinv Hidle) as (Hd & Hr & Hj).
  assert (cachePromises (loader w) = ∅) as Hc.
  { apply map_empty. intros k.
    destruct (cachePromises (loader w) !! k) as [p|] eqn:E; [|done].
    apply (coh_cache _ _ (inv_loader _ Hinv)) in E as (i & Hi & _).
    by rewrite Hd in Hi. }
  destruct (loader w); simpl in *. by subst.
Qed.

Lemma idle_runMicrotasks w :
  invariant w → isFlushPending (loader w) = false →
  loader (runMicrotasks w) = loader w ∧ calls (runMicrotasks w) = calls w.
Proof.
  intros Hinv Hidle.
  assert (invariant (runMicrotasks w) ∧
          loader (runMicrotasks w) = loader w ∧
          calls (runMicrotasks w) = calls w) as (_ & ? & ?); [|done].
  apply (runMicrotasks_ind
           (λ w', invariant w' ∧ loader w' = loader w ∧ calls w' = calls w));
    [|done].
  intros w' (Hinv' & Hl & Hc).
  destruct (idle_step w' RunMicrotask Hinv') as [Hl' Hc']; [by rewrite Hl|done|].
  simpl in Hl', Hc'. split_and!; [by apply invariant_tick|congruence..].
Qed.

Lemma invariant_ticks a : ∀ w, invariant w → invariant (ticks a w).
Proof.
  induction a as [|a IH]; intros w Hinv; simpl; [done|].
  by apply IH, invariant_tick.
Qed.

(** With a flush pending, the microtasks up to and including [flushJobs]. *)
Lemma pending_checkpoint w :
  invariant w → isFlushPending (loader w) = true →
  ∃ W,
    runMicrotasks w = runMicrotasks W ∧ invariant W ∧
    loader W = newDataloader (loaderFn (loader w)) ∧
    calls W = calls w ++ [{| callKeys := data (loader w);
                             callSeen := newDataloader (loaderFn (loader w)) |}].
Proof.
  intros Hinv Hflag.
  pose proof (inv_flush _ Hinv) as Hfl. rewrite Hflag in Hfl.
  destruct (countFlush_one_split _ Hfl) as (q1 & q2 & Hq & Hq1).
  pose proof (inv_jobs _ Hinv) as Hjobs. rewrite Hq in Hjobs.
  apply Forall_app in Hjobs as [Hj1 _].
  assert (Forall (sideJob (length (promises w))) q1) as Hside.
  { apply countFlush_zero in Hq1. rewrite Forall_forall in Hq1, Hj1.
    apply Forall_forall. intros j Hj. split; [by apply Hq1|by apply Hj1]. }
  assert (data (loader w) ≠ []) as Hd.
  { pose proof (coh_flag _ _ (inv_loader _ Hinv)) as Hf. rewrite Hflag in Hf.
    by destruct (data (loader w)). }
  destruct (ticks_sideJobs _ q1 w (JobFlush :: q2) Hq Hside)
    as (h' & q' & Ht & _).
  exists (ticks (S (length q1)) w). split_and!.
  - by rewrite runMicrotasks_ticks.
  - by apply invariant_ticks.
  - rewrite ticks_S_r, Ht. unfold tick. simpl.
    rewrite flushJobs_nonempty by done. simpl.
    by destruct (loaderFn (loader w) _ _).
  - rewrite ticks_S_r, Ht. unfold tick. simpl.
    rewrite flushJobs_nonempty by done. simpl.
    by destruct (loaderFn (loader w) _ _).
Qed.

(** X12: a microtask checkpoint in any reachable world, so also with
    jobs of earlier batches queued and in the middle of a batch, calls the
    loader function exactly once if keys are pending, with exactly the
    pending keys, and not at all otherwise; after it nothing is pending,
    nothing is cached and the queue is empty. *)
Theorem X12_checkpoint_flushes_all_pending_keys_in_one_call w :
  reachable w →
  calls (runMicrotasks w) =
    calls w ++
    (if isFlushPending (loader w)
     then [{| callKeys := data (loader w);
              callSeen := newDataloader (loaderFn (loader w)) |}]
     else []) ∧
  loader (runMicrotasks w) = newDataloader (loaderFn (loader w)) ∧
  microtasks (runMicrotasks w) = [].
Proof.
  intros Hreach. pose proof (reachable_invariant w Hreach) as Hinv.
  destruct (isFlushPending (loader w)) eqn:Hflag.
  - destruct (pending_checkpoint w Hinv Hflag) as (W & -> & HinvW & Hl & Hc).
    destruct (idle_runMicrotasks W HinvW) as [Hl' Hc']; [by rewrite Hl|].
    rewrite Hl', Hc', Hl, Hc. split_and!; try done. apply runMicrotasks_done.
  - destruct (idle_runMicrotasks w Hinv Hflag) as [-> ->].
    rewrite app_nil_r. split_and!; [done| |apply runMicrotasks_done].
    by apply idle_is_new.
Qed.

(** X13: in every reachable world the fields of the instance agree.  The
    pending keys are pairwise different and are exactly the keys of
    [cachePromises]; [resolveArr] and [rejectArr] are parallel to [data];
    the promise cached for a key is the one whose callbacks stand at the
    position of the key, it is still pending, and no queued callback and no
    loader promise in flight can settle it; and [isFlushPending] is set
    exactly when keys are pending. *)
Theorem X13_cache_and_pending_keys_agree w :
  reachable w →
  NoDup (data (loader w)) ∧
  (∀ k, k ∈ data (loader w) ↔ is_Some (cachePromises (loader w) !! k)) ∧
  rejectArr (loader w) = resolveArr (loader w) ∧
  length (resolveArr (loader w)) = length (data (loader w)) ∧
  (∀ k p, cachePromises (loader w) !! k = Some p ↔
          ∃ i, data (loader w) !! i = Some k ∧
               resolveArr (loader w) !! i = Some p) ∧
  (∀ k p, cachePromises (loader w) !! k = Some p → awaiting w p) ∧
  (isFlushPending (loader w) = true ↔ data (loader w) ≠ []).
Proof.
  intros Hreach. pose proof (reachable_invariant w Hreach) as Hinv.
  pose proof (reachable_awaiting w Hreach) as Haw.
  destruct (inv_loader _ Hinv) as [Hpar Hlen Hnd Hcache Hbound Hflag].
  split_and!; try done.
  - intros k. split.
    + intros Hin. apply list_elem_of_lookup in Hin as [i Hi].
      destruct (lookup_lt_is_Some_2 (resolveArr (loader w)) i) as [p Hp].
      { rewrite Hlen. by eapply lookup_lt_Some. }
      exists p. apply Hcache. eauto.
    + intros [p Hp]. apply Hcache in Hp as (i & Hi & _).
      by eapply list_elem_of_lookup_2.
  - intros k p Hp. apply Hcache in Hp as (i & _ & Hi).
    rewrite Forall_forall in Haw. apply Haw.
    by eapply list_elem_of_lookup_2.
  - rewrite Hflag. destruct (data (loader w)); simpl; split; done.
Qed.

End Properties.

(** * The loader function of the error-handling example *)

Lemma guardedLoader_negative show hist (ids : list Z) :
  (∃ id, id ∈ ids ∧ (id < 0)%Z) →
  guardedLoader show hist ids = ReturnsPromise (Some (RejectsWith invalidId)).
Proof.
  intros (id & Hin & Hneg). unfold guardedLoader.
  assert (existsb (λ id, (id <? 0)%Z) ids = true) as ->; [|done].
  apply existsb_exists. exists id. split; [by apply list_elem_of_In|].
  by apply Z.ltb_lt.
Qed.

Lemma guardedLoader_valid show hist (ids : list Z) :
  (∀ id, id ∈ ids → (0 ≤ id)%Z) →
  guardedLoader show hist ids =
  ReturnsPromise (Some (Fulfils (plain (mkUser show <$> ids)))).
Proof.
  intros Hall. unfold guardedLoader.
  destruct (existsb (λ id, (id <? 0)%Z) ids) eqn:E; [|done].
  apply existsb_exists in E as (id & Hin & Hneg).
  apply list_elem_of_In in Hin. apply Z.ltb_lt in Hneg.
  specialize (Hall id Hin). lia.
Qed.

(** X11: the error-handling example.  On an instance built on the loader
    function that refuses negative ids: if some [load] call of a batch has a
    negative id, every promise of the batch, also those of valid ids, is
    rejected with the error 'Invalid ID: negative values not allowed'; if
    none has, the promise of each [load id] is fulfilled with the user built
    for [id]. *)
Theorem X11_guarded_loader_rejects_whole_batch_or_loads_users
    show (w : @World Z _ _ User string) k0 ks0 :
  reachable w → isFlushPending (loader w) = false →
  loaderFn (loader w) = guardedLoader show →
  let ks := k0 :: ks0 in
  let returned := (loadAll ks w).1 in
  let mid := runMicrotasks (loadAll ks w).2 in
  let final := runMicrotasks (settle (length (calls w)) mid) in
  ((∃ id, id ∈ ks ∧ (id < 0)%Z) →
     ∀ p, p ∈ returned → promises final !! p = Some (Rejected invalidId)) ∧
  ((∀ id, id ∈ ks → (0 ≤ id)%Z) →
     ∀ (i : nat) id p,
       ks !! i = Some id → returned !! i = Some p →
       promises final !! p = Some (Fulfilled (mkUser show id))).
Proof.
  intros Hreach Hflag Hfn ks returned mid final.
  pose proof (reachable_invariant w Hreach) as Hinv.
  destruct (batch_open w k0 ks0 Hinv Hflag)
    as (_ & _ & _ & _ & _ & _ & _ & _ & _ & _ & _ & Hret).
  destruct (batch_outcome w k0 ks0 Hinv Hflag)
    as (_ & _ & _ & _ & _ & _ & _ & Hout).
  fold ks mid final in Hret, Hout. fold returned in Hret.
  destruct (dedupFirstSeen_spec ks) as (_ & Helem & _).
  rewrite Hfn in Hout. split.
  - intros (id & Hin & Hneg).
    rewrite guardedLoader_negative in Hout
      by (exists id; split; [by apply Helem|done]).
    destruct Hout as (Hrej & _). intros p Hp.
    destruct (returned_has_key _ _ _ Hp) as (i & k & Hk & Hi).
    destruct (Hret i k p Hk Hi) as (a & Ha & ->).
    apply Hrej. by eapply lookup_lt_Some.
  - intros Hall.
    rewrite guardedLoader_valid in Hout
      by (intros id Hid; apply Hall; by apply Helem).
    destruct Hout as (Hat & _). intros i id p Hk Hp.
    destruct (Hret i id p Hk Hp) as (a & Ha & ->).
    apply (Hat a (Plain (mkUser show id))); [by eapply lookup_lt_Some|].
    by rewrite plain_lookup, list_lookup_fmap, Ha.
Qed.

(** * The claims on the loader functions of the test suite *)

Lemma reachable_freshWorld fn : reachable (freshWorld fn).
Proof. apply reachable_init. Qed.

Lemma reachable_openWorld fn : reachable (openWorld fn).
Proof. unfold openWorld. do 2 apply reachable_step. apply reachable_init. Qed.

Lemma reachable_usedWorld : reachable usedWorld.
Proof. unfold usedWorld. do 2 apply reachable_step. apply reachable_openWorld. Qed.

Lemma C1_witness :
  let w := usedWorld in
  let ks := [3; 1; 3; 2; 1]%Z in
  let w' := runMicrotasks (loadAll ks w).2 in
  ∃ keys seen,
    calls w' = calls w ++ [{| callKeys := keys; callSeen := seen |}] ∧
    (∀ evs, Forall (λ ev, isLoad ev = false) evs →
            calls (run evs w') = calls w') ∧
    NoDup keys ∧
    (∀ x, x ∈ keys ↔ x ∈ ks) ∧
    (∀ (i j : nat) x y,
       keys !! i = Some x → keys !! j = Some y → i < j →
       ∃ a b, indexOf x ks = Some a ∧ indexOf y ks = Some b ∧ a < b).
Proof.
  apply (C1_one_invocation_deduplicated_first_seen usedWorld 3%Z [1; 3; 2; 1]%Z).
  - apply reachable_usedWorld.
  - vm_compute. reflexivity.
Defined.

Lemma C2_witness :
  let w := step RunMicrotask (openWorld tenfold) in
  let evs := [RunMicrotask; CallLoad 5%Z; SettleFetch 0] in
  let w2 := run evs (load 1%Z w).2 in
  (load 1%Z w2).1 = (load 1%Z w).1 ∧
  (load 1%Z w2).2 = w2 ∧
  data (loader (load 1%Z w2).2) = data (loader w2).
Proof.
  apply (C2_same_batch_same_promise
           (step RunMicrotask (openWorld tenfold)) 1%Z
           [RunMicrotask; CallLoad 5%Z; SettleFetch 0]).
  vm_compute. exact I.
Defined.

Lemma C3_witness :
  let w := openWorld tenfoldAsync in
  let w1 := tick w in
  let fresh := newDataloader (loaderFn (loader w)) in
  (∃ c, calls w1 = calls w ++ [c] ∧ callKeys c = data (loader w) ∧
        data (loader w) ≠ [] ∧ callSeen c = fresh) ∧
  loader w1 = fresh ∧
  countFlush (microtasks w1) = 0 ∧
  ∀ k,
    let p := (load k w1).1 in
    let w2 := (load k w1).2 in
    p = length (promises w) ∧ (p ∉ resolveArr (loader w)) ∧
    promises w2 = promises w ++ [Pending] ∧
    data (loader w2) = [k] ∧
    resolveArr (loader w2) = [p] ∧ rejectArr (loader w2) = [p] ∧
    cachePromises (loader w2) = {[k := p]} ∧
    isFlushPending (loader w2) = true ∧
    microtasks w2 = microtasks w1 ++ [JobFlush] ∧
    pendingFetches w2 = pendingFetches w1.
Proof.
  apply (C3_state_reset_before_loader_call (openWorld tenfoldAsync) []).
  - apply reachable_openWorld.
  - vm_compute. reflexivity.
Defined.

Lemma C4_counterexample :
  (let w := freshWorld withHole in
   let ks := [1; 2; 3]%Z in
   let rets := [Some (Plain 10%Z); None; Some (Plain 30%Z)] in
   let d := dedupFirstSeen ks in
   let returned := (loadAll ks w).1 in
   let mid := runMicrotasks (loadAll ks w).2 in
   let final := runMicrotasks (settle (length (calls w)) mid) in
   succeedsWith (loaderFn (loader w) (callKeys <$> calls w) d) rets ∧
   length rets = length d ∧
   ks !! 1 = Some 2%Z ∧ returned !! 1 = Some 1 ∧ d !! 1 = Some 2%Z ∧
   promises final = [Fulfilled 10%Z; Pending; Fulfilled 30%Z] ∧
   ∀ evs, promises (run evs final) !! 1 = Some Pending) ∧
  (let w := freshWorld perKeyRequests in
   let ks := [1; -1]%Z in
   let rets := dense [fetchByKey 1; fetchByKey (-1)] in
   let d := dedupFirstSeen ks in
   let returned := (loadAll ks w).1 in
   let mid := runMicrotasks (loadAll ks w).2 in
   let final := runMicrotasks (settle (length (calls w)) mid) in
   succeedsWith (loaderFn (loader w) (callKeys <$> calls w) d) rets ∧
   length rets = length d ∧
   ks !! 1 = Some (-1)%Z ∧ returned !! 1 = Some 1 ∧ d !! 1 = Some (-1)%Z ∧
   ∀ evs,
     promises (run evs (step (FollowThenable 1) final)) !! 1
     = Some (Rejected (Thrown "Not found"%string))).
Proof.
  split.
  - intros w ks rets d returned mid final.
    split_and!; [by left|by vm_compute..|].
    destruct (batch_delivered w 1%Z [2; 3]%Z rets) as (_ & Hdel);
      [apply reachable_freshWorld|done|by left|].
    destruct (Hdel 1 2%Z 1) as (a & Ha & Hp & _ & Hhole); [done|by vm_compute|].
    assert (a = 1) as -> by (vm_compute in Hp; lia).
    intros evs. fold final in Hhole. rewrite Hhole by (by left).
    rewrite decide_False; [done|].
    apply not_overflows. vm_compute. lia.
  - intros w ks rets d returned mid final.
    split_and!; [by right|by vm_compute..|].
    intros evs. apply run_settled; [|done]. by vm_compute.
Qed.

Lemma C4_witness :
  let w := freshWorld perKeyRequests in
  let ks := [3; -1; 3]%Z in
  let items := [fetchByKey 3; fetchByKey (-1)] in
  let d := dedupFirstSeen ks in
  let returned := (loadAll ks w).1 in
  let mid := runMicrotasks (loadAll ks w).2 in
  let final := runMicrotasks (settle (length (calls w)) mid) in
  callKeys <$> calls final = (callKeys <$> calls w) ++ [d] ∧
  ∀ (i : nat) k p,
    ks !! i = Some k → returned !! i = Some p →
    ∃ a item,
      d !! a = Some k ∧ items !! a = Some item ∧
      (∀ evs, resolvedWith (promises (run evs final)) p item) ∧
      (∀ v, item = Plain v →
         ∀ evs, promises (run evs final) !! p = Some (Fulfilled v)).
Proof.
  apply (C4_results_aligned_by_position (freshWorld perKeyRequests)
           3%Z [-1; 3]%Z [fetchByKey 3; fetchByKey (-1)]).
  - apply reachable_freshWorld.
  - vm_compute. reflexivity.
  - right. vm_compute. reflexivity.
  - vm_compute. reflexivity.
Defined.

(** C5: with a loader function that is not [async] and throws, the
    exception leaves [flushJobs] before [.catch] is attached.  After
    [load(1)] and [load(2)] and the microtasks, the error is uncaught and
    both promises are pending, and they stay so whatever happens later:
    they are not rejected. *)
Theorem C5_sync_throw_rejects_nothing :
  let w := freshWorld failingSync in
  let returned := (loadAll [1; 2]%Z w).1 in
  let mid := runMicrotasks (loadAll [1; 2]%Z w).2 in
  let final := runMicrotasks (settle (length (calls w)) mid) in
  returned = [0; 1] ∧
  callKeys <$> calls final = [[1; 2]%Z] ∧
  uncaught final = [Thrown "Batch load failed"%string] ∧
  promises final = [Pending; Pending] ∧
  ∀ evs p, p ∈ returned → promises (run evs final) !! p = Some Pending.
Proof.
  intros w returned mid final.
  split_and!; [by vm_compute..|].
  intros evs p Hp.
  destruct (throwing_loader_leaves_batch_pending w 1%Z [2%Z]
              (Thrown "Batch load failed"%string))
    as [_ Hpend]; [apply reachable_freshWorld|done|done|].
  fold mid final in Hpend.
  change (loadAll [1; 2]%Z w).1 with returned in Hpend.
  apply list_elem_of_lookup in Hp as [i Hi].
  destruct i as [|[|i]]; simplify_eq/=.
  - by apply (Hpend 0 1%Z).
  - by apply (Hpend 1 2%Z).
Qed.

Lemma C6_counterexample :
  let w := (loadAll [1; 1; 2]%Z (freshWorld tenfold)).2 in
  length (resolveArr (loader w)) ≠ length [1; 1; 2]%Z ∧
  length (rejectArr (loader w)) ≠ length [1; 1; 2]%Z.
Proof. vm_compute. split; discriminate. Qed.

Lemma C6_witness :
  let w := usedWorld in
  let ks := [1; 1; 2]%Z in
  let w' := (loadAll ks w).2 in
  data (loader w') = dedupFirstSeen ks ∧
  length (resolveArr (loader w')) = length (dedupFirstSeen ks) ∧
  length (rejectArr (loader w')) = length (dedupFirstSeen ks) ∧
  ∀ (a : nat) k,
    data (loader w') !! a = Some k →
    ∃ p, resolveArr (loader w') !! a = Some p ∧
         rejectArr (loader w') !! a = Some p ∧
         cachePromises (loader w') !! k = Some p.
Proof.
  apply (C6_one_callback_pair_per_distinct_key usedWorld [1; 1; 2]%Z).
  - apply reachable_usedWorld.
  - vm_compute. reflexivity.
Defined.

Lemma C7_counterexample :
  let ks := [1; 2; 3]%Z in
  let rets := [Some (Plain 10%Z); None; Some (Plain 30%Z); Some (Plain 40%Z)] in
  let final (fn : list (list Z) → list Z → @LoaderResult Z string) :=
    runMicrotasks (settle 0 (runMicrotasks (loadAll ks (freshWorld fn)).2)) in
  holeAndExtra [] (dedupFirstSeen ks) = Returns rets ∧
  withHole [] (dedupFirstSeen ks) = Returns (take (length ks) rets) ∧
  length (dedupFirstSeen ks) < length rets ∧
  (loadAll ks (freshWorld holeAndExtra)).1 = [0; 1; 2] ∧
  promises (final withHole) = [Fulfilled 10%Z; Pending; Fulfilled 30%Z] ∧
  promises (final holeAndExtra)
  = [Fulfilled 10%Z; Rejected TypeError; Fulfilled 30%Z].
Proof. vm_compute. split_and!; (reflexivity || lia). Qed.

Lemma C7_witness :
  (let w := freshWorld oneShort in
   let ks := [1; 2; 3]%Z in
   let final := runMicrotasks (settle (length (calls w))
                  (runMicrotasks (loadAll ks w).2)) in
   ∀ evs, promises (run evs final) !! 2 = Some Pending) ∧
  (let w := freshWorld oneLong in
   let ks := [1; 2; 1]%Z in
   let rets := plain [10; 20; 0]%Z in
   let d := dedupFirstSeen ks in
   let returned := (loadAll ks w).1 in
   let final := runMicrotasks (settle (length (calls w))
                  (runMicrotasks (loadAll ks w).2)) in
   (uncaught final = uncaught w ∧
    ∀ (i : nat) k p,
      ks !! i = Some k → returned !! i = Some p →
      ∃ a item, d !! a = Some k ∧ rets !! a = Some (Some item) ∧
                ∀ evs, resolvedWith (promises (run evs final)) p item) ∧
   ∀ (V : @World Z _ _ Z string),
     runMicrotasks (set_microtasks [JobThen rets [0; 1] [0; 1]] V) =
     runMicrotasks
       (set_microtasks [JobThen (take 2 rets) [0; 1] [0; 1]] V)) ∧
  (let w := freshWorld holeAndExtra in
   let ks := [1; 2; 3]%Z in
   let final := runMicrotasks (settle (length (calls w))
                  (runMicrotasks (loadAll ks w).2)) in
   ∀ evs, promises (run evs final) !! 1 = Some (Rejected TypeError)).
Proof.
  split_and!.
  - intros w ks final.
    destruct (C7_mismatched_result_length (freshWorld oneShort) 1%Z [2; 3]%Z
                (plain [10; 20]%Z)) as (Hshort & _);
      [apply reachable_freshWorld|reflexivity|left; vm_compute; reflexivity|].
    apply (Hshort 2 2 3%Z 2); vm_compute; (reflexivity || lia).
  - intros w ks rets d returned final.
    destruct (C7_mismatched_result_length (freshWorld oneLong) 1%Z [2; 1]%Z
                (plain [10; 20; 0]%Z)) as (_ & Hlong & Hdrop & _);
      [apply reachable_freshWorld|reflexivity|left; vm_compute; reflexivity|].
    split.
    + apply Hlong; [vm_compute; lia|].
      vm_compute. repeat constructor; by eexists.
    + intros V. apply (Hdrop V [0; 1]); [vm_compute; lia|].
      vm_compute. repeat constructor; by eexists.
  - intros w ks final.
    destruct (C7_mismatched_result_length (freshWorld holeAndExtra) 1%Z
                [2; 3]%Z
                [Some (Plain 10%Z); None; Some (Plain 30%Z); Some (Plain 40%Z)])
      as (_ & _ & _ & Hhole);
      [apply reachable_freshWorld|reflexivity|left; vm_compute; reflexivity|].
    apply (Hhole ltac:(vm_compute; repeat constructor; by eexists) 1 1 2%Z 1);
      vm_compute; reflexivity.
Defined.

Lemma C8_witness :
  let w := set_loader (set_isFlushPending true (newDataloader tenfold))
             (freshWorld tenfold) in
  flushJobs w = set_loader (set_isFlushPending false (loader w)) w ∧
  isFlushPending (loader (flushJobs w)) = false ∧
  calls (flushJobs w) = calls w ∧
  uncaught (flushJobs w) = uncaught w ∧
  microtasks (flushJobs w) = microtasks w ∧
  promises (flushJobs w) = promises w ∧
  pendingFetches (flushJobs w) = pendingFetches w ∧
  data (loader (flushJobs w)) = data (loader w) ∧
  resolveArr (loader (flushJobs w)) = resolveArr (loader w) ∧
  rejectArr (loader (flushJobs w)) = rejectArr (loader w) ∧
  cachePromises (loader (flushJobs w)) = cachePromises (loader w).
Proof.
  apply (C8_empty_flush_is_a_noop
           (set_loader (set_isFlushPending true (newDataloader tenfold))
              (freshWorld tenfold))).
  reflexivity.
Defined.

Lemma C9_witness :
  let w := openWorld tenfold in
  countFlush (microtasks w) ≤ 1 ∧
  countFlush (microtasks w) = (if isFlushPending (loader w) then 1 else 0) ∧
  ∀ k,
    (isFlushPending (loader w) = false →
       isFlushPending (loader (load k w).2) = true ∧
       microtasks (load k w).2 = microtasks w ++ [JobFlush]) ∧
    (isFlushPending (loader w) = true →
       isFlushPending (loader (load k w).2) = true ∧
       microtasks (load k w).2 = microtasks w).
Proof.
  apply (C9_at_most_one_flush_scheduled (openWorld tenfold)).
  apply reachable_openWorld.
Defined.

Lemma C10_witness : Forall (λ c, callKeys c ≠ []) (calls usedWorld).
Proof.
  apply (C10_loader_never_called_with_no_keys usedWorld).
  apply reachable_usedWorld.
Defined.

(** * The further properties on the loader functions of the test suite *)

Lemma X2_witness :
  let w := usedWorld in
  (data (loader w) ≠ [] ↔ JobFlush ∈ microtasks w) ∧
  (microtasks w = [] → loader w = newDataloader (loaderFn (loader w))).
Proof.
  apply (X2_pending_keys_have_a_flush_scheduled usedWorld).
  apply reachable_usedWorld.
Defined.

Lemma X3_witness :
  let w := openWorld tenfold in
  let k := 1%Z in
  promises (load k w).2 !! (load k w).1 = Some Pending ∧
  calls (load k w).2 = calls w ∧
  uncaught (load k w).2 = uncaught w ∧
  pendingFetches (load k w).2 = pendingFetches w ∧
  ∀ p st, promises w !! p = Some st → promises (load k w).2 !! p = Some st.
Proof.
  apply (X3_load_returns_pending_and_calls_nothing (openWorld tenfold) 1%Z).
  apply reachable_openWorld.
Defined.

Lemma X4_witness :
  let w := freshWorld tenfoldAsync in
  let first := [1; 2]%Z in
  let second := [1; 3]%Z in
  let final1 := runMicrotasks (settle (length (calls w))
                  (runMicrotasks (loadAll first w).2)) in
  let final2 := runMicrotasks (settle (length (calls final1))
                  (runMicrotasks (loadAll second final1).2)) in
  callKeys <$> calls final2 =
    (callKeys <$> calls w) ++ [dedupFirstSeen first; dedupFirstSeen second] ∧
  ∀ p1 p2,
    p1 ∈ (loadAll first w).1 → p2 ∈ (loadAll second final1).1 → p1 < p2.
Proof.
  apply (X4_successive_batches_are_isolated (freshWorld tenfoldAsync)
           1%Z [2%Z] 1%Z [3%Z]).
  - apply reachable_freshWorld.
  - reflexivity.
Defined.

Lemma X5_witness :
  let w := freshWorld failsOnce in
  let first := [1]%Z in
  let second := [2]%Z in
  let items := [Plain 20%Z] in
  let d1 := dedupFirstSeen first in
  let d2 := dedupFirstSeen second in
  let final1 := runMicrotasks (settle (length (calls w))
                  (runMicrotasks (loadAll first w).2)) in
  let final2 := runMicrotasks (settle (length (calls final1))
                  (runMicrotasks (loadAll second final1).2)) in
  (∀ (i : nat) k p,
     second !! i = Some k → (loadAll second final1).1 !! i = Some p →
     ∃ a item, d2 !! a = Some k ∧ items !! a = Some item ∧
               ∀ evs, resolvedWith (promises (run evs final2)) p item) ∧
  (∀ err p,
     loaderFn (loader w) (callKeys <$> calls w) d1
       = ReturnsPromise (Some (RejectsWith err)) →
     p ∈ (loadAll first w).1 →
     promises final2 !! p = Some (Rejected err)).
Proof.
  apply (X5_next_batch_unaffected_by_previous_outcome (freshWorld failsOnce)
           1%Z [] 2%Z [] [Plain 20%Z]).
  - apply reachable_freshWorld.
  - reflexivity.
  - right. vm_compute. reflexivity.
  - vm_compute. reflexivity.
Defined.

Lemma X6_witness :
  let w := freshWorld perKeyRequests in
  let ks := [1; -1; 1]%Z in
  let returned := (loadAll ks w).1 in
  let mid := runMicrotasks (loadAll ks w).2 in
  let final := runMicrotasks (settle (length (calls w)) mid) in
  isFlushPending (loader w) = false ∧
  ∀ (i : nat) k p,
    ks !! i = Some k → returned !! i = Some p →
    (∀ evs, resolvedWith (promises (run evs final)) p (fetchByKey k)) ∧
    (∀ evs evs',
       promises (run evs' (step (FollowThenable p) (run evs final))) !! p
       = Some (finalState (fetchByKey k))) ∧
    (∀ (i' : nat) p',
       ks !! i' = Some k → returned !! i' = Some p' → p' = p).
Proof.
  split; [reflexivity|].
  apply (X6_pointwise_loader_gives_each_key_its_value
           (freshWorld perKeyRequests) 1%Z [-1; 1]%Z fetchByKey).
  - apply reachable_freshWorld.
  - reflexivity.
  - right. vm_compute. reflexivity.
Defined.

Lemma X7_witness :
  let w := freshWorld failingAsync in
  let err := Thrown "Batch load failed"%string in
  let ks := [1; 1; 2]%Z in
  let returned := (loadAll ks w).1 in
  let mid := runMicrotasks (loadAll ks w).2 in
  let final := runMicrotasks (settle (length (calls w)) mid) in
  uncaught final = uncaught w ∧
  ∀ p evs, p ∈ returned →
    promises (run evs final) !! p = Some (Rejected err).
Proof.
  apply (X7_rejected_loader_promise_rejects_every_promise
           (freshWorld failingAsync) 1%Z [1; 2]%Z
           (Thrown "Batch load failed"%string)).
  - apply reachable_freshWorld.
  - reflexivity.
  - vm_compute. reflexivity.
Defined.

Lemma X8_witness :
  let w := usedWorld in
  let ks := [3; 1; 2]%Z in
  (loadAll ks w).1 = seq (length (promises w)) (length ks) ∧
  data (loader (loadAll ks w).2) = ks ∧
  callKeys <$> calls (runMicrotasks (loadAll ks w).2)
    = (callKeys <$> calls w) ++ [ks].
Proof.
  apply (X8_distinct_keys_pass_unchanged usedWorld 3%Z [1; 2]%Z).
  - apply reachable_usedWorld.
  - vm_compute. reflexivity.
  - apply (bool_decide_unpack (NoDup [3; 1; 2]%Z)). vm_compute. exact I.
Defined.

Lemma X9_witness :
  let w := freshWorld tenfoldAsync in
  let first := [1; 2]%Z in
  let second := [3; 1]%Z in
  let items1 := [Plain 10; Plain 20]%Z in
  let items2 := [Plain 30; Plain 10]%Z in
  let d1 := dedupFirstSeen first in
  let d2 := dedupFirstSeen second in
  let m1 := runMicrotasks (loadAll first w).2 in
  let m2 := runMicrotasks (loadAll second m1).2 in
  let e1 := runMicrotasks (settle (S (length (calls w))) m2) in
  let e2 := runMicrotasks (settle (length (calls w)) e1) in
  let f1 := runMicrotasks (settle (length (calls w)) m2) in
  let f2 := runMicrotasks (settle (S (length (calls w))) f1) in
  callKeys <$> calls e2 = (callKeys <$> calls w) ++ [d1; d2] ∧
  callKeys <$> calls f2 = (callKeys <$> calls w) ++ [d1; d2] ∧
  promises e2 = promises f2 ∧
  (∀ (i : nat) k p,
     first !! i = Some k → (loadAll first w).1 !! i = Some p →
     ∃ a item, d1 !! a = Some k ∧ items1 !! a = Some item ∧
               promises e1 !! p = Some Pending ∧
               resolvedWith (promises f1) p item ∧
               resolvedWith (promises e2) p item ∧
               resolvedWith (promises f2) p item) ∧
  (∀ (i : nat) k p,
     second !! i = Some k → (loadAll second m1).1 !! i = Some p →
     ∃ a item, d2 !! a = Some k ∧ items2 !! a = Some item ∧
               resolvedWith (promises e1) p item ∧
               promises f1 !! p = Some Pending ∧
               resolvedWith (promises e2) p item ∧
               resolvedWith (promises f2) p item).
Proof.
  apply (X9_batches_in_flight_complete_in_any_order (freshWorld tenfoldAsync)
           1%Z [2%Z] 3%Z [1%Z] [Plain 10; Plain 20]%Z [Plain 30; Plain 10]%Z).
  - apply reachable_freshWorld.
  - reflexivity.
  - vm_compute. reflexivity.
  - vm_compute. reflexivity.
  - vm_compute. reflexivity.
  - vm_compute. reflexivity.
Defined.

Lemma X10_witness :
  let w := freshWorld neverSettles in
  let ks := [1; 2]%Z in
  let returned := (loadAll ks w).1 in
  let mid := runMicrotasks (loadAll ks w).2 in
  loader mid = newDataloader (loaderFn (loader w)) ∧
  microtasks mid = [] ∧
  ∀ p evs, p ∈ returned → promises (run evs mid) !! p = Some Pending.
Proof.
  apply (X10_unsettled_loader_promise_keeps_batch_pending
           (freshWorld neverSettles) 1%Z [2%Z]).
  - apply reachable_freshWorld.
  - reflexivity.
  - vm_compute. reflexivity.
Defined.

Lemma X11_witness :
  let show := (pretty : Z → string) in
  let w := init (guardedLoader show) true in
  let ks := [1; -1; 2]%Z in
  let returned := (loadAll ks w).1 in
  let mid := runMicrotasks (loadAll ks w).2 in
  let final := runMicrotasks (settle (length (calls w)) mid) in
  ((∃ id, id ∈ ks ∧ (id < 0)%Z) →
     ∀ p, p ∈ returned → promises final !! p = Some (Rejected invalidId)) ∧
  ((∀ id, id ∈ ks → (0 ≤ id)%Z) →
     ∀ (i : nat) id p,
       ks !! i = Some id → returned !! i = Some p →
       promises final !! p = Some (Fulfilled (mkUser show id))).
Proof.
  apply (X11_guarded_loader_rejects_whole_batch_or_loads_users
           (pretty : Z → string) (init (guardedLoader pretty) true)
           1%Z [-1; 2]%Z).
  - apply reachable_init.
  - reflexivity.
  - reflexivity.
Defined.

Lemma X12_witness :
  let w := step (CallLoad 7%Z) (step RunMicrotask (openWorld tenfold)) in
  calls (runMicrotasks w) =
    calls w ++
    (if isFlushPending (loader w)
     then [{| callKeys := data (loader w);
              callSeen := newDataloader (loaderFn (loader w)) |}]
     else []) ∧
  loader (runMicrotasks w) = newDataloader (loaderFn (loader w)) ∧
  microtasks (runMicrotasks w) = [].
Proof.
  apply (X12_checkpoint_flushes_all_pending_keys_in_one_call
           (step (CallLoad 7%Z) (step RunMicrotask (openWorld tenfold)))).
  do 2 apply reachable_step. apply reachable_openWorld.
Defined.

Lemma X13_witness :
  let w := openWorld tenfold in
  NoDup (data (loader w)) ∧
  (∀ k, k ∈ data (loader w) ↔ is_Some (cachePromises (loader w) !! k)) ∧
  rejectArr (loader w) = resolveArr (loader w) ∧
  length (resolveArr (loader w)) = length (data (loader w)) ∧
  (∀ k p, cachePromises (loader w) !! k = Some p ↔
          ∃ i, data (loader w) !! i = Some k ∧
               resolveArr (loader w) !! i = Some p) ∧
  (∀ k p, cachePromises (loader w) !! k = Some p → awaiting w p) ∧
  (isFlushPending (loader w) = true ↔ data (loader w) ≠ []).
Proof.
  apply (X13_cache_and_pending_keys_agree (openWorld tenfold)).
  apply reachable_openWorld.
Defined.
